(** * sep2html / sep2rss: a shallow embedding and its verified properties

    The two scripts of the repository are embedded as Rocq functions:

    - [Py]       the Python string and integer primitives the scripts call
                 ([str.strip], [str.split], [str.lower], [int], [%04d], ...);
    - [Re]       the regular expressions of the scripts, each written out as
                 the matcher the pattern denotes ([fixpat], the two
                 [re.split] patterns, the date search of the feed builder);
    - [Sep2Html] [fixanchor], [fixemail], [linkemail] and [fixfile], then
                 [get_sep_type], [get_input_lines], [find_sep] and the
                 addresses that [browse_file] and [browse_remote] open;
    - [Sep2Rss]  [firstline_startingwith], [sep_creation_dt], the sort and
                 the item loop;
    - [Sep2HtmlMain] the driver of sep2html.py: [check_requirements],
                 [sep_type_error], [make_html] and [push_sep].

    Modelling conventions.  A Python string is a [list ascii]: characters
    are the code points below 256.  Output written to a stream is the log
    of a writer monad; an exception that leaves a function is the [Raise]
    outcome, and whatever had been written before it stays written.
    Library calls whose result is not computed by the repository (the
    address parser, the regular-expression engine on a non-literal pattern,
    the interpreter's error text, the file's modification date, the local
    time of the epoch) are fields of an environment record or variables of
    a section; the banner index that [random.choice] draws is an argument
    of [fixfile].  The files that the driver reads are a [world]; what it
    takes from the interpreter, from Docutils and from the operating
    system is a [host], and what it leaves behind (the two streams, the
    files written, the modes set, the commands run) is a [trace].  [int]
    is the conversion of a Python 3 interpreter with its default limit of
    4300 digits. *)

From Stdlib Require Import String Ascii List ZArith NArith Lia Bool.
From Stdlib Require Import DecimalString Permutation Sorted.
From Stdlib Require DecimalPos DecimalN DecimalFacts.
Import ListNotations.

Open Scope string_scope.
Open Scope list_scope.

(** A Python string. Literals are written as Rocq strings and coerced. *)
Definition str := list ascii.

Coercion list_ascii_of_string : string >-> list.

(** The double quote and the newline, which a literal here cannot hold. *)
Definition dquote : ascii := ascii_of_nat 34.
Definition newline : ascii := ascii_of_nat 10.
Definition formfeed : ascii := ascii_of_nat 12.
Definition carriage_return : ascii := ascii_of_nat 13.

(** [lit s] is the literal [s] with every backquote read as a double quote:
    the templates of the scripts are full of double quotes and contain no
    backquote. *)
Definition lit (s : string) : str :=
  map (fun c => if Ascii.eqb c "`" then dquote else c) (list_ascii_of_string s).

Definition nl : str := [newline].

(** * Python primitives *)
Module Py.

Definition ord (c : ascii) : N := N_of_ascii c.

Definition in_range (lo hi : N) (c : ascii) : bool :=
  ((lo <=? ord c) && (ord c <=? hi))%N.

(** [str.isspace] on one character, which is also the class [\s]. *)
Definition isspace (c : ascii) : bool :=
  in_range 9 13 c || in_range 28 32 c || (ord c =? 133)%N || (ord c =? 160)%N.

(** The class [\d] and the digits [int] accepts. *)
Definition isdigit (c : ascii) : bool := in_range 48 57 c.

(** The class [\w]: alphanumeric characters and the underscore. *)
Definition isword (c : ascii) : bool :=
  isdigit c || in_range 65 90 c || in_range 97 122 c || (ord c =? 95)%N
  || (ord c =? 170)%N || in_range 178 179 c || (ord c =? 181)%N
  || in_range 185 186 c || in_range 188 190 c || in_range 192 214 c
  || in_range 216 246 c || in_range 248 255 c.

Definition lower_char (c : ascii) : ascii :=
  if in_range 65 90 c || in_range 192 214 c || in_range 216 222 c
  then ascii_of_N (ord c + 32) else c.

Definition lower (s : str) : str := map lower_char s.

Fixpoint streq (a b : str) : bool :=
  match a, b with
  | [], [] => true
  | x :: a', y :: b' => Ascii.eqb x y && streq a' b'
  | _, _ => false
  end.

(** [x in xs] for a list of strings. *)
Definition mem (x : str) (xs : list str) : bool := existsb (streq x) xs.

(** [s.startswith(p)], and the rest of [s] after the prefix [p]. *)
Fixpoint strip_prefix (p s : str) : option str :=
  match p, s with
  | [], _ => Some s
  | x :: p', y :: s' => if Ascii.eqb x y then strip_prefix p' s' else None
  | _ :: _, [] => None
  end.

Definition startswith (s p : str) : bool :=
  match strip_prefix p s with Some _ => true | None => false end.

Definition endswith (s p : str) : bool := startswith (rev s) (rev p).

(** [c in s] for a one-character string [c]. *)
Definition has_char (c : ascii) (s : str) : bool := existsb (Ascii.eqb c) s.

(** [p in s]: [p] occurs in [s] as a substring. *)
Fixpoint contains (p s : str) : bool :=
  startswith s p || match s with [] => false | _ :: t => contains p t end.

Fixpoint lstrip (s : str) : str :=
  match s with
  | c :: t => if isspace c then lstrip t else s
  | [] => []
  end.

Definition rstrip (s : str) : str := rev (lstrip (rev s)).

Definition strip (s : str) : str := rstrip (lstrip s).

(** The longest prefix of [s] whose characters satisfy [p], and the rest. *)
Fixpoint span (p : ascii -> bool) (s : str) : str * str :=
  match s with
  | c :: t => if p c then let (a, b) := span p t in (c :: a, b) else ([], s)
  | [] => ([], [])
  end.

(** [s.split()]: the maximal runs of characters that are not whitespace.
    [cur] is the run being read. *)
Fixpoint words_from (cur : str) (s : str) : list str :=
  match s with
  | [] => match cur with [] => [] | _ => [cur] end
  | c :: t =>
      if isspace c
      then match cur with [] => words_from [] t | _ => cur :: words_from [] t end
      else words_from (cur ++ [c]) t
  end.

Definition split_ws (s : str) : list str := words_from [] s.

(** [c] put in front of the first piece of a list of pieces. *)
Definition cons_head (c : ascii) (ps : list str) : list str :=
  match ps with
  | h :: r => (c :: h) :: r
  | [] => [[c]]
  end.

(** [s.split(d)] for a one-character separator [d]. *)
Fixpoint split_on (d : ascii) (s : str) : list str :=
  match s with
  | [] => [[]]
  | c :: t => if Ascii.eqb c d then [] :: split_on d t
              else cons_head c (split_on d t)
  end.

(** [s.split(d, 1)]: one piece when [d] does not occur, else the text
    before its first occurrence and the text after it. *)
Fixpoint split1 (d : ascii) (s : str) : list str :=
  match s with
  | [] => [[]]
  | c :: t => if Ascii.eqb c d then [[]; t] else cons_head c (split1 d t)
  end.

(** [sep.join(ps)]. *)
Fixpoint join (sep : str) (ps : list str) : str :=
  match ps with
  | [] => []
  | [p] => p
  | p :: r => p ++ sep ++ join sep r
  end.

(** [html.escape(s)], quotes included. *)
Definition escape_char (c : ascii) : str :=
  if Ascii.eqb c "&" then "&amp;"
  else if Ascii.eqb c "<" then "&lt;"
  else if Ascii.eqb c ">" then "&gt;"
  else if Ascii.eqb c dquote then "&quot;"
  else if Ascii.eqb c "'" then "&#x27;"
  else [c].

Definition escape (s : str) : str := flat_map escape_char s.

(** ** Integers *)

Definition digit_val (c : ascii) : Z := Z.of_N (ord c) - 48.

(** The digits of an [int] literal: decimal digits, a single underscore
    allowed between two of them. [prev] tells that the character before
    was a digit. *)
Fixpoint int_digits (acc : Z) (prev : bool) (s : str) : option Z :=
  match s with
  | [] => if prev then Some acc else None
  | c :: t =>
      if isdigit c then int_digits (10 * acc + digit_val c) true t
      else if Ascii.eqb c "_" && prev then int_digits acc false t
      else None
  end.

(** The whitespace that [int] skips around a literal: the whitespace of
    C and the whitespace of Unicode beyond ASCII.  The separators U+001C
    to U+001F, which [str.isspace] accepts, are not part of it. *)
Definition int_space (c : ascii) : bool :=
  in_range 9 13 c || (ord c =? 32)%N || (ord c =? 133)%N || (ord c =? 160)%N.

Fixpoint int_lstrip (s : str) : str :=
  match s with
  | c :: t => if int_space c then int_lstrip t else s
  | [] => []
  end.

Definition int_strip (s : str) : str := rev (int_lstrip (rev (int_lstrip s))).

(** [sys.int_info.default_max_str_digits], the limit of the interpreter
    on the digits of a literal; the scripts leave it as it is. *)
Definition max_str_digits : N := 4300.

(** The digits of a literal, leading zeros included, underscores not. *)
Fixpoint count_digits (s : str) : N :=
  match s with
  | [] => 0
  | c :: t => if isdigit c then N.succ (count_digits t) else count_digits t
  end.

(** The literal after the sign: more digits than the limit are a
    [ValueError] as well. *)
Definition int_literal (t : str) : option Z :=
  if (count_digits t <=? max_str_digits)%N then int_digits 0 false t else None.

(** [int(s)]: [None] stands for the [ValueError].  The text is stripped
    of the whitespace of [int], may start with a sign, and is read in
    base ten. *)
Definition int (s : str) : option Z :=
  match int_strip s with
  | c :: t =>
      if Ascii.eqb c "-" then option_map Z.opp (int_literal t)
      else if Ascii.eqb c "+" then int_literal t
      else int_literal (c :: t)
  | [] => None
  end.

(** [str(n)] for a natural number. *)
Definition dec (n : N) : str :=
  list_ascii_of_string (NilZero.string_of_uint (N.to_uint n)).

Definition zfill (w : nat) (s : str) : str := repeat "0"%char (w - length s) ++ s.

(** ["%d" % z]. *)
Definition fmt_d (z : Z) : str :=
  if (z <? 0)%Z then "-" ++ dec (Z.abs_N z) else dec (Z.abs_N z).

(** ["%0wd" % z]: the width counts the sign. *)
Definition fmt_0d (w : nat) (z : Z) : str :=
  if (z <? 0)%Z then "-" ++ zfill (w - 1) (dec (Z.abs_N z))
  else zfill w (dec (Z.abs_N z)).

(** ["%0.pd" % z]: the precision counts digits only. *)
Definition fmt_prec (p : nat) (z : Z) : str :=
  if (z <? 0)%Z then "-" ++ zfill p (dec (Z.abs_N z))
  else zfill p (dec (Z.abs_N z)).

(** ** Paths *)

(** The index of the last occurrence of [c] in [s], if any. *)
Fixpoint rfind_from (c : ascii) (s : str) (i : nat) (last : option nat) : option nat :=
  match s with
  | [] => last
  | x :: t => rfind_from c t (S i) (if Ascii.eqb x c then Some i else last)
  end.

Definition rfind (c : ascii) (s : str) : option nat := rfind_from c s 0 None.

(** [os.path.basename] of a POSIX path. *)
Definition basename (p : str) : str :=
  match rfind "/" p with
  | Some i => skipn (S i) p
  | None => p
  end.

(** [os.path.splitext(p)[0]] of a POSIX path: the path without its
    extension, which starts at the last dot of the last component unless
    only dots come before it there. *)
Definition splitext_root (p : str) : str :=
  let start := match rfind "/" p with Some i => S i | None => 0 end in
  match rfind "." p with
  | Some d =>
      if (start <=? d)%nat && negb (forallb (Ascii.eqb ".") (firstn (d - start) (skipn start p)))
      then firstn d p else p
  | None => p
  end.

(** ** Lines *)

(** The characters at which [str.splitlines] ends a line. *)
Definition linebreak (c : ascii) : bool :=
  in_range 10 13 c || in_range 28 30 c || (ord c =? 133)%N.

(** [s.splitlines(True)]: the lines of [s], each with the line end that
    closes it; a carriage return and the newline right after it close one
    line together.  [cur] is the line being read. *)
Fixpoint splitlines_from (cur s : str) : list str :=
  match s with
  | [] => match cur with [] => [] | _ => [cur] end
  | c :: t =>
      if linebreak c then
        match t with
        | c' :: t' =>
            if Ascii.eqb c carriage_return && Ascii.eqb c' newline
            then (cur ++ [c; c']) :: splitlines_from [] t'
            else (cur ++ [c]) :: splitlines_from [] t
        | [] => [cur ++ [c]]
        end
      else splitlines_from (cur ++ [c]) t
  end.

Definition splitlines (s : str) : list str := splitlines_from [] s.

End Py.

(** * The regular expressions of the scripts *)
Module Re.
Import Py.

(** ** The two [re.split] patterns of the header renderer *)

(** [re.split(",\s*", v)]: a separator is a comma and the whitespace after
    it. [skip] tells that the scan stands inside a separator. *)
Fixpoint split_comma_from (skip : bool) (s : str) : list str :=
  match s with
  | [] => [[]]
  | c :: t =>
      if skip && isspace c then split_comma_from true t
      else if Ascii.eqb c "," then [] :: split_comma_from true t
      else cons_head c (split_comma_from false t)
  end.

Definition split_comma (v : str) : list str := split_comma_from false v.

Definition starts_with_space (s : str) : bool :=
  match s with c :: _ => isspace c | [] => false end.

(** [re.split(",?\s+", v)]: a separator is a run of whitespace, with the
    comma right before it when there is one; a comma that no whitespace
    follows is ordinary text. *)
Fixpoint split_comma_ws_from (skip : bool) (s : str) : list str :=
  match s with
  | [] => [[]]
  | c :: t =>
      if isspace c then
        if skip then split_comma_ws_from true t
        else [] :: split_comma_ws_from true t
      else if Ascii.eqb c "," && starts_with_space t then
        [] :: split_comma_ws_from true t
      else cons_head c (split_comma_ws_from false t)
  end.

Definition split_comma_ws (v : str) : list str := split_comma_ws_from false v.

(** ** [fixpat]

    [((https?|ftp):[-_a-zA-Z0-9/.+~:?#$=&,]+)|(sep-\d+(.txt|.rst)?)|
     (RFC[- ]?(?P<rfcnum>\d+))|(SEP\s+(?P<sepnum>\d+))|.]

    Each alternative is a function from the text at the scan position to
    the text it matches and the text left. *)

(** The character class of the URL alternative. *)
Definition urlchar (c : ascii) : bool :=
  in_range 97 122 c || in_range 65 90 c || isdigit c
  || has_char c "-_/.+~:?#$=&,".

(** [(https?|ftp):] *)
Definition match_scheme (s : str) : option (str * str) :=
  match strip_prefix "https:" s with
  | Some r => Some ("https:" : str, r)
  | None =>
      match strip_prefix "http:" s with
      | Some r => Some ("http:" : str, r)
      | None =>
          match strip_prefix "ftp:" s with
          | Some r => Some ("ftp:" : str, r)
          | None => None
          end
      end
  end.

(** A run of one or more characters of the class [p]. *)
Definition match_run (p : ascii -> bool) (s : str) : option (str * str) :=
  match span p s with
  | ([], _) => None
  | (a, b) => Some (a, b)
  end.

(** [(https?|ftp):[-_a-zA-Z0-9/.+~:?#$=&,]+] *)
Definition match_url (s : str) : option (str * str) :=
  match match_scheme s with
  | Some (sch, r) =>
      match match_run urlchar r with
      | Some (run, rest) => Some (sch ++ run, rest)
      | None => None
      end
  | None => None
  end.

(** The dot of a pattern: any character but the newline. *)
Definition dotchar (c : ascii) : bool := negb (Ascii.eqb c newline).

(** [(.txt|.rst)?], the dots being pattern dots. *)
Definition match_ext (s : str) : str * str :=
  match s with
  | c :: r =>
      if dotchar c then
        match strip_prefix "txt" r with
        | Some rest => (c :: "txt", rest)
        | None =>
            match strip_prefix "rst" r with
            | Some rest => (c :: "rst", rest)
            | None => ([], s)
            end
        end
      else ([], s)
  | [] => ([], s)
  end.

(** [sep-\d+(.txt|.rst)?] *)
Definition match_sepfile (s : str) : option (str * str) :=
  match strip_prefix "sep-" s with
  | Some r =>
      match match_run isdigit r with
      | Some (ds, r') =>
          let (ext, rest) := match_ext r' in Some ("sep-" ++ ds ++ ext, rest)
      | None => None
      end
  | None => None
  end.

(** [RFC[- ]?(?P<rfcnum>\d+)]: the matched text, the group and the rest. *)
Definition match_rfc (s : str) : option (str * str * str) :=
  match strip_prefix "RFC" s with
  | Some r =>
      match r with
      | c :: r1 =>
          if Ascii.eqb c "-" || Ascii.eqb c " " then
            match match_run isdigit r1 with
            | Some (ds, rest) => Some ("RFC" ++ c :: ds, ds, rest)
            | None => None
            end
          else
            match match_run isdigit r with
            | Some (ds, rest) => Some ("RFC" ++ ds, ds, rest)
            | None => None
            end
      | [] => None
      end
  | None => None
  end.

(** [SEP\s+(?P<sepnum>\d+)]: the matched text, the group and the rest. *)
Definition match_sep (s : str) : option (str * str * str) :=
  match strip_prefix "SEP" s with
  | Some r =>
      match match_run isspace r with
      | Some (ws, r1) =>
          match match_run isdigit r1 with
          | Some (ds, rest) => Some ("SEP" ++ ws ++ ds, ds, rest)
          | None => None
          end
      | None => None
      end
  | None => None
  end.

(** A match object of [fixpat]: [group(0)] and the two named groups, a
    group that took no part in the match being [None]. *)
Record rmatch := {
  group0 : str;
  rfcnum : option str;
  sepnum : option str
}.

(** The alternative that produced a match. *)
Inductive alt := AUrl | ASepFile | ARfc | ASep | AChar.

(** [fixpat.match] at the scan position: the alternatives in the order of
    the pattern, the first that matches wins. *)
Definition fixpat_match (s : str) : option (alt * rmatch * str) :=
  match match_url s with
  | Some (t, rest) => Some (AUrl, {| group0 := t; rfcnum := None; sepnum := None |}, rest)
  | None =>
  match match_sepfile s with
  | Some (t, rest) => Some (ASepFile, {| group0 := t; rfcnum := None; sepnum := None |}, rest)
  | None =>
  match match_rfc s with
  | Some (t, d, rest) => Some (ARfc, {| group0 := t; rfcnum := Some d; sepnum := None |}, rest)
  | None =>
  match match_sep s with
  | Some (t, d, rest) => Some (ASep, {| group0 := t; rfcnum := None; sepnum := Some d |}, rest)
  | None =>
  match s with
  | c :: rest =>
      if dotchar c
      then Some (AChar, {| group0 := [c]; rfcnum := None; sepnum := None |}, rest)
      else None
  | [] => None
  end end end end end.

(** A piece of a scanned line: a match, or a character no alternative
    matches (the newline), which a substitution copies. *)
Inductive piece :=
| Matched (a : alt) (m : rmatch)
| Unmatched (c : ascii).

Definition piece_text (p : piece) : str :=
  match p with
  | Matched _ m => group0 m
  | Unmatched c => [c]
  end.

(** The scan of [fixpat.sub] over a line, left to right: at a position
    where the pattern matches, the match is taken and the scan goes on
    after it. [skip] counts the characters of the last match still to be
    passed over. *)
Fixpoint scan_from (skip : nat) (s : str) : list piece :=
  match s with
  | [] => []
  | c :: t =>
      match skip with
      | S k => scan_from k t
      | O =>
          match fixpat_match s with
          | Some (a, m, _) => Matched a m :: scan_from (length (group0 m) - 1) t
          | None => Unmatched c :: scan_from 0 t
          end
      end
  end.

Definition scan (s : str) : list piece := scan_from 0 s.

(** ** Literal patterns *)

(** The characters that are special in a pattern. *)
Definition metachar (c : ascii) : bool := has_char c ".^$*+?{}[]\|()".

(** A pattern none of whose characters is special matches itself only. *)
Definition literal_pattern (p : str) : bool := forallb (fun c => negb (metachar c)) p.

(** A replacement template with no backslash stands for itself. *)
Definition literal_template (r : str) : bool := negb (has_char "\" r).

(** The leftmost occurrence of [pat] in [s] replaced by [repl]; [None]
    when [pat] does not occur. *)
Fixpoint replace_first (pat repl s : str) : option str :=
  match strip_prefix pat s with
  | Some rest => Some (repl ++ rest)
  | None =>
      match s with
      | [] => None
      | c :: t => option_map (cons c) (replace_first pat repl t)
      end
  end.

(** ** The date search of the feed builder: [(\d+-\w+-\d{4})] *)

(** The pattern at the scan position: all the digits there, a dash, all
    the word characters there, a dash, four digits. *)
Definition match_date (s : str) : option str :=
  match match_run isdigit s with
  | Some (d, r1) =>
      match r1 with
      | c1 :: r2 =>
          if Ascii.eqb c1 "-" then
            match match_run isword r2 with
            | Some (w, r3) =>
                match r3 with
                | c2 :: y1 :: y2 :: y3 :: y4 :: _ =>
                    if Ascii.eqb c2 "-" && forallb isdigit [y1; y2; y3; y4]
                    then Some (d ++ "-" ++ w ++ "-" ++ [y1; y2; y3; y4])
                    else None
                | _ => None
                end
            | None => None
            end
          else None
      | [] => None
      end
  | None => None
  end.

(** [re.search]: the match at the leftmost position that has one. *)
Fixpoint search_date (s : str) : option str :=
  match match_date s with
  | Some m => Some m
  | None => match s with [] => None | _ :: t => search_date t end
  end.

End Re.

(** * Exceptions and output *)

Inductive exn :=
| ValueError (msg : str)
| IndexError
| TypeError
| NameError
| OSError
| ReError.

(** What a run has written: to the output file and to [sys.stderr]. *)
Record log := { out : str; err : str }.

Definition log_nil : log := {| out := []; err := [] |}.

Definition log_app (a b : log) : log :=
  {| out := out a ++ out b; err := err a ++ err b |}.

Inductive outcome (A : Type) :=
| Done (a : A)
| Raise (e : exn).

Arguments Done {A} a.
Arguments Raise {A} e.

(** A computation that writes and then either returns or raises. *)
Definition M (A : Type) : Type := log * outcome A.

Definition ret {A} (a : A) : M A := (log_nil, Done a).

Definition raise {A} (e : exn) : M A := (log_nil, Raise e).

Definition bind {A B} (m : M A) (k : A -> M B) : M B :=
  match m with
  | (l, Done a) => let (l', r) := k a in (log_app l l', r)
  | (l, Raise e) => (l, Raise e)
  end.

Notation "x <- m ;; k" := (bind m (fun x => k))
  (at level 61, m at next level, right associativity).
Notation "m ;;; k" := (bind m (fun _ => k))
  (at level 61, right associativity).

(** [outfile.write(s)], [print(s, file=outfile)] and
    [print(s, file=sys.stderr)]. *)
Definition write (s : str) : M unit := ({| out := s; err := [] |}, Done tt).
Definition print (s : str) : M unit := write (s ++ nl).
Definition eprint (s : str) : M unit := ({| out := []; err := s ++ nl |}, Done tt).

(** [try: m  except ValueError as error: h error]. *)
Definition try_value_error {A} (m : M A) (h : str -> M A) : M A :=
  match m with
  | (l, Raise (ValueError msg)) => let (l', r) := h msg in (log_app l l', r)
  | _ => m
  end.

(** What a computation wrote to the output file and to [sys.stderr], and
    how it ended. *)
Definition output {A} (m : M A) : str := out (fst m).
Definition errors {A} (m : M A) : str := err (fst m).
Definition status {A} (m : M A) : outcome A := snd m.

(** What the scripts take from their libraries and their surroundings. *)
Record env := {
  (** [email.utils.parseaddr]: the real name and the address. *)
  parseaddr : str -> str * str;
  (** The text of the [ValueError] that [int(s)] raises. *)
  int_error : str -> str;
  (** [time.strftime("%d-%b-%Y", time.localtime(os.stat(inpath)[8]))],
      [None] when [os.stat] raises. *)
  file_date : option str;
  (** [re.sub(pattern, repl, string, 1)] on a pattern or a template that
      is not literal, [None] when the pattern does not compile. *)
  regex_sub1 : str -> str -> str -> option str
}.

(** What [open(path, encoding="utf-8")] followed by [read()] gives for a
    path: the text of the file, the [IOError] of a file that does not
    exist, or another exception. *)
Inductive opened :=
| Content (text : str)
| Missing
| Failed (e : exn).

(** The file system as the converter sees it. *)
Record world := {
  read_text : str -> opened;
  (** [os.path.exists]. *)
  path_exists : str -> bool;
  (** [os.path.abspath]. *)
  abspath : str -> str
}.

(** * sep2html.py *)
Module Sep2Html.
Import Py Re.

Section Renderer.

Variable E : env.

Definition RFCURL (n : Z) : str := "http://www.faqs.org/rfcs/rfc" ++ fmt_d n ++ ".html".
Definition SEPURL (n : Z) : str := "sep-" ++ fmt_0d 4 n ++ ".html".
Definition SEPCVSURL (n : Z) : str :=
  "https://hg.python.org/peps/file/tip/pep-" ++ fmt_0d 4 n ++ ".txt".
Definition LOCALVARS : str := "Local Variables:".
Definition COMMASPACE : str := ", ".

Definition COMMENT : str :=
  "<!--" ++ nl ++
  "This HTML is auto-generated.  DO NOT EDIT THIS FILE!  If you are writing a new" ++ nl ++
  "SEP, see http://www.python.org/seps/sep-0001.html for instructions and links" ++ nl ++
  "to templates.  DO NOT USE THIS HTML FILE AS YOUR TEMPLATE!" ++ nl ++
  "-->".

Definition DTD : str :=
  lit "<!DOCTYPE html PUBLIC `-//W3C//DTD HTML 4.0 Transitional//EN`" ++ nl ++
  lit "                      `http://www.w3.org/TR/REC-html40/loose.dtd`>".

(** [int(s)] as the scripts call it. *)
Definition int_of (s : str) : M Z :=
  match int s with
  | Some z => ret z
  | None => raise (ValueError (int_error E s))
  end.

(** [int(match.group(name))]: a group that took no part is [None]. *)
Definition int_of_group (g : option str) : M Z :=
  match g with
  | Some s => int_of s
  | None => raise TypeError
  end.

(** The characters [fixanchor] strips from the end of a URL. *)
Definition punct (c : ascii) : bool :=
  has_char c "();:,.?'<>" || Ascii.eqb c dquote.

Fixpoint drop_while (p : ascii -> bool) (s : str) : str :=
  match s with
  | c :: t => if p c then drop_while p t else s
  | [] => []
  end.

(** The loop of [fixanchor] that pops trailing punctuation. *)
Definition strip_punct (text : str) : str := rev (drop_while punct (rev text)).

Definition anchor (href text : str) : str :=
  lit "<a href=`" ++ href ++ lit "`>" ++ text ++ "</a>".

Definition is_nonempty {A} (s : list A) : bool :=
  match s with [] => false | _ => true end.

Definition fixanchor (current : str) (m : rmatch) : M str :=
  let text := group0 m in
  link <-
    (if startswith text "http:" || startswith text "https:" || startswith text "ftp:"
     then ret (Some (strip_punct text))
     else if startswith text "sep-" && negb (streq text current)
     then ret (Some (splitext_root text ++ ".html"))
     else if startswith text "SEP"
     then n <- int_of_group (sepnum m) ;; ret (Some (SEPURL n))
     else if startswith text "RFC"
     then n <- int_of_group (rfcnum m) ;; ret (Some (RFCURL n))
     else ret None) ;;
  match link with
  | Some l => if is_nonempty l then ret (anchor (escape l) (escape text))
              else ret (escape text)
  | None => ret (escape text)
  end.

(** [fixpat.sub(lambda x, c=inpath: fixanchor(c, x), line)]. *)
Fixpoint render_pieces (current : str) (ps : list piece) : M str :=
  match ps with
  | [] => ret []
  | Matched _ m :: r =>
      a <- fixanchor current m ;;
      b <- render_pieces current r ;;
      ret (a ++ b)
  | Unmatched c :: r =>
      b <- render_pieces current r ;;
      ret (c :: b)
  end.

Definition sub_fixpat (current line : str) : M str :=
  render_pieces current (scan line).

Definition NON_MASKED_EMAILS : list str :=
  [ "seps@python.org" : str; "python-list@python.org" : str;
    "python-dev@python.org" : str ].

(** [parts[i]] for [parts = address.split("@", 1)]. *)
Definition part (i : nat) (parts : list str) : M str :=
  match nth_error parts i with
  | Some p => ret p
  | None => raise IndexError
  end.

Definition masked (user host : str) : str := user ++ "&#32;&#97;t&#32;" ++ host.

(** The format of [linkemail], filled in. *)
Definition mail_link (user host sepno : str) : str :=
  lit "<a href=`mailto:" ++ user ++ "&#64;" ++ host ++ "?subject=SEP%20" ++ sepno
  ++ lit "`>" ++ masked user host ++ "</a>".

Definition linkemail (address sepno : str) : M str :=
  let parts := split1 "@" address in
  p0 <- part 0 parts ;;
  p1 <- part 1 parts ;;
  ret (mail_link p0 p1 sepno).

Definition fixemail (address sepno : str) : M str :=
  if mem (lower address) NON_MASKED_EMAILS
  then linkemail address sepno
  else
    let parts := split1 "@" address in
    p0 <- part 0 parts ;;
    p1 <- part 1 parts ;;
    ret (masked p0 p1).

(** ** The header *)

Definition field := (str * str)%type.

Record parsed := {
  header : list field;
  title : str;
  sep : str;
  body : list str
}.

(** [header[-1] = key, value]. *)
Definition set_last (h : list field) (f : field) : list field := removelast h ++ [f].

(** The assignments to [title] and [sep] that end an iteration. *)
Definition note_title (key value title : str) : str :=
  if streq (lower key) "title" then value else title.

Definition note_sep (key value sep : str) : str :=
  if streq (lower key) "title" then sep
  else if streq (lower key) "sep" then value else sep.

(** The first loop of [fixfile] over the lines: it reads fields up to the
    line that ends the header, which it consumes as well. *)
Fixpoint read_header (lines : list str) (h : list field) (title sep : str) : M parsed :=
  match lines with
  | [] => ret {| header := h; title := title; sep := sep; body := [] |}
  | line :: rest =>
      let stop := ret {| header := h; title := title; sep := sep; body := rest |} in
      if negb (is_nonempty (strip line)) then stop
      else if negb (starts_with_space line) then
        if negb (has_char ":" line) then stop
        else
          match split1 ":" line with
          | [key; v] =>
              let value := strip v in
              read_header rest (h ++ [(key, value)])
                (note_title key value title) (note_sep key value sep)
          | _ => raise (ValueError "not enough values to unpack (expected 2, got 1)")
          end
      else
        match last (map Some h) None with
        | None => raise IndexError
        | Some (key, v) =>
            let value := v ++ line in
            read_header rest (set_last h (key, value))
              (note_title key value title) (note_sep key value sep)
        end
  end.

(** The title after the header is read. *)
Definition full_title (p : parsed) : str :=
  if is_nonempty (sep p) then "SEP " ++ sep p ++ " -- " ++ title p else title p.

Definition print_title (p : parsed) : M unit :=
  if is_nonempty (full_title p)
  then print ("  <title>" ++ escape (full_title p) ++ "</title>")
  else ret tt.

(** The navigation table: the template before and after the [%03d] that
    takes the banner index [r]. *)
Definition navigation_before : str :=
  lit "  <link rel=`STYLESHEET` href=`style.css` type=`text/css` />" ++ nl ++
  "</head>" ++ nl ++
  lit "<body bgcolor=`white`>" ++ nl ++
  lit "<table class=`navigation` cellpadding=`0` cellspacing=`0`" ++ nl ++
  lit "       width=`100%` border=`0`>" ++ nl ++
  lit "<tr><td class=`navicon` width=`150` height=`35`>" ++ nl ++
  lit "<a href=`../` title=`Python Home Page`>" ++ nl ++
  lit "<img src=`../pics/PyBanner".

Definition navigation_after : str :=
  lit ".gif` alt=`[Python]`" ++ nl ++
  lit " border=`0` width=`150` height=`35` /></a></td>" ++ nl ++
  lit "<td class=`textlinks` align=`left`>" ++ nl ++
  lit "[<b><a href=`../`>Python Home</a></b>]".

Definition navigation (r : nat) : str :=
  navigation_before ++ fmt_0d 3 (Z.of_nat r) ++ navigation_after.

Definition INDEX_NAME : str := "sep-0000.txt".

Definition print_index_link (base : str) : M unit :=
  if negb (streq base INDEX_NAME)
  then print (lit "[<b><a href=`.`>SEP Index</a></b>]")
  else ret tt.

(** The link to the source, or the warning when the number is malformed. *)
Definition print_source_link (sep : str) : M unit :=
  if is_nonempty sep then
    try_value_error
      (n <- int_of sep ;;
       print (lit "[<b><a href=`sep-" ++ fmt_0d 4 n ++ lit ".txt`>SEP Source</a></b>]"))
      (fun error => eprint ("ValueError (invalid SEP number): " ++ error))
  else ret tt.

(** ** The header table *)

(** One entry of an [author], [bdfl-delegate] or [discussions-to] value. *)
Definition mail_entry (k sep entry : str) : M str :=
  if has_char "@" entry then
    let (realname, addr) := parseaddr E entry in
    m <- (if streq (lower k) "discussions-to"
          then linkemail addr sep else fixemail addr sep) ;;
    ret (realname ++ " &lt;" ++ m ++ "&gt;")
  else if startswith entry "http:" then ret (anchor entry entry)
  else ret entry.

Fixpoint mail_entries (k sep : str) (entries : list str) : M (list str) :=
  match entries with
  | [] => ret []
  | e :: r =>
      m <- mail_entry k sep e ;;
      ms <- mail_entries k sep r ;;
      ret (m :: ms)
  end.

(** The link to another document, with the space after it. *)
Definition othersep_link (n : Z) : str :=
  lit "<a href=`sep-" ++ fmt_0d 4 n ++ lit ".html`>" ++ fmt_d n ++ "</a> ".

(** The links of a [replaces], [superseded-by] or [requires] value. *)
Fixpoint othersep_links (tokens : list str) (otherseps : str) : M str :=
  match tokens with
  | [] => ret otherseps
  | t :: r =>
      n <- int_of t ;;
      othersep_links r (otherseps ++ othersep_link n)
  end.

(** [s[a:-b]]. *)
Definition slice (a b : nat) (s : str) : str := skipn a (firstn (length s - b) s).

Definition or_else (v d : str) : str := if is_nonempty v then v else d.

Definition last_modified (base sep v : str) : M str :=
  date <- (if is_nonempty v then ret v
           else match file_date E with
                | Some d => ret d
                | None => raise OSError
                end) ;;
  let date := if startswith date "$Date: " && endswith date " $"
              then slice 6 2 date else date in
  if streq base INDEX_NAME then ret date
  else
    try_value_error
      (n <- int_of sep ;;
       ret (anchor (SEPCVSURL n) (escape date) ++ " "))
      (fun _ => ret date).

Definition in_keys (k : str) (keys : list str) : bool := mem (lower k) keys.

(** The value of one header field as the table shows it. *)
Definition fix_value (base sep k v : str) : M str :=
  if in_keys k [ "author" : str; "bdfl-delegate" : str; "discussions-to" : str ] then
    mailtos <- mail_entries k sep (split_comma v) ;;
    ret (join COMMASPACE mailtos)
  else if in_keys k [ "replaces" : str; "superseded-by" : str; "requires" : str ] then
    othersep_links (split_comma_ws v) []
  else if in_keys k [ "last-modified" : str ] then last_modified base sep v
  else if in_keys k [ "content-type" : str ] then
    ret (anchor (SEPURL 9) (escape (or_else v "text/plain")) ++ " ")
  else if streq (lower k) "version" then
    if startswith v "$Revision: " && endswith v " $"
    then ret (escape (slice 11 2 v)) else ret v
  else ret (escape v).

Fixpoint print_fields (base sep : str) (h : list field) : M unit :=
  match h with
  | [] => ret tt
  | (k, v) :: r =>
      v' <- fix_value base sep k v ;;
      print ("  <tr><th>" ++ escape k ++ ":&nbsp;</th><td>" ++ v' ++ "</td></tr>") ;;;
      print_fields base sep r
  end.

(** ** The body *)

(** [if need_pre: print("<pre>"); need_pre = 0]. *)
Definition open_pre (need_pre : bool) : M unit :=
  if need_pre then print "<pre>" else ret tt.

(** [re.match(r"\s*\d{1,4}", token)]. *)
Definition match_summary (token : str) : bool :=
  match snd (span isspace token) with
  | c :: _ => isdigit c
  | [] => false
  end.

(** [re.sub(pattern, repl, line, 1)]. *)
Definition re_sub1 (pattern repl line : str) : M str :=
  if literal_pattern pattern && literal_template repl then
    match replace_first pattern repl line with
    | Some r => ret r
    | None => ret line
    end
  else
    match regex_sub1 E pattern repl line with
    | Some r => ret r
    | None => raise ReError
    end.

(** A summary line of the index: the number is linked where its text
    first occurs in the line. *)
Definition summary_line (token line : str) (need_pre : bool) : M unit :=
  n <- int_of token ;;
  open_pre need_pre ;;;
  s <- re_sub1 token (anchor (SEPURL n) token) line ;;
  write s.

(** An address line of the index. *)
Definition address_line (sep token line : str) (need_pre : bool) : M unit :=
  url <- fixemail token sep ;;
  open_pre need_pre ;;;
  s <- re_sub1 token url line ;;
  write s.

(** What the index document does with a line of preformatted text:
    [Some m] when the line is a summary line or an address line, written
    by [m]; [None] when the line is ordinary text. *)
Definition index_line (sep line : str) (need_pre : bool) : option (M unit) :=
  let parts := split_ws line in
  let address :=
    if is_nonempty parts && has_char "@" (last parts [])
    then Some (address_line sep (last parts []) line need_pre) else None in
  match nth_error parts 1 with
  | Some p1 =>
      if match_summary p1 then Some (summary_line p1 line need_pre) else address
  | None => address
  end.

(** A line of preformatted text that is not special to the index. *)
Definition text_line (inpath line : str) (need_pre : bool) : M unit :=
  s <- sub_fixpat inpath line ;;
  open_pre need_pre ;;;
  write s.

(** The second loop of [fixfile]; it returns [need_pre]. *)
Fixpoint print_body (inpath base sep : str) (lines : list str) (need_pre : bool) : M bool :=
  match lines with
  | [] => ret need_pre
  | line :: rest =>
      match line with
      | [] => raise IndexError
      | c0 :: _ =>
          if Ascii.eqb c0 formfeed then print_body inpath base sep rest need_pre
          else if streq (strip line) LOCALVARS then ret need_pre
          else if negb (isspace c0) then
            (if negb need_pre then print "</pre>" else ret tt) ;;;
            print ("<h3>" ++ strip line ++ "</h3>") ;;;
            print_body inpath base sep rest true
          else if negb (is_nonempty (strip line)) && need_pre then
            print_body inpath base sep rest need_pre
          else
            match (if streq base INDEX_NAME then index_line sep line need_pre else None) with
            | Some m => m ;;; print_body inpath base sep rest false
            | None => text_line inpath line need_pre ;;;
                      print_body inpath base sep rest false
            end
      end
  end.

(** ** [fixfile(inpath, input_lines, outfile)] *)

Definition print_head : M unit :=
  print DTD ;;;
  print "<html>" ;;;
  print COMMENT ;;;
  print "<head>".

Definition print_tail (need_pre : bool) : M unit :=
  (if negb need_pre then print "</pre>" else ret tt) ;;;
  print "</div>" ;;;
  print "</body>" ;;;
  print "</html>".

(** The header table and the body: what [fixfile] does after the links of
    the navigation table. *)
Definition render_content (inpath : str) (p : parsed) : M unit :=
  let base := basename inpath in
  print "</td></tr></table>" ;;;
  print (lit "<div class=`header`>" ++ nl ++ lit "<table border=`0`>") ;;;
  print_fields base (sep p) (header p) ;;;
  print "</table>" ;;;
  print "</div>" ;;;
  print "<hr />" ;;;
  print (lit "<div class=`content`>") ;;;
  need_pre <- print_body inpath base (sep p) (body p) true ;;
  print_tail need_pre.

(** Everything [fixfile] does once the header is read and the title and
    the navigation table are written. *)
Definition render_rest (inpath : str) (p : parsed) : M unit :=
  print_index_link (basename inpath) ;;;
  print_source_link (sep p) ;;;
  render_content inpath p.

(** [r] is the value of [random.choice(list(range(64)))]. *)
Definition fixfile (r : nat) (inpath : str) (input_lines : list str) : M unit :=
  print_head ;;;
  p <- read_header input_lines [] [] [] ;;
  print_title p ;;;
  print (navigation r) ;;;
  render_rest inpath p.

End Renderer.

(** ** Around [fixfile]: the input, its type and the names of the files *)
Section Driver.

Variable E : env.
Variable W : world.


(** The loop of [get_sep_type], [sep_type] being the variable of that
    name. *)
Fixpoint sep_type_scan (input_lines : list str) (sep_type : option str) : M (option str) :=
  match input_lines with
  | [] => ret sep_type
  | line :: rest =>
      let line := lower (rstrip line) in
      if negb (is_nonempty line) then ret sep_type
      else if startswith line "content-type: " then
        t <- part 1 (split_ws line) ;;
        ret (Some (or_else t "text/plain"))
      else if startswith line "sep: " then sep_type_scan rest (Some ("text/plain" : str))
      else sep_type_scan rest sep_type
  end.

Definition get_sep_type (input_lines : list str) : M (option str) :=
  sep_type_scan input_lines None.

Definition get_input_lines (inpath : str) : M (option (list str)) :=
  match read_text W inpath with
  | Content text => ret (Some (splitlines text))
  | Missing => eprint ("Error: Skipping missing SEP file: " ++ inpath) ;;; ret None
  | Failed e => raise e
  end.





End Driver.

End Sep2Html.

(** * sep2rss.py *)
Module Sep2Rss.
Import Py Re.

(** [datetime.datetime(year, month, day, hour, minute, second)]. *)
Record datetime := {
  year : Z; month : Z; day : Z; hour : Z; minute : Z; second : Z
}.

Definition dt_fields (d : datetime) : list Z :=
  [year d; month d; day d; hour d; minute d; second d].

(** The order of tuples and of strings: the first place that differs
    decides, and a proper prefix comes first. *)
Fixpoint lex_compare {A} (cmp : A -> A -> comparison) (a b : list A) : comparison :=
  match a, b with
  | [], [] => Eq
  | [], _ :: _ => Lt
  | _ :: _, [] => Gt
  | x :: a', y :: b' =>
      match cmp x y with
      | Eq => lex_compare cmp a' b'
      | c => c
      end
  end.

Definition dt_compare (a b : datetime) : comparison :=
  lex_compare Z.compare (dt_fields a) (dt_fields b).

Definition str_compare (a b : str) : comparison :=
  lex_compare (fun x y => N.compare (ord x) (ord y)) a b.

(** An entry of [seps_with_dt] and the order of such pairs. *)
Definition entry := (datetime * str)%type.

Definition entry_compare (a b : entry) : comparison :=
  match dt_compare (fst a) (fst b) with
  | Eq => str_compare (snd a) (snd b)
  | c => c
  end.

(** [a < b] on entries. *)
Definition entry_lt (a b : entry) : bool :=
  match entry_compare a b with Lt => true | _ => false end.

(** [seps_with_dt.sort(reverse=True)]: the entries from the greatest to
    the least, entries that compare equal keeping their order. *)
Fixpoint insert_desc (x : entry) (l : list entry) : list entry :=
  match l with
  | [] => [x]
  | y :: r => if entry_lt x y then y :: insert_desc x r else x :: l
  end.

Fixpoint sort_desc (l : list entry) : list entry :=
  match l with
  | [] => []
  | x :: r => insert_desc x (sort_desc r)
  end.

(** ** [time.strptime] on the two formats of the script, in the C locale *)

Definition month_abbr : list str :=
  [ "jan" : str; "feb" : str; "mar" : str; "apr" : str; "may" : str; "jun" : str;
    "jul" : str; "aug" : str; "sep" : str; "oct" : str; "nov" : str; "dec" : str ].

Definition month_name : list str :=
  [ "january" : str; "february" : str; "march" : str; "april" : str;
    "may" : str; "june" : str; "july" : str; "august" : str;
    "september" : str; "october" : str; "november" : str; "december" : str ].

(** The number of the month named [m], letter case ignored. *)
Fixpoint month_index (names : list str) (m : str) (i : Z) : option Z :=
  match names with
  | [] => None
  | n :: r => if streq (lower m) n then Some i else month_index r m (i + 1)
  end.

(** The value of a string of digits. *)
Definition digits_value (ds : str) : Z :=
  fold_left (fun acc c => 10 * acc + digit_val c)%Z ds 0%Z.

(** The day directive followed by a dash: one or two digits, from 1 to 31. *)
Definition parse_day (ds : str) : option Z :=
  let v := digits_value ds in
  if forallb isdigit ds && ((length ds =? 1)%nat || (length ds =? 2)%nat)
     && (1 <=? v)%Z && (v <=? 31)%Z
  then Some v else None.

Definition parse_year (ds : str) : option Z :=
  if forallb isdigit ds && (length ds =? 4)%nat then Some (digits_value ds) else None.

Definition is_leap (y : Z) : bool :=
  ((y mod 4 =? 0) && (negb (y mod 100 =? 0) || (y mod 400 =? 0)))%Z.

Definition days_in_month (y m : Z) : Z :=
  if (m =? 2)%Z then (if is_leap y then 29 else 28)%Z
  else if ((m =? 4) || (m =? 6) || (m =? 9) || (m =? 11))%Z then 30%Z
  else 31%Z.

(** [time.strptime(s, "%d-<month>-%Y")] for the month directive whose
    names are [names]; [None] stands for the [ValueError]: the text does
    not match the format, or the day does not exist. The result is the
    year, the month and the day. *)
Definition strptime (names : list str) (s : str) : option (Z * Z * Z) :=
  match split_on "-" s with
  | [d; m; y] =>
      match parse_day d, month_index names m 1, parse_year y with
      | Some dd, Some mm, Some yy =>
          if ((1 <=? yy) && (dd <=? days_in_month yy mm))%Z
          then Some (yy, mm, dd) else None
      | _, _, _ => None
      end
  | _ => None
  end.

Section Feed.

(** The lines of the file a path names; the [datetime] the script builds
    from [time.localtime(0)], the epoch in local time; and the text of the
    [ValueError] of [time.strptime]. *)
Variable fs : str -> list str.
Variable epoch : datetime.
Variable strptime_error : str -> str.

Fixpoint first_starting (lines : list str) (text : str) : option str :=
  match lines with
  | [] => None
  | line :: r =>
      match strip_prefix text line with
      | Some tail => Some (strip tail)
      | None => first_starting r text
      end
  end.

Definition firstline_startingwith (full_path text : str) : option str :=
  first_starting (fs full_path) text.

Definition midnight (ymd : Z * Z * Z) : datetime :=
  let '(y, m, d) := ymd in
  {| year := y; month := m; day := d; hour := 0; minute := 0; second := 0 |}.

Definition sep_creation_dt (full_path : str) : outcome datetime :=
  match firstline_startingwith full_path "Created:" with
  | None => Raise TypeError
  | Some created_str =>
      match search_date created_str with
      | None => Done epoch
      | Some created_str =>
          match strptime month_abbr created_str with
          | Some t => Done (midnight t)
          | None =>
              match strptime month_name created_str with
              | Some t => Done (midnight t)
              | None => Raise (ValueError (strptime_error created_str))
              end
          end
      end
  end.

(** [[(sep_creation_dt(full_path), full_path) for full_path in seps]]. *)
Fixpoint with_dt (seps : list str) : outcome (list entry) :=
  match seps with
  | [] => Done []
  | p :: r =>
      match sep_creation_dt p with
      | Raise e => Raise e
      | Done dt =>
          match with_dt r with
          | Raise e => Raise e
          | Done l => Done ((dt, p) :: l)
          end
      end
  end.

(** The fields of an [RSSItem] the script sets. *)
Record item := {
  item_title : str;
  link : str;
  description : str;
  guid : str;
  pubDate : datetime
}.

(** ["%s" % v] for a value that may be [None]. *)
Definition fmt_s (v : option str) : str :=
  match v with Some s => s | None => "None" end.

(** [int(full_path.split("-")[-1].split(".")[0])]. *)
Definition number_of_path (full_path : str) : option Z :=
  int (hd [] (split_on "." (last (split_on "-" full_path) []))).

(** The variable [n] after the [try] of an iteration: what the conversion
    gave, or what [n] was before when it raised; [None] is unbound. *)
Definition assign_n (n : option Z) (full_path : str) : option Z :=
  match number_of_path full_path with
  | Some z => Some z
  | None => n
  end.

Definition make_item (n : Z) (dt : datetime) (full_path : str) : item :=
  let title := firstline_startingwith full_path "Title:" in
  let author := firstline_startingwith full_path "Author:" in
  let url := "http://www.python.org/dev/seps/sep-" ++ fmt_prec 4 n in
  {| item_title := "SEP " ++ fmt_d n ++ ": " ++ fmt_s title;
     link := url;
     description := "Author: " ++ fmt_s author;
     guid := url;
     pubDate := dt |}.

(** The loop over the selected entries, [n] being the variable of that
    name as the iteration finds it. *)
Fixpoint build_items (selected : list entry) (n : option Z) : outcome (list item) :=
  match selected with
  | [] => Done []
  | (dt, full_path) :: r =>
      match assign_n n full_path with
      | None => Raise NameError
      | Some z =>
          match build_items r (Some z) with
          | Raise e => Raise e
          | Done items => Done (make_item z dt full_path :: items)
          end
      end
  end.

(** The script from the list of paths that [glob] found to the items it
    hands to the feed writer. *)
Definition feed_items (seps : list str) : outcome (list item) :=
  match with_dt seps with
  | Raise e => Raise e
  | Done seps_with_dt => build_items (firstn 10 (sort_desc seps_with_dt)) None
  end.

End Feed.

End Sep2Rss.

(** * sep2html.py: the driver

    [check_requirements], [sep_type_error], [make_html] and [push_sep]. *)
Module Sep2HtmlMain.
Import Py Re Sep2Html.

(** The two converters that [SEP_TYPE_DISPATCH] names. *)
Inductive handler := Fixfile | FixRstSep.

(** A dictionary with string keys, in the order of insertion. *)
Definition table (A : Type) : Type := list (str * A).

Fixpoint lookup {A} (k : str) (t : table A) : option A :=
  match t with
  | [] => None
  | (k', v) :: r => if streq k k' then Some v else lookup k r
  end.

(** [t[k] = v]. *)
Fixpoint update {A} (k : str) (v : A) (t : table A) : table A :=
  match t with
  | [] => [(k, v)]
  | (k', v') :: r => if streq k k' then (k, v) :: r else (k', v') :: update k v r
  end.

(** The two module-level dictionaries. *)
Record registry := {
  dispatch : table (option handler);
  messages : table str
}.

Definition SEP_TYPE_DISPATCH : table (option handler) :=
  [ ("text/plain" : str, Some Fixfile); ("text/x-rst" : str, Some FixRstSep) ].

Definition SEP_TYPE_MESSAGES : table str := [].

Definition loaded : registry :=
  {| dispatch := SEP_TYPE_DISPATCH; messages := SEP_TYPE_MESSAGES |}.

Definition REQUIRES_python : str := "2.6".
Definition REQUIRES_docutils : str := "0.2.7".
Definition HOST : str := "dinsdale.python.org".
Definition HDIR : str := "/data/ftp.python.org/pub/www.python.org/seps".
Definition SPACE : str := " ".

(** How a function of the driver ends when it does not return: an
    exception of the renderer, a missing key, [sys.exit], or an exception
    of Docutils. *)
Inductive stop :=
| Uncaught (e : exn)
| KeyError (key : str)
| SystemExit (code : Z)
| Foreign (name : str).

Inductive ended (A : Type) :=
| Returned (a : A)
| Stopped (s : stop).

Arguments Returned {A} a.
Arguments Stopped {A} s.

(** What a run leaves behind: the two streams, the files opened for
    writing with the text written to each, the calls of [os.chmod] and
    the commands given to [os.system]. *)
Record trace := {
  stdout : str;
  stderr : str;
  written : list (str * str);
  modes : list (str * N);
  commands : list str
}.

Definition trace_nil : trace :=
  {| stdout := []; stderr := []; written := []; modes := []; commands := [] |}.

Definition trace_app (a b : trace) : trace :=
  {| stdout := stdout a ++ stdout b; stderr := stderr a ++ stderr b;
     written := written a ++ written b; modes := modes a ++ modes b;
     commands := commands a ++ commands b |}.

Definition IO (A : Type) : Type := (trace * ended A)%type.

Definition pret {A} (a : A) : IO A := (trace_nil, Returned a).

Definition pstop {A} (s : stop) : IO A := (trace_nil, Stopped s).

Definition pbind {A B} (m : IO A) (k : A -> IO B) : IO B :=
  match m with
  | (t, Returned a) => let (t', r) := k a in (trace_app t t', r)
  | (t, Stopped s) => (t, Stopped s)
  end.

Notation "x <~ m ;; k" := (pbind m (fun x => k))
  (at level 61, m at next level, right associativity).
Notation "m ;;~ k" := (pbind m (fun _ => k))
  (at level 61, right associativity).

(** [print(s)] and [print(s, file=sys.stderr)]. *)
Definition say (s : str) : IO unit :=
  ({| stdout := s ++ nl; stderr := []; written := []; modes := []; commands := [] |},
   Returned tt).

Definition complain (s : str) : IO unit :=
  ({| stdout := []; stderr := s ++ nl; written := []; modes := []; commands := [] |},
   Returned tt).

(** A computation of the renderer that writes to no output file, run by
    the driver. *)
Definition quietly {A} (m : M A) : IO A :=
  ({| stdout := []; stderr := errors m; written := []; modes := []; commands := [] |},
   match status m with
   | Done a => Returned a
   | Raise e => Stopped (Uncaught e)
   end).

(** What the driver takes from the interpreter, from Docutils and from
    the operating system. *)
Record host := {
  (** [open(path, "w", encoding="utf-8")]: the exception it raises, if
      any. *)
  open_write : str -> option exn;
  (** [os.chmod(path, mode)]: the exception it raises, if any. *)
  chmod : str -> N -> option exn;
  (** [core.publish_string] on a source, its path and the path of the
      destination, the result decoded: what it writes to [sys.stderr],
      and the text or the exception. *)
  publish_string : str -> str -> str -> str * ended str;
  (** [template % locals()] in [sep_type_error], for the path and the
      type. *)
  format_locals : str -> str -> str -> ended str;
  (** [os.system]. *)
  os_system : str -> Z;
  (** [sys.version_info[:3]] and [sys.version]. *)
  version_info : list Z;
  version : str;
  (** [docutils.__version__], [None] when the import fails. *)
  docutils_version : option str
}.

Section Main.

Variable E : env.
Variable W : world.
Variable Sys : host.

(** [[int(part) for part in parts]]. *)
Fixpoint ints (parts : list str) : M (list Z) :=
  match parts with
  | [] => ret []
  | p :: r =>
      n <- int_of E p ;;
      ns <- ints r ;;
      ret (n :: ns)
  end.

(** [a < b] on tuples and lists of integers. *)
Definition ints_lt (a b : list Z) : bool :=
  match Sep2Rss.lex_compare Z.compare a b with Lt => true | _ => false end.

Definition python_message (present : str) : str :=
  "Python " ++ REQUIRES_python ++ lit " or better required for `%(sep_type)s` SEP "
  ++ "processing; " ++ present ++ " present (%(inpath)s).".

Definition docutils_missing_message : str :=
  lit "Docutils not present for `%(sep_type)s` SEP file %(inpath)s.  "
  ++ "See README.rst for installation.".

Definition docutils_old_message (present : str) : str :=
  lit "Docutils must be reinstalled for `%(sep_type)s` SEP "
  ++ "processing (%(inpath)s).  Version " ++ REQUIRES_docutils ++ " or better required; "
  ++ present ++ " present.  See README.rst for installation.".

Definition disable (sep_type message : str) (G : registry) : registry :=
  {| dispatch := update sep_type None (dispatch G);
     messages := update sep_type message (messages G) |}.

(** [check_requirements], from the two dictionaries as it finds them to
    the two dictionaries as it leaves them. *)
Definition check_requirements (G : registry) : IO registry :=
  G1 <~ (if ints_lt (version_info Sys) [2; 6; 0]%Z then
           present <~ quietly (part 0 (split_ws (version Sys))) ;;
           pret (disable "text/plain" (python_message present) G)
         else pret G) ;;
  match docutils_version Sys with
  | None => pret (disable "text/x-rst" docutils_missing_message G1)
  | Some v =>
      installed <~ quietly (ints (split_on "." v)) ;;
      required <~ quietly (ints (split_on "." REQUIRES_docutils)) ;;
      if ints_lt installed required
      then pret (disable "text/x-rst" (docutils_old_message v) G1)
      else pret G1
  end.

Definition sep_type_error (G : registry) (inpath sep_type : str) : IO unit :=
  match lookup sep_type (messages G) with
  | None => pstop (KeyError sep_type)
  | Some template =>
      match format_locals Sys template inpath sep_type with
      | Returned text => complain ("Error: " ++ text)
      | Stopped s => pstop s
      end
  end.

(** [outfile = open(outpath, "w")], the call of the converter on it, and
    [outfile.close()]. *)
Definition convert (h : handler) (r : nat) (inpath : str) (input_lines : list str)
    (outpath : str) : IO unit :=
  match open_write Sys outpath with
  | Some e => pstop (Uncaught e)
  | None =>
      match h with
      | Fixfile =>
          let m := fixfile E r inpath input_lines in
          ({| stdout := []; stderr := errors m; written := [(outpath, output m)];
              modes := []; commands := [] |},
           match status m with
           | Done _ => Returned tt
           | Raise e => Stopped (Uncaught e)
           end)
      | FixRstSep =>
          let (err, res) := publish_string Sys (concat input_lines) inpath outpath in
          ({| stdout := []; stderr := err;
              written := [(outpath, match res with Returned text => text | Stopped _ => [] end)];
              modes := []; commands := [] |},
           match res with
           | Returned _ => Returned tt
           | Stopped s => Stopped s
           end)
      end
  end.

Definition set_mode (path : str) (mode : N) : IO unit :=
  match chmod Sys path mode with
  | Some e => pstop (Uncaught e)
  | None =>
      ({| stdout := []; stderr := []; written := []; modes := [(path, mode)];
          commands := [] |}, Returned tt)
  end.

(** [r] is the banner index that [fixfile] draws. *)
Definition make_html (G : registry) (r : nat) (inpath : str) (verbose : bool)
    : IO (option str) :=
  input_lines <~ quietly (get_input_lines W inpath) ;;
  match input_lines with
  | None => pret None
  | Some input_lines =>
      sep_type <~ quietly (get_sep_type input_lines) ;;
      match sep_type with
      | None =>
          complain ("Error: Input file " ++ inpath ++ " is not a SEP.") ;;~ pret None
      | Some sep_type =>
          match lookup sep_type (dispatch G) with
          | None =>
              complain ("Error: Unknown SEP type for input file " ++ inpath ++ ": "
                        ++ sep_type) ;;~
              pret None
          | Some None => sep_type_error G inpath sep_type ;;~ pret None
          | Some (Some h) =>
              let outpath := splitext_root inpath ++ ".html" in
              (if verbose
               then say (inpath ++ " (" ++ sep_type ++ ") -> " ++ outpath)
               else pret tt) ;;~
              convert h r inpath input_lines outpath ;;~
              set_mode outpath 436 ;;~
              pret (Some outpath)
          end
      end
  end.

Definition push_sep (htmlfiles txtfiles : list str) (username : str)
    (verbose local : bool) : IO unit :=
  let quiet : str :=
    if local then (if verbose then "-v" else "")
    else (if negb verbose then "-q" else "") in
  let target :=
    if local then HDIR
    else (if is_nonempty username then username ++ "@" else username)
         ++ HOST ++ ":" ++ HDIR in
  let copy_cmd : str := if local then "cp" else "scp" in
  let files := htmlfiles ++ txtfiles ++ [ "style.css" : str; "sep.css" : str ] in
  let filelist := join SPACE files in
  let command := copy_cmd ++ " " ++ quiet ++ " " ++ filelist ++ " " ++ target in
  ({| stdout := []; stderr := []; written := []; modes := []; commands := [command] |},
   if (os_system Sys command =? 0)%Z then Returned tt
   else Stopped (SystemExit (os_system Sys command))).

End Main.

End Sep2HtmlMain.

(** * Definitions the statements use *)

(** An environment for the examples.  On a bare address the address parser
    returns no real name and the address as it stands; on a text that
    [repr] shows unchanged between single quotes, the [ValueError] of [int]
    reads as below; the file was last modified on the day given; no
    pattern outside the literal ones is used. *)
Definition bare_parseaddr (s : str) : str * str := ([], s).

Definition int_error_text (s : str) : str :=
  "invalid literal for int() with base 10: '" ++ s ++ "'".

Definition example_env : env :=
  {| parseaddr := bare_parseaddr;
     int_error := int_error_text;
     file_date := Some ("01-Jan-2020" : str);
     regex_sub1 := fun _ _ _ => None |}.

(** An environment whose address parser returns no address for an entry
    with more than one [@], as [email.utils.parseaddr] does for [a@b@c]. *)
Fixpoint count_char (c : ascii) (s : str) : nat :=
  match s with
  | [] => 0
  | x :: t => (if Ascii.eqb x c then 1 else 0) + count_char c t
  end.

Definition strict_parseaddr (s : str) : str * str :=
  if (count_char "@" s <=? 1)%nat then ([], s) else ([], []).

Definition strict_env : env :=
  {| parseaddr := strict_parseaddr;
     int_error := int_error_text;
     file_date := Some ("01-Jan-2020" : str);
     regex_sub1 := fun _ _ _ => None |}.

(** A line of a file: the text and the newline that ends it. *)
Definition ln (s : string) : str := list_ascii_of_string s ++ nl.

(** The header holds a field named [Title], letter case ignored. *)
Definition has_title_field (h : list Sep2Html.field) : bool :=
  existsb (fun f => Py.streq (Py.lower (fst f)) "title") h.

(** A document with a number and no title, one whose number is not an
    integer, and one whose number is empty. *)
Definition numbered_untitled : list str := [ln "Sep: 42"; ln ""].
Definition misnumbered : list str := [ln "Sep: abc"; ln "Title: T"; ln ""; ln " text"].
Definition unnumbered : list str := [ln "Sep:"; ln "Title: T"; ln ""; ln " text"].

(** What [read_header] makes of them. *)
Definition numbered_untitled_parsed : Sep2Html.parsed :=
  {| Sep2Html.header := [("Sep" : str, "42" : str)];
     Sep2Html.title := []; Sep2Html.sep := "42"; Sep2Html.body := [] |}.

Definition misnumbered_parsed : Sep2Html.parsed :=
  {| Sep2Html.header := [("Sep" : str, "abc" : str); ("Title" : str, "T" : str)];
     Sep2Html.title := "T"; Sep2Html.sep := "abc"; Sep2Html.body := [ln " text"] |}.

(** A computation that writes nothing to [sys.stderr]. *)
Definition quiet {A} (m : M A) : Prop := errors m = [].

(** The address of an entry as the header table shows it: the link when
    the field always links or the address is on the list of addresses that
    are not masked, the masked text otherwise. *)
Definition shown_address (always_link : bool) (sepno addr : str) : str :=
  match Py.split1 "@" addr with
  | [user; host] =>
      if always_link || Py.mem (Py.lower addr) Sep2Html.NON_MASKED_EMAILS
      then Sep2Html.mail_link user host sepno
      else Sep2Html.masked user host
  | _ => []
  end.

(** An entry of an [author], [bdfl-delegate] or [discussions-to] value as
    the header table shows it; [discussions-to] always links. *)
Definition shown_entry (E : env) (k sepno entry : str) : str :=
  if Py.has_char "@" entry then
    let (realname, addr) := parseaddr E entry in
    realname ++ " &lt;"
    ++ shown_address (Py.streq (Py.lower k) "discussions-to") sepno addr ++ "&gt;"
  else if Py.startswith entry "http:" then Sep2Html.anchor entry entry
  else entry.

(** The entry as the specification words it: masked unless the address is
    on the list, whatever the field. *)
Definition entry_as_specified (E : env) (sepno entry : str) : str :=
  if Py.has_char "@" entry then
    let (realname, addr) := parseaddr E entry in
    realname ++ " &lt;" ++ shown_address false sepno addr ++ "&gt;"
  else if Py.startswith entry "http:" then Sep2Html.anchor entry entry
  else entry.

(** The three fields of addresses and the three fields of document numbers. *)
Definition address_fields : list str :=
  [ "author" : str; "bdfl-delegate" : str; "discussions-to" : str ].

Definition number_fields : list str :=
  [ "replaces" : str; "superseded-by" : str; "requires" : str ].

(** A document whose [Replaces] field is not a number, and what
    [read_header] makes of it. *)
Definition misreplacing : list str := [ln "Title: T"; ln "Replaces: abc"; ln ""; ln " text"].

Definition misreplacing_parsed : Sep2Html.parsed :=
  {| Sep2Html.header := [("Title" : str, "T" : str); ("Replaces" : str, "abc" : str)];
     Sep2Html.title := "T"; Sep2Html.sep := []; Sep2Html.body := [ln " text"] |}.

(** The characters a URL can start with, and the others. *)
Definition scheme_start (c : ascii) : bool := Ascii.eqb c "h" || Ascii.eqb c "f".

Definition inert (c : ascii) : bool := negb (scheme_start c).

(** A match of one of the two cross-reference alternatives at the head of
    [s]: the text matched and the text left. *)
Definition xref_match (s x rest : str) : Prop :=
  exists d, Re.match_rfc s = Some (x, d, rest) \/ Re.match_sep s = Some (x, d, rest).

(** A match object with no named group. *)
Definition plain_match (t : str) : Re.rmatch :=
  {| Re.group0 := t; Re.rfcnum := None; Re.sepnum := None |}.

(** At the head of [s] the pattern matches one character by its last
    alternative, or nothing. *)
Definition single_char_here (s : str) : bool :=
  match Re.fixpat_match s with
  | Some (Re.AChar, _, _) => true
  | Some (_, _, _) => false
  | None => true
  end.

(** [a], read with [follow] after it, is plain text: at none of its
    characters does a URL, a file name or a cross-reference start. *)
Fixpoint plain_text (a follow : str) : bool :=
  match a with
  | [] => true
  | _ :: t => single_char_here (a ++ follow) && plain_text t follow
  end.

(** The body of the example of the specification as it is worded, and
    with the line indented. *)
Definition url_heading : list str := [ln ""; ln "See http://example.com/page."].
Definition url_text : list str := [ln ""; ln " See http://example.com/page."].

(** An index whose only body line has the number 12 as its second word:
    in the first column, and indented. *)
Definition index_heading : list str := [ln ""; ln "Num 12 Title"].
Definition index_summary : list str := [ln ""; ln " S 12 Purpose"].

(** No character of the text is whitespace. *)
Definition spaceless (s : str) : bool := forallb (fun c => negb (Py.isspace c)) s.

(** A three-way comparison that is an order: swapping the arguments
    swaps the answer, things that compare equal compare alike with
    everything, and less-than is transitive. *)
Class Order {A : Type} (cmp : A -> A -> comparison) : Prop := {
  cmp_sym : forall x y, cmp y x = CompOpp (cmp x y);
  cmp_eq_l : forall x y z, cmp x y = Eq -> cmp x z = cmp y z;
  cmp_lt_trans : forall x y z, cmp x y = Lt -> cmp y z = Lt -> cmp x z = Lt
}.

(** [a] does not come before [b] in the order of the sort: [a >= b]. *)
Definition entry_ge (a b : Sep2Rss.entry) : Prop := Sep2Rss.entry_lt a b = false.

(** The date [a] is not earlier than the date [b]. *)
Definition dt_ge (a b : Sep2Rss.datetime) : Prop := Sep2Rss.dt_compare a b <> Lt.

(** The epoch where local time is UTC, and the text of the error of
    [time.strptime] for the examples. *)
Definition utc_epoch : Sep2Rss.datetime :=
  {| Sep2Rss.year := 1970; Sep2Rss.month := 1; Sep2Rss.day := 1;
     Sep2Rss.hour := 0; Sep2Rss.minute := 0; Sep2Rss.second := 0 |}.

Definition strptime_error_text (s : str) : str :=
  "time data '" ++ s ++ "' does not match format '%d-%B-%Y'".

(** A directory with two dated documents; one with a document dated
    before the epoch and an undated one; one with a document whose name
    holds no number. *)
Definition two_dated (p : str) : list str :=
  if Py.streq p "sep-0001.txt" then [ln "Title: One"; ln "Created: 01-Jan-2020"]
  else if Py.streq p "sep-0002.txt" then [ln "Title: Two"; ln "Created: 02-Jan-2020"]
  else [].

Definition old_and_undated (p : str) : list str :=
  if Py.streq p "sep-0001.txt" then [ln "Title: Old"; ln "Created: 01-Jan-1960"]
  else if Py.streq p "sep-0002.txt" then [ln "Title: Undated"; ln "Created:"]
  else [].

Definition misnamed (p : str) : list str :=
  if Py.streq p "sep-0007.txt" then [ln "Title: Seven"; ln "Created: 02-Jan-2020"]
  else if Py.streq p "sep-draft.txt" then [ln "Title: Draft"; ln "Created: 01-Jan-2020"]
  else [].

(** What comes after a maximal run does not continue it. *)
Definition stops (p : ascii -> bool) (b : str) : Prop :=
  match b with
  | c :: _ => p c = false
  | [] => True
  end.

(** The three schemes of the URL alternative. *)
Definition is_scheme (sch : str) : Prop :=
  sch = "https:" \/ sch = "http:" \/ sch = "ftp:".

(** The text of the pieces, one after the other. *)
Definition pieces_text (ps : list Re.piece) : str := concat (map Re.piece_text ps).

(** Templates without a backslash. *)
Definition no_backslash (s : str) : Prop := Py.has_char "\" s = false.

(** ** Definitions for the further properties *)

(** The characters that [html.escape] rewrites. *)
Definition markup (c : ascii) : bool := Py.has_char c "&<>'" || Ascii.eqb c dquote.

(** The longest run of digits in a text; [cur] counts the digits of the
    run being read. *)
Fixpoint digit_run_from (cur : N) (s : str) : N :=
  match s with
  | [] => cur
  | c :: t =>
      if Py.isdigit c then digit_run_from (N.succ cur) t
      else N.max cur (digit_run_from 0 t)
  end.

Definition longest_digit_run (s : str) : N := digit_run_from 0 s.

(** No run of digits of the text is longer than what [int] accepts. *)
Definition short_numbers (s : str) : bool :=
  (longest_digit_run s <=? Py.max_str_digits)%N.

(** The first line of the input is a continuation line: it is not blank
    and starts with whitespace. *)
Definition leading_continuation (lines : list str) : bool :=
  match lines with
  | line :: _ => Sep2Html.is_nonempty (Py.strip line) && Re.starts_with_space line
  | [] => false
  end.

(** A line at which the header loop stops: a blank line, or a line that
    starts in the first column and holds no colon. *)
Definition ends_header (line : str) : bool :=
  negb (Sep2Html.is_nonempty (Py.strip line))
  || (negb (Re.starts_with_space line) && negb (Py.has_char ":" line)).

(** What the header loop returned, with another body. *)
Definition with_body (p : Sep2Html.parsed) (b : list str) : Sep2Html.parsed :=
  {| Sep2Html.header := Sep2Html.header p; Sep2Html.title := Sep2Html.title p;
     Sep2Html.sep := Sep2Html.sep p; Sep2Html.body := b |}.

(** The fields whose value is converted by code that can raise: the
    addresses, the numbers of other documents, the date of the last
    change. *)
Definition fallible_key (k : str) : bool :=
  Sep2Html.in_keys k address_fields || Sep2Html.in_keys k number_fields
  || Sep2Html.in_keys k [ "last-modified" : str ].

(** A line as [splitlines] cuts it: not empty, and with no line end
    before its last character, the carriage return of a final carriage
    return and newline apart. *)
Fixpoint well_ended (line : str) : bool :=
  match line with
  | [] => false
  | c :: t =>
      match t with
      | [] => true
      | _ :: _ =>
          if Py.linebreak c then Ascii.eqb c carriage_return && Py.streq t nl
          else well_ended t
      end
  end.

(** A text with no line end in it. *)
Definition unbroken (s : str) : bool := forallb (fun c => negb (Py.linebreak c)) s.

(** The lines [get_sep_type] looks for: the line that names the type, the
    line that names the number, and the blank line that ends the header. *)
Definition type_line (line : str) : bool :=
  Py.startswith (Py.lower (Py.rstrip line)) "content-type: ".

Definition number_line (line : str) : bool :=
  Py.startswith (Py.lower (Py.rstrip line)) "sep: ".

Definition blank_line (line : str) : bool :=
  negb (Sep2Html.is_nonempty (Py.rstrip line)).

(** A directory that holds the one file [sep-0001.txt]. *)
Definition one_file (text : str) : world :=
  {| read_text := fun p => if Py.streq p "sep-0001.txt" then Content text else Missing;
     path_exists := fun p => Py.streq p "sep-0001.txt";
     abspath := fun p => "/seps/" ++ p |}.

(** A date of the calendar, at midnight. *)
Definition calendar_midnight (d : Sep2Rss.datetime) : Prop :=
  (1 <= Sep2Rss.year d <= 9999 /\ 1 <= Sep2Rss.month d <= 12
   /\ 1 <= Sep2Rss.day d <= Sep2Rss.days_in_month (Sep2Rss.year d) (Sep2Rss.month d)
   /\ Sep2Rss.hour d = 0 /\ Sep2Rss.minute d = 0 /\ Sep2Rss.second d = 0)%Z.

(** The value of a decimal numeral read from the left, [acc] being the
    value of the digits read before it. *)
Fixpoint uint_value (acc : N) (d : Decimal.uint) : N :=
  match d with
  | Decimal.Nil => acc
  | Decimal.D0 d => uint_value (10 * acc) d
  | Decimal.D1 d => uint_value (10 * acc + 1) d
  | Decimal.D2 d => uint_value (10 * acc + 2) d
  | Decimal.D3 d => uint_value (10 * acc + 3) d
  | Decimal.D4 d => uint_value (10 * acc + 4) d
  | Decimal.D5 d => uint_value (10 * acc + 5) d
  | Decimal.D6 d => uint_value (10 * acc + 6) d
  | Decimal.D7 d => uint_value (10 * acc + 7) d
  | Decimal.D8 d => uint_value (10 * acc + 8) d
  | Decimal.D9 d => uint_value (10 * acc + 9) d
  end%N.

(** A word of a command: not empty, and free of whitespace. *)
Definition is_word (w : str) : bool := Sep2Html.is_nonempty w && spaceless w.

(** A host with a recent interpreter, on which files can be written, and
    the version of Docutils given. *)
Definition plain_host (docutils : option str) : Sep2HtmlMain.host :=
  {| Sep2HtmlMain.open_write := fun _ => None;
     Sep2HtmlMain.chmod := fun _ _ => None;
     Sep2HtmlMain.publish_string :=
       fun _ _ _ => ([], Sep2HtmlMain.Stopped (Sep2HtmlMain.Foreign "SystemMessage"));
     Sep2HtmlMain.format_locals :=
       fun _ _ _ => Sep2HtmlMain.Stopped (Sep2HtmlMain.Uncaught TypeError);
     Sep2HtmlMain.os_system := fun _ => 0%Z;
     Sep2HtmlMain.version_info := [3; 11; 4]%Z;
     Sep2HtmlMain.version := "3.11.4 (main)";
     Sep2HtmlMain.docutils_version := docutils |}.

(** The text of a small document in plain text. *)
Definition plain_text_file : str :=
  ln "SEP: 1" ++ ln "Title: T" ++ ln "" ++ ln "Heading" ++ ln " See SEP 8.".

(** What the two dictionaries say of a type: it is as the module defines
    it, with no message, or it is a type of the module, disabled, with a
    message. *)
Definition settled (G : Sep2HtmlMain.registry) (sep_type : str) : Prop :=
  (Sep2HtmlMain.lookup sep_type (Sep2HtmlMain.dispatch G)
   = Sep2HtmlMain.lookup sep_type Sep2HtmlMain.SEP_TYPE_DISPATCH
   /\ Sep2HtmlMain.lookup sep_type (Sep2HtmlMain.messages G) = None)
  \/ (Sep2HtmlMain.lookup sep_type (Sep2HtmlMain.dispatch G) = Some None
      /\ Sep2HtmlMain.lookup sep_type Sep2HtmlMain.SEP_TYPE_DISPATCH <> None
      /\ exists message,
           Sep2HtmlMain.lookup sep_type (Sep2HtmlMain.messages G) = Some message).

(** * Properties *)

Import Py Re Sep2Html.

(** ** The output calculus of the writer monad *)

Lemma output_bind {A B} (m : M A) (k : A -> M B) :
  output (bind m k) =
  output m ++ match status m with Done a => output (k a) | Raise _ => [] end.
Proof.
  destruct m as [l [a | e]]; unfold output, status, bind; simpl.
  - destruct (k a) as [l' r]; reflexivity.
  - now rewrite app_nil_r.
Qed.

Lemma errors_bind {A B} (m : M A) (k : A -> M B) :
  errors (bind m k) =
  errors m ++ match status m with Done a => errors (k a) | Raise _ => [] end.
Proof.
  destruct m as [l [a | e]]; unfold errors, status, bind; simpl.
  - destruct (k a) as [l' r]; reflexivity.
  - now rewrite app_nil_r.
Qed.

Lemma status_bind {A B} (m : M A) (k : A -> M B) :
  status (bind m k) =
  match status m with Done a => status (k a) | Raise e => Raise e end.
Proof.
  destruct m as [l [a | e]]; unfold status, bind; simpl; trivial.
  destruct (k a) as [l' r]; reflexivity.
Qed.

(** Two computations are the same when they wrote the same and ended the
    same. *)
Lemma M_ext {A} (m n : M A) :
  output m = output n -> errors m = errors n -> status m = status n -> m = n.
Proof.
  destruct m as [[o1 e1] s1], n as [[o2 e2] s2]; unfold output, errors, status; simpl.
  intros -> -> ->; reflexivity.
Qed.

Lemma bind_ret_l {A B} (a : A) (k : A -> M B) : bind (ret a) k = k a.
Proof.
  apply M_ext; rewrite ?output_bind, ?errors_bind, ?status_bind; reflexivity.
Qed.

Lemma bind_assoc {A B C} (m : M A) (k : A -> M B) (h : B -> M C) :
  bind (bind m k) h = bind m (fun a => bind (k a) h).
Proof.
  apply M_ext;
    rewrite ?output_bind, ?errors_bind, ?status_bind;
    rewrite ?output_bind, ?errors_bind, ?status_bind;
    destruct (status m); rewrite <- ?app_assoc, ?app_nil_r;
    rewrite ?output_bind, ?errors_bind, ?status_bind; reflexivity.
Qed.

Lemma output_ret {A} (a : A) : output (ret a) = [].
Proof. reflexivity. Qed.

Lemma errors_ret {A} (a : A) : errors (ret a) = [].
Proof. reflexivity. Qed.

Lemma status_ret {A} (a : A) : status (ret a) = Done a.
Proof. reflexivity. Qed.

Lemma output_raise {A} (e : exn) : output (@raise A e) = [].
Proof. reflexivity. Qed.

Lemma errors_raise {A} (e : exn) : errors (@raise A e) = [].
Proof. reflexivity. Qed.

Lemma status_raise {A} (e : exn) : status (@raise A e) = Raise e.
Proof. reflexivity. Qed.

Lemma output_print (s : str) : output (print s) = s ++ nl.
Proof. reflexivity. Qed.

Lemma status_print (s : str) : status (print s) = Done tt.
Proof. reflexivity. Qed.

Lemma errors_print (s : str) : errors (print s) = [].
Proof. reflexivity. Qed.

(** The first loop of [fixfile] writes nothing. *)
Lemma read_header_silent (lines : list str) :
  forall h t s, fst (read_header lines h t s) = log_nil.
Proof.
  induction lines as [| line rest IH]; intros h t s; simpl; trivial.
  destruct (negb (is_nonempty (strip line))); trivial.
  destruct (negb (starts_with_space line)).
  - destruct (negb (has_char ":" line)); trivial.
    destruct (split1 ":" line) as [| key [| v [| x l]]]; trivial.
  - destruct (last (map Some h) None) as [[key v] |]; trivial.
Qed.

(** ** C9: two runs differ in the banner index only *)

Lemma status_print_title (p : parsed) : status (print_title p) = Done tt.
Proof. unfold print_title; destruct (is_nonempty (full_title p)); reflexivity. Qed.

Lemma errors_print_title (p : parsed) : errors (print_title p) = [].
Proof. unfold print_title; destruct (is_nonempty (full_title p)); reflexivity. Qed.

Lemma status_print_head : status print_head = Done tt.
Proof. reflexivity. Qed.

Lemma errors_print_head : errors print_head = [].
Proof. reflexivity. Qed.

(** [fixfile] once the outcome of the header loop is known. *)
Lemma fixfile_header_read (E : env) (r : nat) (inpath : str) (lines : list str) (p : parsed) :
  status (read_header lines [] [] []) = Done p ->
  fixfile E r inpath lines =
  (print_head ;;; print_title p ;;; print (navigation r) ;;; render_rest E inpath p).
Proof.
  intro H. unfold fixfile.
  pose proof (read_header_silent lines [] [] []) as Hs.
  destruct (read_header lines [] [] []) as [l o]; simpl in H, Hs; subst.
  change (log_nil, Done p) with (@ret parsed p).
  apply M_ext;
    rewrite ?output_bind, ?errors_bind, ?status_bind, ?status_print_head, ?status_ret;
    rewrite ?output_bind, ?errors_bind, ?status_bind, ?status_ret; reflexivity.
Qed.

Lemma fixfile_header_raises (E : env) (r : nat) (inpath : str) (lines : list str) (e : exn) :
  status (read_header lines [] [] []) = Raise e ->
  fixfile E r inpath lines = (print_head ;;; raise e).
Proof.
  intro H. unfold fixfile.
  pose proof (read_header_silent lines [] [] []) as Hs.
  destruct (read_header lines [] [] []) as [l o]; simpl in H, Hs; subst.
  reflexivity.
Qed.

(** C9. Determinism of the plaintext converter, the banner index factored
    out: for a given path, given lines and a given environment, the output
    of [fixfile] is one fixed text before the three digits of the banner
    index and one fixed text after them (or one fixed text when the run
    stops before the index is drawn), and neither what goes to the error
    stream nor the way the run ends depends on the index.  Two runs on an
    unchanged input therefore write the same bytes but for these digits,
    and the same bytes when the index is the same. *)
Theorem C9_output_fixed_but_for_banner (E : env) (inpath : str) (lines : list str) :
  exists (pre post : str) (drawn : bool),
    forall r : nat,
      output (fixfile E r inpath lines)
      = pre ++ (if drawn then fmt_0d 3 (Z.of_nat r) ++ post else [])
      /\ errors (fixfile E r inpath lines) = errors (fixfile E 0 inpath lines)
      /\ status (fixfile E r inpath lines) = status (fixfile E 0 inpath lines).
Proof.
  destruct (status (read_header lines [] [] [])) as [p | e] eqn:Hh.
  - exists (output print_head ++ output (print_title p) ++ navigation_before),
      (navigation_after ++ nl ++ output (render_rest E inpath p)), true.
    intro r.
    rewrite !(fixfile_header_read E _ inpath lines p Hh).
    repeat split.
    + rewrite !output_bind, status_print_head, status_print_title, status_print,
        output_print.
      unfold navigation. now rewrite <- !app_assoc.
    + rewrite !errors_bind, status_print_head, status_print_title, !status_print,
        !errors_print. reflexivity.
    + rewrite !status_bind, status_print_head, status_print_title, !status_print.
      reflexivity.
  - exists (output print_head), [], false.
    intro r.
    rewrite !(fixfile_header_raises E _ inpath lines e Hh).
    repeat split; now rewrite ?app_nil_r.
Qed.

(** ** C7: the title of a document with no [Title] field *)

Lemma last_some {A} (h : list A) (f : A) :
  last (map Some h) None = Some f -> h = removelast h ++ [f].
Proof.
  induction h as [| x [| y r] IH]; simpl; intro H.
  - discriminate.
  - now inversion H.
  - f_equal. now apply IH.
Qed.

Lemma keys_set_last (h : list field) (key v v' : str) :
  last (map Some h) None = Some (key, v) ->
  map fst (set_last h (key, v')) = map fst h.
Proof.
  intro H. apply last_some in H. unfold set_last.
  rewrite H at 2. now rewrite !map_app.
Qed.

(** The header loop never drops the name of a field it has read. *)
Lemma read_header_keeps_keys (lines : list str) :
  forall h t s p,
    status (read_header lines h t s) = Done p ->
    forall k, In k (map fst h) -> In k (map fst (header p)).
Proof.
  induction lines as [| line rest IH]; intros h t s p; simpl.
  - intro H; inversion H; subst; simpl; trivial.
  - destruct (negb (is_nonempty (strip line))).
    { intro H; inversion H; subst; simpl; trivial. }
    destruct (negb (starts_with_space line)).
    + destruct (negb (has_char ":" line)).
      { intro H; inversion H; subst; simpl; trivial. }
      destruct (split1 ":" line) as [| key [| v [| x l]]]; try discriminate.
      intros H k Hk. apply (IH _ _ _ _ H).
      rewrite map_app. apply in_or_app; now left.
    + destruct (last (map Some h) None) as [[key v] |] eqn:Hl; try discriminate.
      intros H k Hk. apply (IH _ _ _ _ H).
      now rewrite (keys_set_last h key v _ Hl).
Qed.

Lemma no_title_field (h : list field) (k : str) :
  has_title_field h = false -> In k (map fst h) -> streq (lower k) "title" = false.
Proof.
  unfold has_title_field. intros H Hin.
  apply in_map_iff in Hin as [[k' v] [<- Hin]].
  destruct (streq (lower (fst (k', v))) "title") eqn:Hk; trivial.
  assert (existsb (fun f => streq (lower (fst f)) "title") h = true) as Ht
    by (apply existsb_exists; eauto).
  congruence.
Qed.

(** When the header that was read has no [Title] field, [title] is still
    what it was before the loop. *)
Lemma read_header_title_kept (lines : list str) :
  forall h t s p,
    status (read_header lines h t s) = Done p ->
    has_title_field (header p) = false ->
    title p = t.
Proof.
  induction lines as [| line rest IH]; intros h t s p; simpl.
  - intro H; inversion H; subst; simpl; trivial.
  - destruct (negb (is_nonempty (strip line))).
    { intro H; inversion H; subst; simpl; trivial. }
    destruct (negb (starts_with_space line)).
    + destruct (negb (has_char ":" line)).
      { intro H; inversion H; subst; simpl; trivial. }
      destruct (split1 ":" line) as [| key [| v [| x l]]]; try discriminate.
      intros H Hno. rewrite (IH _ _ _ _ H Hno).
      unfold note_title.
      rewrite (no_title_field (header p) key Hno); trivial.
      apply (read_header_keeps_keys _ _ _ _ _ H).
      rewrite map_app. apply in_or_app; right; simpl; now left.
    + destruct (last (map Some h) None) as [[key v] |] eqn:Hl; try discriminate.
      intros H Hno. rewrite (IH _ _ _ _ H Hno).
      unfold note_title.
      rewrite (no_title_field (header p) key Hno); trivial.
      apply (read_header_keeps_keys _ _ _ _ _ H).
      unfold set_last. rewrite map_app. apply in_or_app; right; simpl; now left.
Qed.

(** C7, as amended.  For a document whose header holds no [Title] field,
    the title text read from the header is empty; the title of the HTML
    document is then [SEP <number> -- ] when the header gives a number that
    is not empty, and no title element is written otherwise. *)
Theorem C7_title_without_title_field
    (E : env) (r : nat) (inpath : str) (lines : list str) (p : parsed) :
  status (read_header lines [] [] []) = Done p ->
  has_title_field (header p) = false ->
  title p = []
  /\ full_title p = (if is_nonempty (sep p) then "SEP " ++ sep p ++ " -- " else [])
  /\ fixfile E r inpath lines =
     (print_head ;;;
      (if is_nonempty (sep p)
       then print ("  <title>" ++ escape ("SEP " ++ sep p ++ " -- ") ++ "</title>")
       else ret tt) ;;;
      print (navigation r) ;;;
      render_rest E inpath p).
Proof.
  intros Hh Hno.
  pose proof (read_header_title_kept lines [] [] [] p Hh Hno) as Ht.
  assert (full_title p = (if is_nonempty (sep p) then "SEP " ++ sep p ++ " -- " else []))
    as Hf.
  { unfold full_title. rewrite Ht. destruct (is_nonempty (sep p)); trivial. }
  repeat split; trivial.
  rewrite (fixfile_header_read E r inpath lines p Hh).
  unfold print_title. rewrite Hf.
  destruct (sep p) as [| c s]; reflexivity.
Qed.

Lemma C7_witness :
  status (read_header numbered_untitled [] [] []) = Done numbered_untitled_parsed
  /\ has_title_field (header numbered_untitled_parsed) = false
  /\ full_title numbered_untitled_parsed = "SEP 42 -- ".
Proof.
  split; [reflexivity | split; [reflexivity |]].
  exact (proj1 (proj2 (C7_title_without_title_field example_env 0 "sep-0042.txt"
                         numbered_untitled numbered_untitled_parsed eq_refl eq_refl))).
Defined.

(** C7 as stated fails: this document has no [Title] field, and the
    title of the HTML written for it is not empty. *)
Lemma C7_counterexample :
  status (read_header numbered_untitled [] [] []) = Done numbered_untitled_parsed
  /\ has_title_field (header numbered_untitled_parsed) = false
  /\ contains "<title>SEP 42 -- </title>"
       (output (fixfile example_env 0 "sep-0042.txt" numbered_untitled)) = true.
Proof. repeat split; vm_compute; reflexivity. Qed.

(** ** C6: a document number that is not an integer *)

Lemma quiet_ret {A} (a : A) : quiet (ret a).
Proof. reflexivity. Qed.

Lemma quiet_raise {A} (e : exn) : quiet (@raise A e).
Proof. reflexivity. Qed.

Lemma quiet_write (s : str) : quiet (write s).
Proof. reflexivity. Qed.

Lemma quiet_print (s : str) : quiet (print s).
Proof. reflexivity. Qed.

Lemma quiet_bind {A B} (m : M A) (k : A -> M B) :
  quiet m -> (forall a, quiet (k a)) -> quiet (bind m k).
Proof.
  unfold quiet. intros Hm Hk. rewrite errors_bind, Hm.
  destruct (status m); simpl; auto.
Qed.

Lemma quiet_try {A} (m : M A) (h : str -> M A) :
  quiet m -> (forall e, quiet (h e)) -> quiet (try_value_error m h).
Proof.
  unfold quiet, errors. intros Hm Hh.
  destruct m as [l [a | [msg | | | | |]]]; simpl in *; trivial.
  specialize (Hh msg). destruct (h msg) as [l' o]; simpl in *.
  now rewrite Hm, Hh.
Qed.

Create HintDb quiet.

#[local] Hint Resolve quiet_ret quiet_raise quiet_write quiet_print : quiet.

(** Splits a computation along its binds and its case distinctions. *)
Ltac quiet_step :=
  match goal with
  | |- quiet (bind _ _) => apply quiet_bind; [| intros]
  | |- quiet (try_value_error _ _) => apply quiet_try; [| intros]
  | |- quiet (if ?b then _ else _) => destruct b
  | |- quiet (match ?x with _ => _ end) => destruct x
  | |- quiet _ => solve [auto with quiet]
  end.

Ltac quiet_auto := repeat quiet_step.

Lemma quiet_int_of (E : env) (s : str) : quiet (int_of E s).
Proof. unfold int_of. quiet_auto. Qed.

#[local] Hint Resolve quiet_int_of : quiet.

Lemma quiet_fixanchor (E : env) (cur : str) (m : rmatch) : quiet (fixanchor E cur m).
Proof. unfold fixanchor, int_of_group. quiet_auto. Qed.

#[local] Hint Resolve quiet_fixanchor : quiet.

Lemma quiet_render_pieces (E : env) (cur : str) (ps : list piece) :
  quiet (render_pieces E cur ps).
Proof. induction ps as [| [a m | c] r IH]; simpl; quiet_auto. Qed.

Lemma quiet_sub_fixpat (E : env) (cur line : str) : quiet (sub_fixpat E cur line).
Proof. apply quiet_render_pieces. Qed.

Lemma quiet_part (i : nat) (parts : list str) : quiet (part i parts).
Proof. unfold part. quiet_auto. Qed.

#[local] Hint Resolve quiet_sub_fixpat quiet_part : quiet.

Lemma quiet_linkemail (a s : str) : quiet (linkemail a s).
Proof. unfold linkemail. quiet_auto. Qed.

#[local] Hint Resolve quiet_linkemail : quiet.

Lemma quiet_fixemail (a s : str) : quiet (fixemail a s).
Proof. unfold fixemail. quiet_auto. Qed.

#[local] Hint Resolve quiet_fixemail : quiet.

Lemma quiet_mail_entries (E : env) (k s : str) (es : list str) :
  quiet (mail_entries E k s es).
Proof. induction es as [| e r IH]; simpl; unfold mail_entry; quiet_auto. Qed.

Lemma quiet_othersep_links (E : env) (ts : list str) :
  forall acc, quiet (othersep_links E ts acc).
Proof. induction ts as [| t r IH]; intro acc; simpl; quiet_auto. Qed.

Lemma quiet_last_modified (E : env) (base s v : str) : quiet (last_modified E base s v).
Proof. unfold last_modified. quiet_auto. Qed.

#[local] Hint Resolve quiet_mail_entries quiet_othersep_links quiet_last_modified : quiet.

Lemma quiet_fix_value (E : env) (base s k v : str) : quiet (fix_value E base s k v).
Proof. unfold fix_value. quiet_auto. Qed.

#[local] Hint Resolve quiet_fix_value : quiet.

Lemma quiet_print_fields (E : env) (base s : str) (h : list field) :
  quiet (print_fields E base s h).
Proof. induction h as [| [k v] r IH]; simpl; quiet_auto. Qed.

Lemma quiet_open_pre (b : bool) : quiet (open_pre b).
Proof. unfold open_pre. quiet_auto. Qed.

Lemma quiet_re_sub1 (E : env) (p r l : str) : quiet (re_sub1 E p r l).
Proof. unfold re_sub1. quiet_auto. Qed.

#[local] Hint Resolve quiet_print_fields quiet_open_pre quiet_re_sub1 : quiet.

Lemma quiet_index_line (E : env) (s line : str) (b : bool) (m : M unit) :
  index_line E s line b = Some m -> quiet m.
Proof.
  unfold index_line.
  destruct (nth_error (split_ws line) 1) as [p1 |].
  - destruct (match_summary p1).
    + intro H; inversion H; subst. unfold summary_line. quiet_auto.
    + destruct (is_nonempty (split_ws line) && has_char "@" (last (split_ws line) []));
        intro H; inversion H; subst. unfold address_line. quiet_auto.
  - destruct (is_nonempty (split_ws line) && has_char "@" (last (split_ws line) []));
      intro H; inversion H; subst. unfold address_line. quiet_auto.
Qed.

Lemma quiet_text_line (E : env) (inpath line : str) (b : bool) :
  quiet (text_line E inpath line b).
Proof. unfold text_line. quiet_auto. Qed.

#[local] Hint Resolve quiet_text_line : quiet.

Lemma quiet_print_body (E : env) (inpath base s : str) (lines : list str) :
  forall b, quiet (print_body E inpath base s lines b).
Proof.
  induction lines as [| line rest IH]; intro b; cbn [print_body]; [quiet_auto |].
  destruct line as [| c0 l]; [quiet_auto |].
  destruct (Ascii.eqb c0 formfeed); [apply IH |].
  destruct (streq (strip (c0 :: l)) LOCALVARS); [quiet_auto |].
  destruct (negb (isspace c0)); [quiet_auto |].
  destruct (negb (is_nonempty (strip (c0 :: l))) && b); [apply IH |].
  destruct (if streq base INDEX_NAME then index_line E s (c0 :: l) b else None)
    as [m |] eqn:Hm.
  - apply quiet_bind; [| intros; apply IH].
    destruct (streq base INDEX_NAME); [| discriminate].
    now apply quiet_index_line in Hm.
  - quiet_auto.
Qed.

Lemma quiet_print_tail (b : bool) : quiet (print_tail b).
Proof. unfold print_tail. quiet_auto. Qed.

#[local] Hint Resolve quiet_print_body quiet_print_tail : quiet.

(** The header table and the body never write to the error stream. *)
Lemma quiet_render_content (E : env) (inpath : str) (p : parsed) :
  quiet (render_content E inpath p).
Proof. unfold render_content. quiet_auto. Qed.

Lemma status_print_index_link (base : str) : status (print_index_link base) = Done tt.
Proof. unfold print_index_link; destruct (negb (streq base INDEX_NAME)); reflexivity. Qed.

Lemma errors_print_index_link (base : str) : errors (print_index_link base) = [].
Proof. unfold print_index_link; destruct (negb (streq base INDEX_NAME)); reflexivity. Qed.

(** The source link when the number is not an integer: when the number is
    there, the conversion raises and the handler writes the warning,
    nothing else; when the number is empty nothing is attempted. *)
Lemma print_source_link_malformed (E : env) (s : str) :
  int s = None ->
  print_source_link E s
  = if is_nonempty s
    then eprint ("ValueError (invalid SEP number): " ++ int_error E s)
    else ret tt.
Proof.
  intros Hparse. unfold print_source_link, int_of.
  destruct s as [| c s']; [reflexivity |]. simpl is_nonempty. cbv iota.
  rewrite Hparse. reflexivity.
Qed.

(** C6, as amended.  When the header gives a document number that is not
    empty and is not a valid integer, [fixfile] catches the failure of the
    conversion: it writes one warning to the error stream and nothing else
    there, writes no [SEP Source] link (the navigation table is closed
    right after the link to the index), and goes on to render the header
    table and the body, ending as that rendering ends.  When the number is
    empty (the header gives none, or gives an empty one) no conversion is
    attempted: nothing is written to the error stream and no link is
    written either, the output and the outcome being the same as above. *)
Theorem C6_malformed_number_warns
    (E : env) (r : nat) (inpath : str) (lines : list str) (p : parsed) :
  status (read_header lines [] [] []) = Done p ->
  int (sep p) = None ->
  errors (fixfile E r inpath lines)
  = (if is_nonempty (sep p)
     then "ValueError (invalid SEP number): " ++ int_error E (sep p) ++ nl
     else [])
  /\ output (fixfile E r inpath lines)
     = output print_head ++ output (print_title p) ++ navigation r ++ nl
       ++ output (print_index_link (basename inpath))
       ++ output (render_content E inpath p)
  /\ status (fixfile E r inpath lines) = status (render_content E inpath p).
Proof.
  intros Hh Hparse.
  rewrite (fixfile_header_read E r inpath lines p Hh).
  unfold render_rest. rewrite (print_source_link_malformed E (sep p) Hparse).
  repeat split.
  - rewrite !errors_bind, status_print_head, status_print_title, status_print,
      status_print_index_link, errors_print_head, errors_print_title, errors_print,
      errors_print_index_link.
    rewrite (quiet_render_content E inpath p).
    destruct (is_nonempty (sep p)).
    + change (status (eprint ?s)) with (Done tt).
      unfold errors, eprint; simpl. rewrite app_nil_r.
      now rewrite <- ?app_assoc.
    + reflexivity.
  - rewrite !output_bind, status_print_head, status_print_title, status_print,
      status_print_index_link, output_print.
    destruct (is_nonempty (sep p)).
    + change (status (eprint ?s)) with (Done tt).
      change (output (eprint ?s)) with (@nil ascii).
      now rewrite <- !app_assoc.
    + rewrite status_ret, output_ret. now rewrite <- !app_assoc.
  - rewrite !status_bind, status_print_head, status_print_title, status_print,
      status_print_index_link.
    destruct (is_nonempty (sep p)); reflexivity.
Qed.

(** A number that is not an integer, and an empty number. *)
Lemma C6_witness :
  status (read_header misnumbered [] [] []) = Done misnumbered_parsed
  /\ int (sep misnumbered_parsed) = None
  /\ errors (fixfile example_env 7 "sep-0042.txt" misnumbered)
     = "ValueError (invalid SEP number): invalid literal for int() with base 10: 'abc'" ++ nl
  /\ status (fixfile example_env 7 "sep-0042.txt" misnumbered) = Done tt
  /\ errors (fixfile example_env 7 "sep-0042.txt" unnumbered) = []
  /\ contains "SEP Source" (output (fixfile example_env 7 "sep-0042.txt" unnumbered))
     = false.
Proof.
  destruct (C6_malformed_number_warns example_env 7 "sep-0042.txt" misnumbered
              misnumbered_parsed eq_refl eq_refl) as [He [_ Hs]].
  destruct (C6_malformed_number_warns example_env 7 "sep-0042.txt" unnumbered
              {| header := [("Sep" : str, [] : str); ("Title" : str, "T" : str)];
                 title := "T"; sep := []; body := [ln " text"] |} eq_refl eq_refl)
    as [He' [Ho' _]].
  split; [reflexivity |]. split; [reflexivity |].
  split; [rewrite He; reflexivity |]. split; [rewrite Hs; reflexivity |].
  split; [rewrite He'; reflexivity |].
  rewrite Ho'. vm_compute. reflexivity.
Defined.

(** C6 as stated fails: the number of this document is empty, which is
    not a valid integer, and no warning is written. *)
Lemma C6_counterexample :
  status (read_header unnumbered [] [] [])
  = Done {| header := [("Sep" : str, [] : str); ("Title" : str, "T" : str)];
            title := "T"; sep := []; body := [ln " text"] |}
  /\ int [] = None
  /\ errors (fixfile example_env 7 "sep-0042.txt" unnumbered) = [].
Proof. repeat split. Qed.

(** ** C2: the fields that name other documents *)

Lemma int_of_some (E : env) (s : str) (n : Z) : int s = Some n -> int_of E s = ret n.
Proof. unfold int_of; now intros ->. Qed.

Lemma int_of_none (E : env) (s : str) :
  int s = None -> int_of E s = raise (ValueError (int_error E s)).
Proof. unfold int_of; now intros ->. Qed.






Lemma status_print_source_link (E : env) (s : str) :
  status (print_source_link E s) = Done tt.
Proof.
  unfold print_source_link, int_of.
  destruct (is_nonempty s); trivial.
  destruct (int s); reflexivity.
Qed.




(** ** C1: the fields that hold addresses *)

Lemma split1_has_char (d : ascii) (s : str) :
  has_char d s = true -> exists a b, split1 d s = [a; b].
Proof.
  induction s as [| c t IH]; simpl; [discriminate |].
  rewrite (Ascii.eqb_sym d c).
  destruct (Ascii.eqb c d); simpl.
  - intros _. now exists [], t.
  - intro H. destruct (IH H) as [a [b ->]]. now exists (c :: a), b.
Qed.

Lemma split1_no_char (d : ascii) (s : str) :
  has_char d s = false -> split1 d s = [s].
Proof.
  unfold has_char. induction s as [| c t IH]; cbn [existsb split1]; trivial.
  intro H. apply orb_false_iff in H as [Hc Ht].
  rewrite (Ascii.eqb_sym c d), Hc, (IH Ht). reflexivity.
Qed.

Lemma linkemail_parts (addr sepno user host : str) :
  split1 "@" addr = [user; host] ->
  linkemail addr sepno = ret (mail_link user host sepno).
Proof. unfold linkemail; intros ->; reflexivity. Qed.

Lemma fixemail_parts (addr sepno user host : str) :
  split1 "@" addr = [user; host] ->
  fixemail addr sepno
  = ret (if mem (lower addr) NON_MASKED_EMAILS
         then mail_link user host sepno else masked user host).
Proof.
  intro H. unfold fixemail.
  destruct (mem (lower addr) NON_MASKED_EMAILS).
  - now apply linkemail_parts.
  - rewrite H. reflexivity.
Qed.

(** Without an [@] the address has one part only, and [parts[1]] raises. *)
Lemma linkemail_no_at (addr sepno : str) :
  has_char "@" addr = false -> linkemail addr sepno = raise IndexError.
Proof. intro H. unfold linkemail. rewrite (split1_no_char _ _ H). reflexivity. Qed.

Lemma fixemail_no_at (addr sepno : str) :
  has_char "@" addr = false -> fixemail addr sepno = raise IndexError.
Proof.
  intro H. unfold fixemail. destruct (mem (lower addr) NON_MASKED_EMAILS).
  - now apply linkemail_no_at.
  - rewrite (split1_no_char _ _ H). reflexivity.
Qed.

(** One entry, when the address parser leaves an [@] in the address of an
    entry that holds one. *)
Lemma mail_entry_shown (E : env) (k sepno e : str) :
  (has_char "@" e = true -> has_char "@" (snd (parseaddr E e)) = true) ->
  mail_entry E k sepno e = ret (shown_entry E k sepno e).
Proof.
  intro Hat. unfold mail_entry, shown_entry, shown_address.
  destruct (has_char "@" e).
  - specialize (Hat eq_refl).
    destruct (parseaddr E e) as [realname addr]; simpl in Hat.
    destruct (split1_has_char _ _ Hat) as [user [host Hs]]. rewrite Hs.
    destruct (streq (lower k) "discussions-to"); simpl orb.
    + rewrite (linkemail_parts addr sepno user host Hs). now rewrite bind_ret_l.
    + rewrite (fixemail_parts addr sepno user host Hs). now rewrite bind_ret_l.
  - destruct (startswith e "http:"); reflexivity.
Qed.

(** One entry, when the address parser leaves no [@] in the address. *)
Lemma mail_entry_lost (E : env) (k sepno e : str) :
  has_char "@" e = true -> has_char "@" (snd (parseaddr E e)) = false ->
  mail_entry E k sepno e = raise IndexError.
Proof.
  intros He Hat. unfold mail_entry. rewrite He.
  destruct (parseaddr E e) as [realname addr]; simpl in Hat.
  destruct (streq (lower k) "discussions-to").
  - now rewrite (linkemail_no_at addr sepno Hat).
  - now rewrite (fixemail_no_at addr sepno Hat).
Qed.

Lemma mail_entries_shown (E : env) (k sepno : str) (es : list str) :
  (forall e, In e es -> has_char "@" e = true ->
             has_char "@" (snd (parseaddr E e)) = true) ->
  mail_entries E k sepno es = ret (map (shown_entry E k sepno) es).
Proof.
  induction es as [| e r IH]; intro H; simpl; trivial.
  rewrite (mail_entry_shown E k sepno e (H e (or_introl eq_refl))), bind_ret_l.
  rewrite IH by (intros e' He'; apply H; now right).
  now rewrite bind_ret_l.
Qed.

(** The loop over the entries stops at the first entry whose address
    comes back from the parser without its [@]. *)
Lemma mail_entries_lost (E : env) (k sepno : str) (before : list str) (e : str)
    (after : list str) :
  (forall e', In e' before -> has_char "@" e' = true ->
              has_char "@" (snd (parseaddr E e')) = true) ->
  has_char "@" e = true -> has_char "@" (snd (parseaddr E e)) = false ->
  mail_entries E k sepno (before ++ e :: after) = raise IndexError.
Proof.
  intros Hb He Hat. induction before as [| x r IH]; cbn [app mail_entries].
  - now rewrite (mail_entry_lost E k sepno e He Hat).
  - rewrite (mail_entry_shown E k sepno x (Hb x (or_introl eq_refl))), bind_ret_l.
    rewrite IH by (intros e' He'; apply Hb; now right). reflexivity.
Qed.

Lemma fix_value_address_field (E : env) (base sepno k v : str) :
  In (lower k) address_fields ->
  fix_value E base sepno k v
  = (mailtos <- mail_entries E k sepno (split_comma v) ;; ret (join COMMASPACE mailtos)).
Proof.
  intro Hk. unfold fix_value, in_keys.
  destruct Hk as [Hk | [Hk | [Hk | []]]]; rewrite <- Hk; reflexivity.
Qed.

Lemma strip_prefix_app (p b : str) : strip_prefix p (p ++ b) = Some b.
Proof.
  induction p as [| c p IH]; simpl; trivial. now rewrite Ascii.eqb_refl.
Qed.

(** A text occurs in what is written around it. *)
Lemma contains_app (p a b : str) : contains p (a ++ p ++ b) = true.
Proof.
  induction a as [| c a IH]; simpl.
  - replace (contains p (p ++ b))
      with (startswith (p ++ b) p
            || match p ++ b with [] => false | _ :: t => contains p t end)
      by (destruct (p ++ b); reflexivity).
    unfold startswith. now rewrite strip_prefix_app.
  - rewrite IH. apply orb_true_r.
Qed.

(** C1, as amended.  For a header field named [author], [bdfl-delegate] or
    [discussions-to], the value is split at each comma (the whitespace
    after it dropped) and the entries are rejoined with a comma and a
    space.  An entry that holds an [@] goes to the address parser.  When
    the address that comes back holds an [@], the entry is shown as the
    real name, then, between [&lt;] and [&gt;], the address: for [author]
    and [bdfl-delegate] the address is masked with character references
    unless its lower-case form is on the list of addresses that are not
    masked, in which case it is a [mailto:] link; for [discussions-to] it
    is always that link.  The subject of the link holds the number of the
    proposal.  When the address that comes back holds no [@], cutting it
    at the [@] fails: at the first such entry [IndexError] leaves the
    renderer.  An entry that starts with [http:] becomes a plain link, and
    any other entry is left as it is. *)
Theorem C1_address_fields (E : env) (base sepno k v : str) :
  In (lower k) address_fields ->
  ((forall e, In e (split_comma v) -> has_char "@" e = true ->
              has_char "@" (snd (parseaddr E e)) = true) ->
   fix_value E base sepno k v
   = ret (join ", " (map (shown_entry E k sepno) (split_comma v))))
  /\ (forall before e after,
        split_comma v = before ++ e :: after ->
        (forall e', In e' before -> has_char "@" e' = true ->
                    has_char "@" (snd (parseaddr E e')) = true) ->
        has_char "@" e = true ->
        has_char "@" (snd (parseaddr E e)) = false ->
        fix_value E base sepno k v = raise IndexError)
  /\ (forall user host,
         contains ("subject=SEP%20" ++ sepno) (mail_link user host sepno) = true)
  /\ (lower k <> "discussions-to" ->
      map (shown_entry E k sepno) (split_comma v)
      = map (entry_as_specified E sepno) (split_comma v)).
Proof.
  intros Hk. repeat split.
  - intro Hat. rewrite (fix_value_address_field E base sepno k v Hk).
    rewrite (mail_entries_shown E k sepno _ Hat). now rewrite bind_ret_l.
  - intros before e after Hsplit Hb He Hat.
    rewrite (fix_value_address_field E base sepno k v Hk), Hsplit.
    now rewrite (mail_entries_lost E k sepno before e after Hb He Hat).
  - intros user host. unfold mail_link.
    replace (lit "<a href=`mailto:" ++ user ++ "&#64;" ++ host ++ "?subject=SEP%20"
             ++ sepno ++ lit "`>" ++ masked user host ++ "</a>")
      with ((lit "<a href=`mailto:" ++ user ++ "&#64;" ++ host ++ "?")
            ++ ("subject=SEP%20" ++ sepno) ++ (lit "`>" ++ masked user host ++ "</a>")).
    + apply contains_app.
    + now rewrite <- !app_assoc.
  - intro Hd. apply map_ext. intro e. unfold shown_entry, entry_as_specified.
    replace (streq (lower k) "discussions-to") with false; trivial.
    destruct Hk as [Hk | [Hk | [Hk | []]]]; rewrite <- Hk; trivial.
    now elim Hd.
Qed.

(** The four kinds of entry in one value; and a value whose second entry
    comes back from a parser that returns no address for it. *)
Lemma C1_witness :
  In (lower "Author") address_fields
  /\ fix_value example_env "sep-0042.txt" "42" "Author"
       "a@x.org, seps@python.org, http://foo, Jane Doe"
     = ret (" &lt;a&#32;&#97;t&#32;x.org&gt;,  &lt;"
            ++ lit "<a href=`mailto:seps&#64;python.org?subject=SEP%2042`>"
            ++ "seps&#32;&#97;t&#32;python.org</a>&gt;, "
            ++ lit "<a href=`http://foo`>http://foo</a>, Jane Doe")
  /\ fix_value strict_env "sep-0042.txt" "42" "Author" "a@x.org, a@b@c, Jane Doe"
     = raise IndexError.
Proof.
  assert (In (lower "Author") address_fields) as Hk by (now left).
  split; [exact Hk |]. split.
  - rewrite (proj1 (C1_address_fields example_env "sep-0042.txt" "42" "Author"
                      "a@x.org, seps@python.org, http://foo, Jane Doe" Hk)
               (fun e _ H => H)).
    reflexivity.
  - apply (proj1 (proj2 (C1_address_fields strict_env "sep-0042.txt" "42" "Author"
                           "a@x.org, a@b@c, Jane Doe" Hk))
             ["a@x.org" : str] "a@b@c" ["Jane Doe" : str]); try reflexivity.
    intros e' [<- | []] _. reflexivity.
Defined.

(** C1 as stated fails on [discussions-to]: this address is not on the
    list, the specification has it masked, and [fixfile] links it. *)
Lemma C1_counterexample :
  mem (lower "b@y.org") NON_MASKED_EMAILS = false
  /\ fix_value example_env "sep-0042.txt" "42" "Discussions-To" "b@y.org"
     = ret (" &lt;" ++ mail_link "b" "y.org" "42" ++ "&gt;")
  /\ join ", " (map (entry_as_specified example_env "42") (split_comma "b@y.org"))
     = " &lt;" ++ masked "b" "y.org" ++ "&gt;"
  /\ fix_value example_env "sep-0042.txt" "42" "Discussions-To" "b@y.org"
     <> ret (join ", " (map (entry_as_specified example_env "42") (split_comma "b@y.org"))).
Proof. repeat split. discriminate. Qed.

(** ** The scan of [fixpat]: what the matchers return *)

(** Case analysis on a character by its eight bits. *)
Ltac each_char c := destruct c as [[|] [|] [|] [|] [|] [|] [|] [|]].

(** Equal texts, up to the bracketing of [++]. *)
Ltac same_text := simpl; rewrite <- ?app_assoc; simpl; reflexivity.

Lemma strip_prefix_spec (p : str) : forall s r, strip_prefix p s = Some r -> s = p ++ r.
Proof.
  induction p as [| x p IH]; intros [| y s] r; simpl; try discriminate.
  - now intros [= <-].
  - now intros [= <-].
  - destruct (Ascii.eqb x y) eqn:Hxy; [| discriminate].
    apply Ascii.eqb_eq in Hxy as ->. intro H. now rewrite (IH _ _ H).
Qed.

Lemma span_spec (p : ascii -> bool) (s : str) :
  forall a b, span p s = (a, b) -> s = a ++ b /\ forallb p a = true /\ stops p b.
Proof.
  induction s as [| c t IH]; intros a b; simpl.
  - intros [= <- <-]. repeat split.
  - destruct (p c) eqn:Hc.
    + destruct (span p t) as [a' b'] eqn:Ht. intros [= <- <-].
      destruct (IH a' b' eq_refl) as [-> [Ha Hb]].
      repeat split; trivial. simpl. now rewrite Hc.
    + intros [= <- <-]. repeat split. exact Hc.
Qed.

Lemma span_app_max (p : ascii -> bool) (a b : str) :
  forallb p a = true -> stops p b -> span p (a ++ b) = (a, b).
Proof.
  induction a as [| c a IH]; simpl; intros Ha Hb.
  - destruct b as [| c b]; trivial. simpl in *. now rewrite Hb.
  - apply andb_true_iff in Ha as [Hc Ha]. now rewrite Hc, (IH Ha Hb).
Qed.

Lemma match_run_spec (p : ascii -> bool) (s a b : str) :
  match_run p s = Some (a, b) ->
  s = a ++ b /\ a <> [] /\ forallb p a = true /\ stops p b.
Proof.
  unfold match_run. destruct (span p s) as [a' b'] eqn:Hs.
  destruct a' as [| c a']; [discriminate |]. intros [= <- <-].
  destruct (span_spec p s _ _ Hs) as [H1 [H2 H3]]. repeat split; trivial.
  discriminate.
Qed.

Lemma match_scheme_spec (s sch r : str) :
  match_scheme s = Some (sch, r) -> s = sch ++ r /\ is_scheme sch.
Proof.
  unfold match_scheme, is_scheme.
  destruct (strip_prefix "https:" s) as [r1 |] eqn:H1.
  { intros [= <- <-]. split; [now apply strip_prefix_spec | now left]. }
  destruct (strip_prefix "http:" s) as [r2 |] eqn:H2.
  { intros [= <- <-]. split; [now apply strip_prefix_spec | right; now left]. }
  destruct (strip_prefix "ftp:" s) as [r3 |] eqn:H3; [| discriminate].
  intros [= <- <-]. split; [now apply strip_prefix_spec | right; now right].
Qed.

(** A URL match: a scheme, then the longest run of characters of the
    class, which is not empty. *)
Lemma match_url_spec (s u rest : str) :
  match_url s = Some (u, rest) ->
  s = u ++ rest
  /\ exists sch run,
       u = sch ++ run /\ is_scheme sch /\ run <> []
       /\ forallb urlchar run = true /\ stops urlchar rest.
Proof.
  unfold match_url.
  destruct (match_scheme s) as [[sch r] |] eqn:Hs; [| discriminate].
  destruct (match_run urlchar r) as [[run rest'] |] eqn:Hr; [| discriminate].
  intros [= <- <-].
  destruct (match_scheme_spec _ _ _ Hs) as [-> Hsch].
  destruct (match_run_spec _ _ _ _ Hr) as [-> [Hne [Hall Hstop]]].
  split; [same_text |].
  exists sch, run. repeat split; trivial.
Qed.

Lemma match_ext_spec (s ext rest : str) :
  match_ext s = (ext, rest) ->
  s = ext ++ rest
  /\ (ext = [] \/ exists c0 e3, ext = c0 :: e3 /\ (e3 = "txt" \/ e3 = "rst")).
Proof.
  unfold match_ext. destruct s as [| c r].
  { intros [= <- <-]. split; [reflexivity | now left]. }
  destruct (dotchar c).
  - destruct (strip_prefix "txt" r) as [r1 |] eqn:H1.
    { intros [= <- <-]. apply strip_prefix_spec in H1 as ->.
      split; [reflexivity | right; exists c, ("txt" : str); split; [reflexivity | now left]]. }
    destruct (strip_prefix "rst" r) as [r2 |] eqn:H2.
    { intros [= <- <-]. apply strip_prefix_spec in H2 as ->.
      split; [reflexivity | right; exists c, ("rst" : str); split; [reflexivity | now right]]. }
    intros [= <- <-]. split; [reflexivity | now left].
  - intros [= <- <-]. split; [reflexivity | now left].
Qed.

Lemma match_sepfile_spec (s t rest : str) :
  match_sepfile s = Some (t, rest) ->
  s = t ++ rest
  /\ exists ds ext,
       t = ("sep-" ++ ds) ++ ext /\ ds <> [] /\ forallb isdigit ds = true
       /\ (ext = [] \/ exists c0 e3, ext = c0 :: e3 /\ (e3 = "txt" \/ e3 = "rst")).
Proof.
  unfold match_sepfile.
  destruct (strip_prefix "sep-" s) as [r |] eqn:Hp; [| discriminate].
  destruct (match_run isdigit r) as [[ds r'] |] eqn:Hr; [| discriminate].
  destruct (match_ext r') as [ext rest'] eqn:He. intros [= <- <-].
  apply strip_prefix_spec in Hp as ->.
  destruct (match_run_spec _ _ _ _ Hr) as [-> [Hne [Hall _]]].
  destruct (match_ext_spec _ _ _ He) as [-> Hext].
  split; [same_text |].
  exists ds, ext. repeat split; trivial.
Qed.

Lemma match_rfc_spec (s t d rest : str) :
  match_rfc s = Some (t, d, rest) ->
  s = t ++ rest
  /\ d <> [] /\ forallb isdigit d = true
  /\ (t = "RFC" ++ d \/ t = "RFC-" ++ d \/ t = "RFC " ++ d).
Proof.
  unfold match_rfc.
  destruct (strip_prefix "RFC" s) as [r |] eqn:Hp; [| discriminate].
  apply strip_prefix_spec in Hp as ->.
  destruct r as [| c r1]; [discriminate |].
  destruct (Ascii.eqb c "-" || Ascii.eqb c " ") eqn:Hc.
  - destruct (match_run isdigit r1) as [[ds rest'] |] eqn:Hr; [| discriminate].
    intros [= <- <- <-].
    destruct (match_run_spec _ _ _ _ Hr) as [-> [Hne [Hall _]]].
    split; [same_text |]. repeat split; trivial.
    apply orb_true_iff in Hc as [Hc | Hc]; apply Ascii.eqb_eq in Hc as ->;
      [right; now left | right; now right].
  - destruct (match_run isdigit (c :: r1)) as [[ds rest'] |] eqn:Hr; [| discriminate].
    intros [= <- <- <-].
    destruct (match_run_spec _ _ _ _ Hr) as [Heq [Hne [Hall _]]].
    split; [simpl; now rewrite Heq |]. repeat split; trivial. now left.
Qed.

Lemma match_sep_spec (s t d rest : str) :
  match_sep s = Some (t, d, rest) ->
  s = t ++ rest
  /\ d <> [] /\ forallb isdigit d = true
  /\ exists ws, t = "SEP" ++ ws ++ d /\ ws <> [] /\ forallb isspace ws = true.
Proof.
  unfold match_sep.
  destruct (strip_prefix "SEP" s) as [r |] eqn:Hp; [| discriminate].
  apply strip_prefix_spec in Hp as ->.
  destruct (match_run isspace r) as [[ws r1] |] eqn:Hw; [| discriminate].
  destruct (match_run isdigit r1) as [[ds rest'] |] eqn:Hr; [| discriminate].
  intros [= <- <- <-].
  destruct (match_run_spec _ _ _ _ Hw) as [-> [Hwne [Hwall _]]].
  destruct (match_run_spec _ _ _ _ Hr) as [-> [Hne [Hall _]]].
  split; [same_text |]. repeat split; trivial.
  exists ws. repeat split; trivial.
Qed.

(** What [fixpat_match] returns, alternative by alternative. *)
Lemma fixpat_match_inv (s : str) (a : alt) (m : rmatch) (rest : str) :
  fixpat_match s = Some (a, m, rest) ->
  match a with
  | AUrl => match_url s = Some (group0 m, rest)
  | ASepFile => match_url s = None /\ match_sepfile s = Some (group0 m, rest)
  | ARfc => match_url s = None /\ match_sepfile s = None
            /\ exists d, match_rfc s = Some (group0 m, d, rest) /\ rfcnum m = Some d
  | ASep => match_url s = None /\ match_sepfile s = None /\ match_rfc s = None
            /\ exists d, match_sep s = Some (group0 m, d, rest) /\ sepnum m = Some d
  | AChar => match_url s = None /\ match_sepfile s = None /\ match_rfc s = None
             /\ match_sep s = None
             /\ exists c, s = c :: rest /\ group0 m = [c] /\ dotchar c = true
  end.
Proof.
  unfold fixpat_match.
  destruct (match_url s) as [[t r] |]; [intros [= <- <- <-]; reflexivity |].
  destruct (match_sepfile s) as [[t r] |]; [intros [= <- <- <-]; now split |].
  destruct (match_rfc s) as [[[t d] r] |].
  { intros [= <- <- <-]. repeat split. now exists d. }
  destruct (match_sep s) as [[[t d] r] |].
  { intros [= <- <- <-]. repeat split. now exists d. }
  destruct s as [| c r]; [discriminate |].
  destruct (dotchar c) eqn:Hc; [| discriminate].
  intros [= <- <- <-]. repeat split. now exists c.
Qed.

(** A match is a prefix of the text at the scan position, and is not
    empty. *)
Lemma fixpat_match_text (s : str) (a : alt) (m : rmatch) (rest : str) :
  fixpat_match s = Some (a, m, rest) -> s = group0 m ++ rest /\ group0 m <> [].
Proof.
  intro H. apply fixpat_match_inv in H. destruct a.
  - destruct (match_url_spec _ _ _ H) as [Hs [sch [run [Hu [Hsch _]]]]].
    split; trivial. rewrite Hu.
    destruct Hsch as [-> | [-> | ->]]; simpl; discriminate.
  - destruct H as [_ H].
    destruct (match_sepfile_spec _ _ _ H) as [Hs [ds [ext [Ht _]]]].
    split; trivial. rewrite Ht. simpl; discriminate.
  - destruct H as [_ [_ [d [H _]]]].
    destruct (match_rfc_spec _ _ _ _ H) as [Hs [_ [_ Ht]]].
    split; trivial. destruct Ht as [Ht | [Ht | Ht]]; rewrite Ht; simpl; discriminate.
  - destruct H as [_ [_ [_ [d [H _]]]]].
    destruct (match_sep_spec _ _ _ _ H) as [Hs [_ [_ [ws [Ht _]]]]].
    split; trivial. rewrite Ht. simpl; discriminate.
  - destruct H as [_ [_ [_ [_ [c [Hs [Hg _]]]]]]]. rewrite Hg, Hs.
    split; [reflexivity | discriminate].
Qed.

Lemma scan_from_skip (a s : str) : scan_from (length a) (a ++ s) = scan_from 0 s.
Proof. induction a as [| c a IH]; simpl; trivial. Qed.

(** The scan takes the match at the scan position and goes on after it. *)
Lemma scan_match (s : str) (a : alt) (m : rmatch) (rest : str) :
  fixpat_match s = Some (a, m, rest) -> scan s = Matched a m :: scan rest.
Proof.
  intro H. destruct (fixpat_match_text _ _ _ _ H) as [Hs Hne].
  unfold scan. destruct s as [| c t].
  - destruct (group0 m); [congruence | discriminate].
  - cbn [scan_from]. rewrite H. f_equal.
    destruct (group0 m) as [| c' g]; [congruence |].
    simpl in Hs. injection Hs as -> ->.
    replace (length (c' :: g) - 1) with (length g) by (simpl; lia).
    apply scan_from_skip.
Qed.

(** Where the pattern does not match, one character is passed over. *)
Lemma scan_nomatch (c : ascii) (t : str) :
  fixpat_match (c :: t) = None -> scan (c :: t) = Unmatched c :: scan t.
Proof. intro H. unfold scan. cbn [scan_from]. now rewrite H. Qed.

(** The pieces of a scan are the line, cut. *)
Lemma scan_covers_upto (n : nat) :
  forall s, length s <= n -> pieces_text (scan s) = s.
Proof.
  induction n as [| n IH]; intros s Hn.
  - destruct s; [reflexivity | simpl in Hn; lia].
  - destruct s as [| c t]; [reflexivity |].
    destruct (fixpat_match (c :: t)) as [[[a m] rest] |] eqn:Hm.
    + rewrite (scan_match _ _ _ _ Hm).
      destruct (fixpat_match_text _ _ _ _ Hm) as [Hs Hne].
      unfold pieces_text in *. simpl. rewrite IH.
      * now symmetry.
      * assert (length (c :: t) = length (group0 m) + length rest) as Hl
          by (rewrite Hs at 1; apply length_app).
        destruct (group0 m); [congruence |]. simpl in *. lia.
    + rewrite (scan_nomatch _ _ Hm). unfold pieces_text in *. simpl.
      rewrite IH; trivial. simpl in Hn. lia.
Qed.

Lemma scan_covers (s : str) : pieces_text (scan s) = s.
Proof. now apply (scan_covers_upto (length s)). Qed.

(** ** No URL starts inside a match of another alternative *)

Lemma inert_no_scheme (c : ascii) (t : str) :
  inert c = true -> match_scheme (c :: t) = None.
Proof.
  each_char c; vm_compute; intro H; try reflexivity; discriminate H.
Qed.

Lemma match_url_scheme (s u q : str) :
  match_url s = Some (u, q) -> match_scheme s <> None.
Proof. unfold match_url. destruct (match_scheme s); [discriminate | discriminate]. Qed.

Lemma digit_inert (c : ascii) : isdigit c = true -> inert c = true.
Proof. each_char c; vm_compute; trivial. Qed.

Lemma space_inert (c : ascii) : isspace c = true -> inert c = true.
Proof. each_char c; vm_compute; trivial. Qed.

Lemma all_inert (p : ascii -> bool) (s : str) :
  (forall c, p c = true -> inert c = true) ->
  forallb p s = true -> forallb inert s = true.
Proof.
  intros Hp. induction s as [| c s IH]; simpl; trivial.
  intro H. apply andb_true_iff in H as [Hc Hs]. now rewrite (Hp c Hc), IH.
Qed.

(** No URL starts at a character of a text whose characters are inert. *)
Lemma inert_suffix_no_scheme (g l g2 rest : str) :
  forallb inert g = true -> g = l ++ g2 -> g2 <> [] ->
  match_scheme (g2 ++ rest) = None.
Proof.
  intros Hg -> Hne. rewrite forallb_app in Hg. apply andb_true_iff in Hg as [_ Hg].
  destruct g2 as [| c g2]; [congruence |]. simpl in Hg.
  apply andb_true_iff in Hg as [Hc _]. now apply inert_no_scheme.
Qed.

(** The matches of the two cross-reference alternatives hold inert
    characters only. *)
Lemma rfc_inert (s t d rest : str) :
  match_rfc s = Some (t, d, rest) -> forallb inert t = true.
Proof.
  intro H. destruct (match_rfc_spec _ _ _ _ H) as [_ [_ [Hd Ht]]].
  pose proof (all_inert _ _ digit_inert Hd) as Hi.
  destruct Ht as [-> | [-> | ->]]; simpl; exact Hi.
Qed.

Lemma sep_inert (s t d rest : str) :
  match_sep s = Some (t, d, rest) -> forallb inert t = true.
Proof.
  intro H. destruct (match_sep_spec _ _ _ _ H) as [_ [_ [Hd [ws [-> [_ Hw]]]]]].
  simpl. rewrite forallb_app.
  now rewrite (all_inert _ _ space_inert Hw), (all_inert _ _ digit_inert Hd).
Qed.

(** Inside a match of the file-name alternative, past its first
    character, no URL starts either: the one free character, the dot of
    the extension, is followed by [txt] or [rst]. *)
Lemma sepfile_no_scheme_inside (s g rest p g2 : str) :
  match_sepfile s = Some (g, rest) ->
  g = p ++ g2 -> g2 <> [] ->
  match_scheme (g2 ++ rest) = None.
Proof.
  intros H Hg Hne.
  destruct (match_sepfile_spec _ _ _ H) as [_ [ds [ext [Ht [_ [Hd Hext]]]]]].
  assert (forallb inert ("sep-" ++ ds) = true) as Hfront
    by (simpl; exact (all_inert _ _ digit_inert Hd)).
  rewrite Ht in Hg. apply app_eq_app in Hg as [l [[H1 H2] | [H1 H2]]].
  - (* the suffix starts in the name or the digits, or is the extension *)
    destruct l as [| c l].
    + simpl in H2. subst g2.
      destruct Hext as [-> | [c0 [e3 [-> He3]]]]; [congruence |].
      destruct He3 as [-> | ->]; each_char c0; reflexivity.
    + subst g2. rewrite <- app_assoc.
      apply (inert_suffix_no_scheme ("sep-" ++ ds) p (c :: l)); trivial.
      discriminate.
  - (* the suffix starts in the extension *)
    destruct Hext as [-> | [c0 [e3 [-> He3]]]].
    { symmetry in H2. apply app_eq_nil in H2 as [_ ->]. congruence. }
    destruct l as [| c l].
    + simpl in H2. subst g2.
      destruct He3 as [-> | ->]; each_char c0; reflexivity.
    + simpl in H2. injection H2 as <- H2.
      apply (inert_suffix_no_scheme e3 l g2 rest); trivial.
      destruct He3 as [-> | ->]; reflexivity.
Qed.

(** The characters of a scheme belong to the class of the URL
    alternative, and none but the first can start a URL. *)
Lemma scheme_urlchars (sch : str) : is_scheme sch -> forallb urlchar sch = true.
Proof. intros [-> | [-> | ->]]; reflexivity. Qed.

Lemma scheme_tail_inert (sch : str) : is_scheme sch -> forallb inert (tl sch) = true.
Proof. intros [-> | [-> | ->]]; reflexivity. Qed.

(** A URL that starts inside a URL match, past its first character, ends
    where that match ends. *)
Lemma url_inside_url (s g rest p g2 u q : str) :
  match_url s = Some (g, rest) ->
  g = p ++ g2 -> p <> [] -> g2 <> [] ->
  match_url (g2 ++ rest) = Some (u, q) ->
  g2 = u /\ rest = q.
Proof.
  intros H Hg Hp Hne Hu.
  destruct (match_url_spec _ _ _ H) as [_ [sch [run [Ht [Hsch [_ [Hrun Hstop]]]]]]].
  destruct (match_url_spec _ _ _ Hu) as [Hcat [sch' [run' [Hu' [Hsch' [_ [Hrun' Hstop']]]]]]].
  (* the suffix lies in the run of the match *)
  assert (forallb urlchar g2 = true) as Hg2.
  { rewrite Ht in Hg. apply app_eq_app in Hg as [l [[H1 H2] | [H1 H2]]].
    - destruct l as [| c l].
      + simpl in H2. now subst g2.
      + exfalso. apply (match_url_scheme _ _ _ Hu).
        subst g2. rewrite <- app_assoc.
        destruct p as [| x p]; [congruence |].
        apply (inert_suffix_no_scheme (tl sch) p (c :: l)); try discriminate.
        * now apply scheme_tail_inert.
        * rewrite H1. reflexivity.
    - rewrite H2 in Hrun. rewrite forallb_app in Hrun.
      now apply andb_true_iff in Hrun as [_ Hrun]. }
  assert (forallb urlchar u = true) as Hall.
  { rewrite Hu', forallb_app, Hrun', (scheme_urlchars _ Hsch'). reflexivity. }
  pose proof (span_app_max urlchar g2 rest Hg2 Hstop) as S1.
  pose proof (span_app_max urlchar u q Hall Hstop') as S2.
  rewrite Hcat in S1. rewrite S1 in S2. now injection S2.
Qed.

(** ** C3: one pass, leftmost match, alternatives in order *)

(** Two ways to cut one text: the shorter first part is a prefix of the
    longer. *)
Lemma split_at_leq {A} (a b c d : list A) :
  a ++ b = c ++ d -> length a <= length c -> exists l, c = a ++ l /\ b = l ++ d.
Proof.
  intros H Hl. apply app_eq_app in H as [l [[H1 H2] | [H1 H2]]].
  - assert (l = []) as ->.
    { apply (f_equal (@length A)) in H1. rewrite length_app in H1.
      destruct l; [reflexivity | simpl in H1; lia]. }
    exists []. rewrite app_nil_r in H1. simpl in H2. subst. now rewrite app_nil_r.
  - now exists l.
Qed.

Lemma match_url_at (s u q : str) :
  match_url s = Some (u, q) ->
  fixpat_match s = Some (AUrl, {| group0 := u; rfcnum := None; sepnum := None |}, q).
Proof. unfold fixpat_match. now intros ->. Qed.

(** Every place of the line where the URL alternative matches lies
    within a URL piece of the scan, which reaches at least as far. *)
Lemma url_within_scan (n : nat) :
  forall s, length s <= n ->
  forall p u q,
    s = p ++ u ++ q -> match_url (u ++ q) = Some (u, q) ->
    exists A m B,
      scan s = A ++ Matched AUrl m :: B
      /\ length (pieces_text A) <= length p
      /\ length p + length u <= length (pieces_text A) + length (group0 m).
Proof.
  induction n as [| n IH]; intros s Hn p u q Hs Hu.
  - destruct s; [| simpl in Hn; lia].
    destruct p; [| discriminate]. simpl in Hs. rewrite <- Hs in Hu. discriminate.
  - destruct p as [| c p'].
    + simpl in Hs. subst s.
      exists [], {| group0 := u; rfcnum := None; sepnum := None |}, (scan q).
      split; [| simpl; lia]. apply scan_match. now apply match_url_at.
    + remember (c :: p') as P eqn:HP.
      assert (P <> []) as HPne by (subst P; discriminate).
      destruct (fixpat_match s) as [[[a m] rest] |] eqn:Hm.
      * destruct (fixpat_match_text _ _ _ _ Hm) as [Hg Hne].
        rewrite (scan_match _ _ _ _ Hm).
        assert (length s = length (group0 m) + length rest) as Hlen
          by (rewrite Hg at 1; apply length_app).
        assert (0 < length (group0 m)) as Hpos
          by (destruct (group0 m); [congruence | simpl; lia]).
        destruct (le_lt_dec (length (group0 m)) (length P)) as [Hle | Hlt].
        -- (* the match ends before the place: go on in the rest *)
           rewrite Hg in Hs.
           destruct (split_at_leq _ _ _ _ Hs Hle) as [l [Hp Hrest]].
           destruct (IH rest ltac:(lia) l u q Hrest Hu) as [A [m' [B [Hsc [H1 H2]]]]].
           exists (Matched a m :: A), m', B. rewrite Hsc.
           split; [reflexivity |].
           assert (length P = length (group0 m) + length l) as HlP
             by (rewrite Hp; apply length_app).
           assert (length (pieces_text (Matched a m :: A))
                   = length (group0 m) + length (pieces_text A)) as HlA
             by (unfold pieces_text; simpl; apply length_app).
           lia.
        -- (* the place is inside the match *)
           rewrite Hg in Hs. symmetry in Hs.
           destruct (split_at_leq _ _ _ _ Hs ltac:(lia)) as [l [Hp Hrest]].
           assert (l <> []) as Hl.
           { intros ->. rewrite app_nil_r in Hp. rewrite Hp in Hlt. lia. }
           rewrite Hrest in Hu.
           pose proof (fixpat_match_inv _ _ _ _ Hm) as Hinv.
           destruct a.
           ++ destruct (url_inside_url _ _ _ _ _ _ _ Hinv Hp HPne Hl Hu) as [<- _].
              exists [], m, (scan rest). split; [reflexivity |].
              rewrite Hp, length_app. simpl. lia.
           ++ destruct Hinv as [_ Hinv]. exfalso.
              apply (match_url_scheme _ _ _ Hu).
              exact (sepfile_no_scheme_inside _ _ _ _ _ Hinv Hp Hl).
           ++ destruct Hinv as [_ [_ [d [Hinv _]]]]. exfalso.
              apply (match_url_scheme _ _ _ Hu).
              exact (inert_suffix_no_scheme _ _ _ _ (rfc_inert _ _ _ _ Hinv) Hp Hl).
           ++ destruct Hinv as [_ [_ [_ [d [Hinv _]]]]]. exfalso.
              apply (match_url_scheme _ _ _ Hu).
              exact (inert_suffix_no_scheme _ _ _ _ (sep_inert _ _ _ _ Hinv) Hp Hl).
           ++ destruct Hinv as [_ [_ [_ [_ [c0 [_ [Hc0 _]]]]]]].
              rewrite Hc0 in Hlt. simpl in Hlt.
              destruct P; [congruence | simpl in Hlt; lia].
      * subst s P. change ((c :: p') ++ u ++ q) with (c :: (p' ++ u ++ q)) in *.
        rewrite (scan_nomatch _ _ Hm).
        destruct (IH (p' ++ u ++ q) ltac:(simpl in Hn; lia) p' u q eq_refl Hu)
          as [A [m' [B [Hsc [H1 H2]]]]].
        exists (Unmatched c :: A), m', B. rewrite Hsc.
        split; [reflexivity |]. unfold pieces_text in *. simpl. lia.
Qed.

(** A URL cannot start at a character of a cross-reference match: where
    the two overlap, the URL starts first. *)
Lemma url_starts_before_xref (s p u q p' x d q' : str) :
  s = p ++ u ++ q -> match_url (u ++ q) = Some (u, q) ->
  s = p' ++ x ++ q' ->
  match_rfc (x ++ q') = Some (x, d, q') \/ match_sep (x ++ q') = Some (x, d, q') ->
  length p < length p' + length x ->
  length p < length p' .
Proof.
  intros Hs Hu Hs' Hx Hov.
  destruct (le_lt_dec (length p') (length p)) as [Hle | Hlt]; [| exact Hlt].
  exfalso. rewrite Hs in Hs'. symmetry in Hs'.
  destruct (split_at_leq _ _ _ _ Hs' Hle) as [l [Hp Hrest]].
  assert (length l < length x) as Hl by (rewrite Hp, length_app in Hov; lia).
  symmetry in Hrest.
  destruct (split_at_leq _ _ _ _ Hrest ltac:(lia)) as [l2 [Hx2 Hrest2]].
  assert (l2 <> []) as Hne.
  { intros ->. rewrite app_nil_r in Hx2. rewrite Hx2 in Hl. lia. }
  apply (match_url_scheme _ _ _ Hu). rewrite Hrest2.
  assert (forallb inert x = true) as Hi
    by (destruct Hx as [Hx | Hx]; [exact (rfc_inert _ _ _ _ Hx) | exact (sep_inert _ _ _ _ Hx)]).
  exact (inert_suffix_no_scheme _ _ _ _ Hi Hx2 Hne).
Qed.

(** No piece of a scan starts strictly inside another piece. *)
Lemma no_piece_starts_inside (ps A B A' B' : list piece) (pc pc' : piece) (k : nat) :
  ps = A ++ pc :: B -> ps = A' ++ pc' :: B' ->
  length (pieces_text A) < k ->
  k < length (pieces_text A) + length (piece_text pc) ->
  length (pieces_text A') <> k.
Proof.
  intros H H' H1 H2. rewrite H in H'.
  assert (forall X Y, length (pieces_text (X ++ Y))
                      = length (pieces_text X) + length (pieces_text Y)) as Happ.
  { intros X Y. unfold pieces_text. now rewrite map_app, concat_app, length_app. }
  apply app_eq_app in H' as [l [[Ha Hb] | [Ha Hb]]].
  - (* A' is a prefix of A *)
    rewrite Ha, Happ in H1. lia.
  - (* A is a prefix of A' *)
    destruct l as [| y l].
    + rewrite app_nil_r in Ha. subst A'. lia.
    + simpl in Hb. injection Hb as <- Hb.
      rewrite Ha, Happ.
      change (pc :: l) with ([pc] ++ l). rewrite Happ.
      unfold pieces_text at 2. simpl. rewrite app_nil_r. lia.
Qed.

(** ** The rendering of plain text and of a URL *)

Lemma startswith_short (s p : str) : length s < length p -> startswith s p = false.
Proof.
  unfold startswith. revert s.
  induction p as [| x p IH]; intros [| y s] H; simpl in *; try lia; trivial.
  destruct (Ascii.eqb x y); trivial. apply IH. lia.
Qed.

(** A single character is escaped and nothing more. *)
Lemma fixanchor_char (E : env) (cur : str) (m : rmatch) (c : ascii) :
  group0 m = [c] -> fixanchor E cur m = ret (escape [c]).
Proof.
  intro H. unfold fixanchor. rewrite H.
  rewrite (startswith_short [c] "http:"), (startswith_short [c] "https:"),
    (startswith_short [c] "ftp:"), (startswith_short [c] "sep-"),
    (startswith_short [c] "SEP"), (startswith_short [c] "RFC")
    by (simpl; lia).
  cbn [orb andb]. rewrite bind_ret_l. reflexivity.
Qed.

Lemma dotchar_false (c : ascii) : dotchar c = false -> c = newline.
Proof.
  unfold dotchar. intro H. apply negb_false_iff in H. now apply Ascii.eqb_eq.
Qed.

(** Plain text is escaped character by character. *)
Lemma render_plain (E : env) (cur : str) (a f : str) :
  plain_text a f = true ->
  render_pieces E cur (scan (a ++ f))
  = (rest <- render_pieces E cur (scan f) ;; ret (escape a ++ rest)).
Proof.
  induction a as [| c t IH]; intro H.
  - simpl. apply M_ext; rewrite ?output_bind, ?errors_bind, ?status_bind;
      destruct (status (render_pieces E cur (scan f))); simpl; now rewrite ?app_nil_r.
  - simpl in H. apply andb_true_iff in H as [Hc Ht]. specialize (IH Ht).
    unfold single_char_here in Hc. change ((c :: t) ++ f) with (c :: (t ++ f)).
    destruct (fixpat_match (c :: t ++ f)) as [[[al m] rest] |] eqn:Hm.
    + destruct al; try discriminate.
      rewrite (scan_match _ _ _ _ Hm).
      destruct (fixpat_match_inv _ _ _ _ Hm) as [_ [_ [_ [_ [c' [Hs [Hg _]]]]]]].
      injection Hs as <- <-. cbn [render_pieces].
      rewrite (fixanchor_char E cur m c Hg), bind_ret_l, IH, bind_assoc.
      apply M_ext; rewrite ?output_bind, ?errors_bind, ?status_bind;
        destruct (status (render_pieces E cur (scan f))); trivial;
        rewrite ?status_bind, ?status_ret; trivial.
      unfold escape. cbn [flat_map]. now rewrite app_nil_r, <- app_assoc.
    + rewrite (scan_nomatch _ _ Hm). cbn [render_pieces]. rewrite IH, bind_assoc.
      assert (c = newline) as ->.
      { unfold fixpat_match in Hm.
        destruct (match_url (c :: t ++ f)) as [[? ?] |]; [discriminate |].
        destruct (match_sepfile (c :: t ++ f)) as [[? ?] |]; [discriminate |].
        destruct (match_rfc (c :: t ++ f)) as [[[? ?] ?] |]; [discriminate |].
        destruct (match_sep (c :: t ++ f)) as [[[? ?] ?] |]; [discriminate |].
        destruct (dotchar c) eqn:Hd; [discriminate |]. now apply dotchar_false. }
      apply M_ext; rewrite ?output_bind, ?errors_bind, ?status_bind;
        destruct (status (render_pieces E cur (scan f))); trivial;
        rewrite ?status_bind, ?status_ret; trivial.
Qed.

Lemma drop_while_spec (p : ascii -> bool) (l : str) :
  exists l1, l = l1 ++ drop_while p l /\ forallb p l1 = true /\ stops p (drop_while p l).
Proof.
  induction l as [| c l [l1 [H1 [H2 H3]]]]; simpl.
  - exists []. repeat split.
  - destruct (p c) eqn:Hc.
    + exists (c :: l1). repeat split; trivial.
      * simpl. now f_equal.
      * simpl. now rewrite Hc.
    + exists []. repeat split. simpl. exact Hc.
Qed.

Lemma forallb_rev (p : ascii -> bool) (l : str) :
  forallb p l = true -> forallb p (rev l) = true.
Proof.
  rewrite !forallb_forall. intros H x Hx. apply H. now apply in_rev.
Qed.

(** What [fixanchor] strips from a URL is a tail of punctuation, and what
    is left does not end with punctuation. *)
Lemma strip_punct_spec (u : str) :
  (exists tail, u = strip_punct u ++ tail /\ forallb punct tail = true)
  /\ stops punct (rev (strip_punct u)).
Proof.
  unfold strip_punct.
  destruct (drop_while_spec punct (rev u)) as [l1 [H1 [H2 H3]]]. split.
  - exists (rev l1). split; [| now apply forallb_rev].
    rewrite <- rev_app_distr, <- H1. now rewrite rev_involutive.
  - now rewrite rev_involutive.
Qed.

Lemma drop_while_keeps (p : ascii -> bool) (l : str) (c : ascii) :
  p c = false -> drop_while p (l ++ [c]) <> [].
Proof.
  intro Hc. induction l as [| x l IH]; simpl.
  - rewrite Hc. discriminate.
  - destruct (p x); [exact IH | discriminate].
Qed.

Lemma strip_punct_nonempty (c : ascii) (t : str) :
  punct c = false -> strip_punct (c :: t) <> [].
Proof.
  intros Hc H. unfold strip_punct in H. simpl rev in H.
  apply (drop_while_keeps punct (rev t) c Hc).
  apply (f_equal (@rev ascii)) in H. now rewrite rev_involutive in H.
Qed.

(** A URL match is linked to itself less its trailing punctuation. *)
Lemma fixanchor_url (E : env) (cur s u rest : str) :
  match_url s = Some (u, rest) ->
  fixanchor E cur (plain_match u) = ret (anchor (escape (strip_punct u)) (escape u)).
Proof.
  intro H. destruct (match_url_spec _ _ _ H) as [_ [sch [run [Hu [Hsch _]]]]].
  unfold fixanchor. cbn [group0 plain_match].
  assert (startswith u "http:" || startswith u "https:" || startswith u "ftp:" = true)
    as ->.
  { rewrite Hu. destruct Hsch as [-> | [-> | ->]]; reflexivity. }
  rewrite bind_ret_l.
  destruct (strip_punct u) as [| c l] eqn:Hs; trivial.
  exfalso. rewrite Hu in Hs.
  destruct Hsch as [-> | [-> | ->]].
  - exact (strip_punct_nonempty "h" ("ttps:" ++ run) eq_refl Hs).
  - exact (strip_punct_nonempty "h" ("ttp:" ++ run) eq_refl Hs).
  - exact (strip_punct_nonempty "f" ("tp:" ++ run) eq_refl Hs).
Qed.

(** [fixpat.sub] over plain text, a URL and plain text. *)
Lemma sub_fixpat_url (E : env) (cur a u b : str) :
  plain_text a (u ++ b) = true -> plain_text b [] = true ->
  match_url (u ++ b) = Some (u, b) ->
  sub_fixpat E cur (a ++ u ++ b)
  = ret (escape a ++ anchor (escape (strip_punct u)) (escape u) ++ escape b).
Proof.
  intros Ha Hb Hu. unfold sub_fixpat.
  rewrite (render_plain E cur a (u ++ b) Ha).
  rewrite (scan_match _ _ _ _ (match_url_at _ _ _ Hu)). cbn [render_pieces].
  fold (plain_match u). rewrite (fixanchor_url E cur _ _ _ Hu), bind_ret_l.
  pose proof (render_plain E cur b [] Hb) as Hr. rewrite app_nil_r in Hr.
  rewrite Hr. change (scan []) with (@nil piece). cbn [render_pieces].
  rewrite !bind_ret_l. now rewrite app_nil_r.
Qed.

(** ** Lines of preformatted text in the body loop *)

Lemma lstrip_all_space (s : str) : lstrip s = [] -> forallb isspace s = true.
Proof.
  induction s as [| c s IH]; simpl; trivial.
  destruct (isspace c); [exact IH | discriminate].
Qed.

Lemma lstrip_stops (s : str) : stops isspace (lstrip s).
Proof.
  induction s as [| c s IH]; simpl; trivial.
  destruct (isspace c) eqn:Hc; [exact IH | exact Hc].
Qed.

Lemma strip_all_space (s : str) : strip s = [] -> forallb isspace s = true.
Proof.
  unfold strip, rstrip. intro H.
  apply (f_equal (@rev ascii)) in H. rewrite rev_involutive in H. simpl in H.
  apply lstrip_all_space, forallb_rev in H. rewrite rev_involutive in H.
  apply lstrip_all_space.
  pose proof (lstrip_stops s) as Hs.
  destruct (lstrip s) as [| c l]; trivial.
  simpl in H, Hs. rewrite Hs in H. discriminate.
Qed.

(** A line that holds a character that is not whitespace is not blank. *)
Lemma strip_nonempty (s : str) (c : ascii) :
  In c s -> isspace c = false -> is_nonempty (strip s) = true.
Proof.
  intros Hin Hc. destruct (strip s) eqn:Hs; trivial.
  apply strip_all_space in Hs. rewrite forallb_forall in Hs.
  rewrite (Hs c Hin) in Hc. discriminate.
Qed.

(** A line of the body that starts with whitespace other than a form
    feed, is not blank and is not the marker of the local variables is
    preformatted text: the index document may treat it as a summary line
    or an address line, and otherwise it goes through the combined
    pattern. *)
Lemma print_body_preformatted
    (E : env) (inpath base sepno : str) (c0 : ascii) (l : str) (rest : list str)
    (need_pre : bool) :
  isspace c0 = true -> c0 <> formfeed ->
  streq (strip (c0 :: l)) LOCALVARS = false ->
  is_nonempty (strip (c0 :: l)) = true ->
  print_body E inpath base sepno ((c0 :: l) :: rest) need_pre
  = match (if streq base INDEX_NAME then index_line E sepno (c0 :: l) need_pre
           else None) with
    | Some m => m ;;; print_body E inpath base sepno rest false
    | None => text_line E inpath (c0 :: l) need_pre ;;;
              print_body E inpath base sepno rest false
    end.
Proof.
  intros Hsp Hff Hlv Hne. cbn [print_body].
  apply Ascii.eqb_neq in Hff. rewrite Hff, Hlv, Hsp, Hne. reflexivity.
Qed.

(** A line that starts in the first column is a heading. *)
Lemma print_body_heading
    (E : env) (inpath base sepno : str) (c0 : ascii) (l : str) (rest : list str)
    (need_pre : bool) :
  isspace c0 = false ->
  streq (strip (c0 :: l)) LOCALVARS = false ->
  print_body E inpath base sepno ((c0 :: l) :: rest) need_pre
  = ((if negb need_pre then print "</pre>" else ret tt) ;;;
     print ("<h3>" ++ strip (c0 :: l) ++ "</h3>") ;;;
     print_body E inpath base sepno rest true).
Proof.
  intros Hsp Hlv. cbn [print_body].
  assert (Ascii.eqb c0 formfeed = false) as ->.
  { apply Ascii.eqb_neq. intros ->. discriminate. }
  rewrite Hlv, Hsp. reflexivity.
Qed.

Lemma match_url_head (s u q : str) :
  match_url s = Some (u, q) ->
  exists c t, u = c :: t /\ isspace c = false /\ punct c = false.
Proof.
  intro H. destruct (match_url_spec _ _ _ H) as [_ [sch [run [-> [Hsch _]]]]].
  destruct Hsch as [-> | [-> | ->]]; eexists; eexists; repeat split.
Qed.

(** ** The substitution, piece by piece *)

(** Rearrangements of three computations that return texts. *)
Lemma bind_ret_r {A} (m : M A) : (a <- m ;; ret a) = m.
Proof.
  destruct m as [[o e] [a | x]]; unfold bind, ret, log_app, log_nil; cbn [out err];
    now rewrite ?app_nil_r.
Qed.

Lemma bind_cons_app (c : ascii) (R RB : M str) :
  (b <- (a <- R ;; b <- RB ;; ret (a ++ b)) ;; ret (c :: b))
  = (a <- (y <- R ;; ret (c :: y)) ;; b <- RB ;; ret (a ++ b)).
Proof.
  destruct R as [[o1 e1] [y | x1]], RB as [[o2 e2] [z | x2]];
    unfold bind, ret, log_app, log_nil; cbn [out err app];
    now rewrite ?app_nil_r.
Qed.

Lemma bind_app_app (F R RB : M str) :
  (x <- F ;; b <- (a <- R ;; b <- RB ;; ret (a ++ b)) ;; ret (x ++ b))
  = (a <- (x <- F ;; y <- R ;; ret (x ++ y)) ;; b <- RB ;; ret (a ++ b)).
Proof.
  destruct F as [[o0 e0] [x | x0]], R as [[o1 e1] [y | x1]], RB as [[o2 e2] [z | x2]];
    unfold bind, ret, log_app, log_nil; cbn [out err];
    now rewrite ?app_nil_r, ?app_assoc.
Qed.

Lemma bind_app_mid (l : str) (RA RB : M str) :
  (a <- RA ;; b <- (x <- ret l ;; y <- RB ;; ret (x ++ y)) ;; ret (a ++ b))
  = (ra <- RA ;; rb <- RB ;; ret (ra ++ l ++ rb)).
Proof.
  destruct RA as [[o1 e1] [y | x1]], RB as [[o2 e2] [z | x2]];
    unfold bind, ret, log_app, log_nil; cbn [out err app];
    now rewrite ?app_nil_r.
Qed.

(** The pieces are rendered one after the other. *)
Lemma render_pieces_app (E : env) (cur : str) (A B : list piece) :
  render_pieces E cur (A ++ B)
  = (a <- render_pieces E cur A ;; b <- render_pieces E cur B ;; ret (a ++ b)).
Proof.
  induction A as [| [a m | c] r IH]; cbn [app render_pieces].
  - rewrite bind_ret_l. symmetry. exact (bind_ret_r (render_pieces E cur B)).
  - rewrite IH.
    exact (bind_app_app (fixanchor E cur m) (render_pieces E cur r)
             (render_pieces E cur B)).
  - rewrite IH.
    exact (bind_cons_app c (render_pieces E cur r) (render_pieces E cur B)).
Qed.

(** At a match the substitution calls [fixanchor] on it and goes on in
    what is left of the line; what [fixanchor] returns is not read again. *)
Lemma sub_fixpat_match (E : env) (cur s : str) (a : alt) (m : rmatch) (rest : str) :
  fixpat_match s = Some (a, m, rest) ->
  sub_fixpat E cur s
  = (x <- fixanchor E cur m ;; y <- sub_fixpat E cur rest ;; ret (x ++ y)).
Proof. intro H. unfold sub_fixpat. now rewrite (scan_match _ _ _ _ H). Qed.

Lemma sub_fixpat_nomatch (E : env) (cur : str) (c : ascii) (t : str) :
  fixpat_match (c :: t) = None ->
  sub_fixpat E cur (c :: t) = (y <- sub_fixpat E cur t ;; ret (c :: y)).
Proof. intro H. unfold sub_fixpat. now rewrite (scan_nomatch _ _ H). Qed.

Lemma pieces_text_app (X Y : list piece) :
  pieces_text (X ++ Y) = pieces_text X ++ pieces_text Y.
Proof. unfold pieces_text. now rewrite map_app, concat_app. Qed.

(** A piece of the scan is the match of the pattern at its place. *)
Lemma scan_piece_match (A : list piece) :
  forall s a m B,
    scan s = A ++ Matched a m :: B ->
    s = pieces_text A ++ group0 m ++ pieces_text B
    /\ fixpat_match (group0 m ++ pieces_text B) = Some (a, m, pieces_text B).
Proof.
  induction A as [| pc A IH]; intros s a m B Hs.
  - cbn [app] in Hs. destruct s as [| c t]; [discriminate |].
    destruct (fixpat_match (c :: t)) as [[[a' m'] rest] |] eqn:Hm.
    + rewrite (scan_match _ _ _ _ Hm) in Hs. injection Hs as <- <- <-.
      destruct (fixpat_match_text _ _ _ _ Hm) as [Ht _].
      rewrite scan_covers. rewrite <- Ht. split; [reflexivity | exact Hm].
    + rewrite (scan_nomatch _ _ Hm) in Hs. discriminate.
  - cbn [app] in Hs. destruct s as [| c t]; [discriminate |].
    destruct (fixpat_match (c :: t)) as [[[a' m'] rest] |] eqn:Hm.
    + rewrite (scan_match _ _ _ _ Hm) in Hs. injection Hs as <- Hrest.
      destruct (fixpat_match_text _ _ _ _ Hm) as [Ht _].
      destruct (IH rest a m B Hrest) as [H1 H2]. split; [| exact H2].
      change (pieces_text (Matched a' m' :: A)) with (group0 m' ++ pieces_text A).
      rewrite Ht, H1 at 1. now rewrite <- app_assoc.
    + rewrite (scan_nomatch _ _ Hm) in Hs. injection Hs as <- Hrest.
      destruct (IH t a m B Hrest) as [H1 H2]. split; [| exact H2].
      change (pieces_text (Unmatched c :: A)) with (c :: pieces_text A).
      cbn [app]. now rewrite H1 at 1.
Qed.

(** A match of the URL alternative is linked to itself less its trailing
    punctuation. *)
Lemma fixanchor_url_piece (E : env) (cur s : str) (m : rmatch) (rest : str) :
  fixpat_match s = Some (AUrl, m, rest) ->
  fixanchor E cur m
  = ret (anchor (escape (strip_punct (group0 m))) (escape (group0 m))).
Proof.
  intro H. pose proof (fixpat_match_inv _ _ _ _ H) as Hu. cbn in Hu.
  assert (m = plain_match (group0 m)) as Hm.
  { unfold fixpat_match in H. rewrite Hu in H. now injection H as <-. }
  rewrite Hm at 1. exact (fixanchor_url E cur s (group0 m) rest Hu).
Qed.

(** The link of a URL piece stands in what the substitution returns
    between what it returns for the pieces before and after. *)
Lemma sub_fixpat_url_piece (E : env) (cur s : str) (A : list piece) (m : rmatch)
    (B : list piece) :
  scan s = A ++ Matched AUrl m :: B ->
  sub_fixpat E cur s
  = (ra <- render_pieces E cur A ;;
     rb <- render_pieces E cur B ;;
     ret (ra ++ anchor (escape (strip_punct (group0 m))) (escape (group0 m)) ++ rb)).
Proof.
  intro Hs. destruct (scan_piece_match A s AUrl m B Hs) as [_ Hm].
  unfold sub_fixpat. rewrite Hs, render_pieces_app. cbn [render_pieces].
  rewrite (fixanchor_url_piece E cur _ m _ Hm).
  exact (bind_app_mid _ (render_pieces E cur A) (render_pieces E cur B)).
Qed.

(** C3.  The combined pattern tries its alternatives in the order URL,
    file name, [RFC] reference, [SEP] reference, single character, and the
    first that matches at the scan position wins.  The substitution is one
    pass from left to right: at a position where the pattern matches, the
    match is a prefix of what is left of the line and is not empty, it is
    replaced by what [fixanchor] returns for it, and the substitution goes
    on right after the match, never reading again what it has put; a
    character the pattern does not match is copied; and the pieces put
    together are the whole line.  Where a URL match and a cross-reference
    match overlap in a line, the URL wins: the URL match lies within a URL
    piece of the scan, no piece starts where the cross-reference match
    starts, and what the substitution returns holds the link of that URL
    piece between what it returns for the pieces before and after. *)
Theorem C3_one_pass_ordered_scan (E : env) (cur s : str) :
  (forall t r, match_url s = Some (t, r) ->
      fixpat_match s = Some (AUrl, plain_match t, r))
  /\ (forall t r, match_url s = None -> match_sepfile s = Some (t, r) ->
      fixpat_match s = Some (ASepFile, plain_match t, r))
  /\ (forall t d r, match_url s = None -> match_sepfile s = None ->
      match_rfc s = Some (t, d, r) ->
      fixpat_match s
      = Some (ARfc, {| group0 := t; rfcnum := Some d; sepnum := None |}, r))
  /\ (forall t d r, match_url s = None -> match_sepfile s = None ->
      match_rfc s = None -> match_sep s = Some (t, d, r) ->
      fixpat_match s
      = Some (ASep, {| group0 := t; rfcnum := None; sepnum := Some d |}, r))
  /\ (forall c r, s = c :: r -> match_url s = None -> match_sepfile s = None ->
      match_rfc s = None -> match_sep s = None ->
      fixpat_match s = if dotchar c then Some (AChar, plain_match [c], r) else None)
  /\ (forall a m rest, fixpat_match s = Some (a, m, rest) ->
      s = group0 m ++ rest /\ group0 m <> []
      /\ sub_fixpat E cur s
         = (x <- fixanchor E cur m ;; y <- sub_fixpat E cur rest ;; ret (x ++ y)))
  /\ (forall c t, s = c :: t -> fixpat_match s = None ->
      sub_fixpat E cur s = (y <- sub_fixpat E cur t ;; ret (c :: y)))
  /\ (s = [] -> sub_fixpat E cur s = ret [])
  /\ pieces_text (scan s) = s
  /\ sub_fixpat E cur s = render_pieces E cur (scan s)
  /\ (forall p u q p' x q',
      s = p ++ u ++ q -> match_url (u ++ q) = Some (u, q) ->
      s = p' ++ x ++ q' -> xref_match (x ++ q') x q' ->
      length p < length p' + length x -> length p' < length p + length u ->
      exists A m B,
        scan s = A ++ Matched AUrl m :: B
        /\ length (pieces_text A) <= length p
        /\ length p + length u <= length (pieces_text A) + length (group0 m)
        /\ (forall A' pc B',
              scan s = A' ++ pc :: B' -> length (pieces_text A') <> length p')
        /\ sub_fixpat E cur s
           = (ra <- render_pieces E cur A ;;
              rb <- render_pieces E cur B ;;
              ret (ra ++ anchor (escape (strip_punct (group0 m))) (escape (group0 m))
                   ++ rb))).
Proof.
  split; [intros t r H; unfold fixpat_match; now rewrite H |].
  split; [intros t r H1 H2; unfold fixpat_match; now rewrite H1, H2 |].
  split; [intros t d r H1 H2 H3; unfold fixpat_match; now rewrite H1, H2, H3 |].
  split; [intros t d r H1 H2 H3 H4; unfold fixpat_match; now rewrite H1, H2, H3, H4 |].
  split.
  { intros c r -> H1 H2 H3 H4. unfold fixpat_match. rewrite H1, H2, H3, H4.
    destruct (dotchar c); reflexivity. }
  split.
  { intros a m rest H. destruct (fixpat_match_text _ _ _ _ H) as [Hs Hne].
    split; [exact Hs |]. split; [exact Hne |].
    exact (sub_fixpat_match E cur s a m rest H). }
  split; [intros c t -> H; now apply sub_fixpat_nomatch |].
  split; [now intros -> |].
  split; [apply scan_covers |].
  split; [reflexivity |].
  intros p u q p' x q' Hs Hu Hs' [d Hx] Hov1 Hov2.
  pose proof (url_starts_before_xref s p u q p' x d q' Hs Hu Hs' Hx Hov1) as Hlt.
  destruct (url_within_scan (length s) s (le_n _) p u q Hs Hu)
    as [A [m [B [Hsc [H1 H2]]]]].
  exists A, m, B.
  split; [exact Hsc |]. split; [exact H1 |]. split; [exact H2 |]. split.
  - intros A' pc B' Hsc'.
    apply (no_piece_starts_inside (scan s) A B A' B' (Matched AUrl m) pc); trivial.
    + lia.
    + simpl. lia.
  - now apply sub_fixpat_url_piece.
Qed.

(** In [see http://a/SEP 1] the URL [http://a/SEP] and the reference
    [SEP 1] overlap: the URL is linked, the reference is not. *)
Lemma C3_witness :
  match_url ("http://a/SEP" ++ " 1") = Some ("http://a/SEP" : str, " 1" : str)
  /\ xref_match ("SEP 1" ++ []) "SEP 1" []
  /\ map piece_text (scan "see http://a/SEP 1")
     = [ "s" : str; "e" : str; "e" : str; " " : str; "http://a/SEP" : str;
         " " : str; "1" : str ]
  /\ sub_fixpat example_env "sep-0042.txt" "see http://a/SEP 1"
     = ret ("see " ++ lit "<a href=`http://a/SEP`>http://a/SEP</a>" ++ " 1")
  /\ exists A m B,
       scan "see http://a/SEP 1" = A ++ Matched AUrl m :: B
       /\ length (pieces_text A) <= 4
       /\ 4 + 12 <= length (pieces_text A) + length (group0 m)
       /\ (forall A' pc B',
            scan "see http://a/SEP 1" = A' ++ pc :: B' ->
            length (pieces_text A') <> 13)
       /\ sub_fixpat example_env "sep-0042.txt" "see http://a/SEP 1"
          = (ra <- render_pieces example_env "sep-0042.txt" A ;;
             rb <- render_pieces example_env "sep-0042.txt" B ;;
             ret (ra ++ anchor (escape (strip_punct (group0 m))) (escape (group0 m))
                  ++ rb)).
Proof.
  assert (xref_match ("SEP 1" ++ []) "SEP 1" []) as Hx
    by (exists ("1" : str); right; reflexivity).
  split; [reflexivity |]. split; [exact Hx |]. split; [reflexivity |].
  split; [reflexivity |].
  exact (proj2 (proj2 (proj2 (proj2 (proj2 (proj2 (proj2 (proj2 (proj2 (proj2
           (C3_one_pass_ordered_scan example_env "sep-0042.txt"
              "see http://a/SEP 1"))))))))))
           "see " "http://a/SEP" " 1" "see http://a/" "SEP 1" []
           eq_refl eq_refl eq_refl Hx
           ltac:(simpl; lia) ltac:(simpl; lia)).
Defined.

(** ** C4: the link of a URL in a line of preformatted text *)

(** C4, as amended.  In a line that goes through the combined pattern,
    every URL (http, https or ftp) that the pattern matches becomes a
    link whose target is the match less all the punctuation at its end, a
    target that is never empty, and whose text is the whole match; it
    stands between what the substitution returns for the pieces before it
    and after it, and every place of the line where a URL starts lies
    within such a match.  Where the text before and after the URL holds
    nothing else for the pattern to take, it is HTML-escaped and
    otherwise unchanged.  [fixfile] renders a body line this way when the
    line is preformatted text, that is, starts with whitespace other than
    a form feed and is not the marker of the local variables, and is not
    a summary or address line of the index document; a line that starts
    in the first column is a heading and is written without any link. *)
Theorem C4_url_linked_in_preformatted_text (E : env) (cur s : str) :
  (forall A m B,
     scan s = A ++ Matched AUrl m :: B ->
     s = pieces_text A ++ group0 m ++ pieces_text B
     /\ match_url (group0 m ++ pieces_text B) = Some (group0 m, pieces_text B)
     /\ sub_fixpat E cur s
        = (ra <- render_pieces E cur A ;;
           rb <- render_pieces E cur B ;;
           ret (ra ++ anchor (escape (strip_punct (group0 m))) (escape (group0 m))
                ++ rb))
     /\ (exists tail,
           group0 m = strip_punct (group0 m) ++ tail /\ forallb punct tail = true)
     /\ stops punct (rev (strip_punct (group0 m)))
     /\ strip_punct (group0 m) <> [])
  /\ (forall p u q,
        s = p ++ u ++ q -> match_url (u ++ q) = Some (u, q) ->
        exists A m B,
          scan s = A ++ Matched AUrl m :: B
          /\ length (pieces_text A) <= length p
          /\ length p + length u <= length (pieces_text A) + length (group0 m))
  /\ (forall a u b,
        s = a ++ u ++ b ->
        plain_text a (u ++ b) = true -> plain_text b [] = true ->
        match_url (u ++ b) = Some (u, b) ->
        sub_fixpat E cur s
        = ret (escape a ++ anchor (escape (strip_punct u)) (escape u) ++ escape b))
  /\ (forall base sepno c0 l rest need_pre p u q,
        s = c0 :: l ->
        s = p ++ u ++ q -> match_url (u ++ q) = Some (u, q) ->
        isspace c0 = true -> c0 <> formfeed ->
        streq (strip s) LOCALVARS = false ->
        (if streq base INDEX_NAME then index_line E sepno s need_pre else None)
        = None ->
        print_body E cur base sepno (s :: rest) need_pre
        = (text_line E cur s need_pre ;;;
           print_body E cur base sepno rest false)
        /\ text_line E cur s need_pre
           = (t <- sub_fixpat E cur s ;; open_pre need_pre ;;; write t))
  /\ (forall base sepno c0 l rest need_pre,
        s = c0 :: l ->
        isspace c0 = false ->
        streq (strip s) LOCALVARS = false ->
        print_body E cur base sepno (s :: rest) need_pre
        = ((if negb need_pre then print "</pre>" else ret tt) ;;;
           print ("<h3>" ++ strip s ++ "</h3>") ;;;
           print_body E cur base sepno rest true)).
Proof.
  split.
  { intros A m B Hsc.
    destruct (scan_piece_match A s AUrl m B Hsc) as [Hs Hm].
    pose proof (fixpat_match_inv _ _ _ _ Hm) as Hu. cbn in Hu.
    destruct (strip_punct_spec (group0 m)) as [Htail Hlast].
    destruct (match_url_head _ _ _ Hu) as [c [t [Hc [_ Hpu]]]].
    split; [exact Hs |]. split; [exact Hu |].
    split; [now apply sub_fixpat_url_piece |].
    split; [exact Htail |]. split; [exact Hlast |].
    rewrite Hc. now apply strip_punct_nonempty. }
  split.
  { intros p u q Hs Hu. exact (url_within_scan (length s) s (le_n _) p u q Hs Hu). }
  split.
  { intros a u b -> Ha Hb Hu. now apply sub_fixpat_url. }
  split.
  { intros base sepno c0 l rest need_pre p u q Hline Hs Hu Hc0 Hff Hlv Hidx.
    destruct (match_url_head _ _ _ Hu) as [c [t [Hc [Hsp _]]]].
    assert (is_nonempty (strip s) = true) as Hne.
    { apply (strip_nonempty _ c); trivial. rewrite Hs, Hc.
      apply in_or_app; right. now left. }
    clear Hs. subst s. split; [| reflexivity].
    etransitivity;
      [exact (print_body_preformatted E cur base sepno c0 l rest need_pre
                Hc0 Hff Hlv Hne) |].
    etransitivity;
      [exact (f_equal (fun o => match o with
                                | Some m => m ;;; print_body E cur base sepno rest false
                                | None => text_line E cur (c0 :: l) need_pre ;;;
                                          print_body E cur base sepno rest false
                                end) Hidx) |].
    reflexivity. }
  intros base sepno c0 l rest need_pre -> Hc0 Hlv.
  now apply print_body_heading.
Qed.

(** The example of the specification, the line indented; and a line with
    two URLs and a cross-reference. *)
Lemma C4_witness :
  sub_fixpat example_env "sep-0042.txt" (" See " ++ "http://example.com/page." ++ nl)
  = ret (" See " ++ lit "<a href=`http://example.com/page`>http://example.com/page.</a>"
         ++ nl)
  /\ sub_fixpat example_env "sep-0042.txt"
       " See http://a.org/x, http://b.org/y. and SEP 1"
     = ret (" See " ++ lit "<a href=`http://a.org/x`>http://a.org/x,</a>" ++ " "
            ++ lit "<a href=`http://b.org/y`>http://b.org/y.</a>" ++ " and "
            ++ lit "<a href=`sep-0001.html`>SEP 1</a>")
  /\ exists A m B,
       scan " See http://a.org/x, http://b.org/y. and SEP 1"
       = A ++ Matched AUrl m :: B
       /\ length (pieces_text A) <= 21
       /\ 21 + 15 <= length (pieces_text A) + length (group0 m)
       /\ sub_fixpat example_env "sep-0042.txt"
            " See http://a.org/x, http://b.org/y. and SEP 1"
          = (ra <- render_pieces example_env "sep-0042.txt" A ;;
             rb <- render_pieces example_env "sep-0042.txt" B ;;
             ret (ra ++ anchor (escape (strip_punct (group0 m))) (escape (group0 m))
                  ++ rb)).
Proof.
  split; [| split].
  - apply (proj1 (proj2 (proj2 (C4_url_linked_in_preformatted_text example_env
                                  "sep-0042.txt"
                                  (" See " ++ "http://example.com/page." ++ nl))))
             " See " "http://example.com/page." nl); reflexivity.
  - vm_compute. reflexivity.
  - destruct (proj1 (proj2 (C4_url_linked_in_preformatted_text example_env
                              "sep-0042.txt"
                              " See http://a.org/x, http://b.org/y. and SEP 1"))
                " See http://a.org/x, " "http://b.org/y." " and SEP 1"
                eq_refl eq_refl) as [A [m [B [Hsc [H1 H2]]]]].
    exists A, m, B. split; [exact Hsc |]. split; [exact H1 |]. split; [exact H2 |].
    exact (proj1 (proj2 (proj2
             (proj1 (C4_url_linked_in_preformatted_text example_env "sep-0042.txt"
                       " See http://a.org/x, http://b.org/y. and SEP 1")
                A m B Hsc)))).
Defined.

(** C4 as stated fails on the example of the specification itself: the
    body line [See http://example.com/page.] starts in the first column,
    so it is written as a heading, and the output holds no link. *)
Lemma C4_counterexample :
  status (fixfile example_env 0 "sep-0042.txt" url_heading) = Done tt
  /\ contains "<h3>See http://example.com/page.</h3>"
       (output (fixfile example_env 0 "sep-0042.txt" url_heading)) = true
  /\ contains (lit "<a href=`http://example.com/page`>")
       (output (fixfile example_env 0 "sep-0042.txt" url_heading)) = false
  /\ contains (lit "<a href=`http://example.com/page`>")
       (output (fixfile example_env 0 "sep-0042.txt" url_text)) = true.
Proof. repeat split; vm_compute; reflexivity. Qed.

(** ** C5: the summary lines of the index *)

Lemma lstrip_spec (s : str) :
  exists w, s = w ++ lstrip s /\ forallb isspace w = true.
Proof.
  induction s as [| c s [w [H1 H2]]]; simpl.
  - now exists [].
  - destruct (isspace c) eqn:Hc.
    + exists (c :: w). split; [simpl; now f_equal | simpl; now rewrite Hc].
    + now exists [].
Qed.

Lemma rstrip_spec (s : str) :
  exists w, s = rstrip s ++ w /\ forallb isspace w = true.
Proof.
  unfold rstrip. destruct (lstrip_spec (rev s)) as [w [H1 H2]].
  exists (rev w). split; [| now apply forallb_rev].
  rewrite <- rev_app_distr, <- H1. now rewrite rev_involutive.
Qed.

Lemma lstrip_spaceless (s : str) : spaceless s = true -> lstrip s = s.
Proof.
  destruct s as [| c s]; simpl; trivial. intro H.
  apply andb_true_iff in H as [Hc _]. apply negb_true_iff in Hc. now rewrite Hc.
Qed.

Lemma spaceless_rev (s : str) : spaceless s = true -> spaceless (rev s) = true.
Proof.
  unfold spaceless. rewrite !forallb_forall. intros H x Hx. apply H. now apply in_rev.
Qed.

Lemma strip_spaceless (s : str) : spaceless s = true -> strip s = s.
Proof.
  intro H. unfold strip, rstrip. rewrite (lstrip_spaceless s H).
  rewrite (lstrip_spaceless _ (spaceless_rev s H)). apply rev_involutive.
Qed.

Lemma digit_not_space (c : ascii) : isdigit c = true -> negb (isspace c) = true.
Proof. each_char c; vm_compute; trivial. Qed.

Lemma digit_not_sign (c : ascii) :
  isdigit c = true -> Ascii.eqb c "-" = false /\ Ascii.eqb c "+" = false.
Proof. each_char c; vm_compute; intro H; try discriminate H; now split. Qed.

Lemma digit_not_meta (c : ascii) : isdigit c = true -> negb (metachar c) = true.
Proof. each_char c; vm_compute; trivial. Qed.

Lemma digit_not_backslash (c : ascii) : isdigit c = true -> Ascii.eqb "\" c = false.
Proof. each_char c; vm_compute; intro H; try discriminate H; reflexivity. Qed.

Lemma forallb_impl (p q : ascii -> bool) (s : str) :
  (forall c, p c = true -> q c = true) -> forallb p s = true -> forallb q s = true.
Proof.
  intro Hpq. induction s as [| c s IH]; simpl; trivial.
  intro H. apply andb_true_iff in H as [Hc Hs]. now rewrite (Hpq c Hc), IH.
Qed.

Lemma digits_spaceless (s : str) : forallb isdigit s = true -> spaceless s = true.
Proof. apply forallb_impl. exact digit_not_space. Qed.

(** A string of digits is an integer. *)
Lemma int_digits_total (s : str) :
  forallb isdigit s = true ->
  forall acc prev, s <> [] \/ prev = true -> exists n, int_digits acc prev s = Some n.
Proof.
  induction s as [| c s IH]; intros H acc prev Hne; simpl.
  - destruct Hne as [Hne | ->]; [congruence | now exists acc].
  - simpl in H. apply andb_true_iff in H as [Hc Hs]. rewrite Hc.
    apply IH; trivial. now right.
Qed.

Lemma digit_not_int_space (c : ascii) : isdigit c = true -> int_space c = false.
Proof. each_char c; vm_compute; intro H; try discriminate H; reflexivity. Qed.

(** [int] strips nothing from a string of digits. *)
Lemma int_strip_digits (s : str) : forallb isdigit s = true -> int_strip s = s.
Proof.
  assert (forall t, forallb isdigit t = true -> int_lstrip t = t) as Hl.
  { intros [| c t]; simpl; trivial. intro H. apply andb_true_iff in H as [Hc _].
    now rewrite (digit_not_int_space c Hc). }
  intro H. unfold int_strip.
  rewrite (Hl s H), (Hl _ (forallb_rev _ s H)). apply rev_involutive.
Qed.

Lemma count_digits_length (s : str) :
  forallb isdigit s = true -> count_digits s = N.of_nat (length s).
Proof.
  induction s as [| c s IH]; cbn [forallb count_digits length]; trivial.
  intro H. apply andb_true_iff in H as [Hc Hs]. rewrite Hc, (IH Hs). lia.
Qed.

(** On a string of digits [int] is the reading of the digits, as long as
    they are no more than the limit. *)
Lemma int_of_digit_string (s : str) :
  forallb isdigit s = true -> s <> [] ->
  int s = if (N.of_nat (length s) <=? max_str_digits)%N
          then int_digits 0 false s else None.
Proof.
  intros H Hne. unfold int. rewrite (int_strip_digits s H).
  destruct s as [| c t]; [congruence |].
  pose proof H as H'. cbn [forallb] in H'. apply andb_true_iff in H' as [Hc _].
  destruct (digit_not_sign c Hc) as [-> ->].
  unfold int_literal. now rewrite (count_digits_length _ H).
Qed.

Lemma int_of_digits (s : str) :
  forallb isdigit s = true -> s <> [] ->
  (N.of_nat (length s) <= max_str_digits)%N ->
  exists n, int s = Some n.
Proof.
  intros H Hne Hlen. rewrite (int_of_digit_string s H Hne).
  apply N.leb_le in Hlen. rewrite Hlen.
  apply int_digits_total; trivial. now left.
Qed.

(** More digits than the limit are refused. *)
Lemma int_of_long_digits (s : str) :
  forallb isdigit s = true ->
  (max_str_digits < N.of_nat (length s))%N ->
  int s = None.
Proof.
  intros H Hlen. destruct s as [| c t]; [reflexivity |].
  rewrite (int_of_digit_string _ H) by discriminate.
  apply N.leb_gt in Hlen. now rewrite Hlen.
Qed.

Lemma no_backslash_app (a b : str) :
  no_backslash a -> no_backslash b -> no_backslash (a ++ b).
Proof.
  unfold no_backslash, has_char. intros Ha Hb. now rewrite existsb_app, Ha, Hb.
Qed.

Lemma no_backslash_digits (s : str) : forallb isdigit s = true -> no_backslash s.
Proof.
  unfold no_backslash, has_char.
  induction s as [| c s IH]; cbn [existsb forallb]; trivial.
  intro H. apply andb_true_iff in H as [Hc Hs].
  now rewrite (digit_not_backslash c Hc), IH.
Qed.

Lemma uint_digits (u : Decimal.uint) :
  forallb isdigit (list_ascii_of_string (NilEmpty.string_of_uint u)) = true.
Proof. induction u; simpl; trivial. Qed.

Lemma dec_digits (n : N) : forallb isdigit (dec n) = true.
Proof.
  unfold dec, NilZero.string_of_uint.
  destruct (N.to_uint n) eqn:Hu; try reflexivity; rewrite <- Hu; apply uint_digits.
Qed.

Lemma zfill_digits (w : nat) (s : str) :
  forallb isdigit s = true -> forallb isdigit (zfill w s) = true.
Proof.
  intro H. unfold zfill. rewrite forallb_app, H, andb_true_r.
  induction (w - length s); simpl; trivial.
Qed.

Lemma no_backslash_fmt_0d (w : nat) (z : Z) : no_backslash (fmt_0d w z).
Proof.
  unfold fmt_0d. destruct (z <? 0)%Z.
  - apply no_backslash_app; [reflexivity |].
    apply no_backslash_digits, zfill_digits, dec_digits.
  - apply no_backslash_digits, zfill_digits, dec_digits.
Qed.

Lemma summary_template_literal (n : Z) (tok : str) :
  forallb isdigit tok = true -> literal_template (anchor (SEPURL n) tok) = true.
Proof.
  intro H. unfold literal_template. apply negb_true_iff.
  unfold anchor, SEPURL.
  repeat apply no_backslash_app; try reflexivity.
  - apply no_backslash_fmt_0d.
  - now apply no_backslash_digits.
Qed.

(** A word of a line is a part of the line. *)
Lemma words_from_part (s : str) :
  forall cur w, In w (words_from cur s) -> exists a b, cur ++ s = a ++ w ++ b.
Proof.
  induction s as [| c t IH]; intros cur w; simpl.
  - destruct cur as [| x cur]; [intros [] |].
    intros [<- | []]. exists [], []. now rewrite app_nil_r.
  - destruct (isspace c).
    + destruct cur as [| x cur].
      * intro H. destruct (IH [] w H) as [a [b Hab]]. simpl in Hab.
        exists (c :: a), b. simpl. now rewrite Hab.
      * intros [<- | H].
        -- now exists [], (c :: t).
        -- destruct (IH [] w H) as [a [b Hab]]. simpl in Hab.
           exists ((x :: cur) ++ c :: a), b. rewrite Hab. same_text.
    + intro H. destruct (IH _ w H) as [a [b Hab]].
      exists a, b. rewrite <- Hab. same_text.
Qed.

Lemma split_ws_part (s w : str) :
  In w (split_ws s) -> exists a b, s = a ++ w ++ b.
Proof. intro H. exact (words_from_part s [] w H). Qed.

(** [replace_first] replaces the occurrence that starts first. *)
Lemma replace_first_spec (pat repl : str) :
  forall s a b,
    s = a ++ pat ++ b ->
    exists a0 b0,
      s = a0 ++ pat ++ b0
      /\ replace_first pat repl s = Some (a0 ++ repl ++ b0)
      /\ forall a' b', s = a' ++ pat ++ b' -> length a0 <= length a'.
Proof.
  induction s as [| c t IH]; intros a b Hs.
  - destruct a; [| discriminate]. simpl in Hs.
    symmetry in Hs. apply app_eq_nil in Hs as [-> ->].
    exists [], []. repeat split. intros; simpl; lia.
  - destruct (strip_prefix pat (c :: t)) as [rest |] eqn:Hp.
    + exists [], rest. apply strip_prefix_spec in Hp as Hs'.
      repeat split; trivial.
      * cbn [replace_first]. now rewrite Hp.
      * intros; simpl; lia.
    + assert (forall a' b', c :: t = a' ++ pat ++ b' ->
                            exists a1, a' = c :: a1 /\ t = a1 ++ pat ++ b') as Hcut.
      { intros [| x a1] b' H.
        - simpl in H. rewrite H, strip_prefix_app in Hp. discriminate.
        - simpl in H. injection H as <- H. now exists a1. }
      destruct (Hcut a b Hs) as [a1 [-> Ht]].
      destruct (IH a1 b Ht) as [a0 [b0 [H1 [H2 H3]]]].
      exists (c :: a0), b0. repeat split.
      * simpl. now f_equal.
      * cbn [replace_first]. now rewrite Hp, H2.
      * intros a' b' H. destruct (Hcut a' b' H) as [a1' [-> Ht']].
        simpl. specialize (H3 a1' b' Ht'). lia.
Qed.

(** [str.split] sees the same words in a line and in the line stripped. *)
Lemma words_from_lstrip (s : str) : words_from [] (lstrip s) = words_from [] s.
Proof.
  induction s as [| c s IH]; simpl; trivial.
  destruct (isspace c) eqn:Hc; trivial. simpl. now rewrite Hc.
Qed.

Lemma words_from_spaces (w : str) :
  forallb isspace w = true ->
  forall cur, words_from cur w = words_from cur [].
Proof.
  induction w as [| c w IH]; simpl; trivial. intro H.
  apply andb_true_iff in H as [Hc Hw]. rewrite Hc. intro cur.
  destruct cur; rewrite (IH Hw); reflexivity.
Qed.

Lemma words_from_app_spaces (s w : str) :
  forallb isspace w = true ->
  forall cur, words_from cur (s ++ w) = words_from cur s.
Proof.
  intro Hw. induction s as [| c s IH]; intro cur; simpl.
  - now apply words_from_spaces.
  - destruct (isspace c); [destruct cur |]; now rewrite IH.
Qed.

Lemma split_ws_strip (s : str) : split_ws (strip s) = split_ws s.
Proof.
  unfold split_ws, strip.
  destruct (rstrip_spec (lstrip s)) as [w [H1 H2]].
  rewrite <- (words_from_lstrip s). rewrite H1 at 2.
  now rewrite (words_from_app_spaces _ w H2).
Qed.

Lemma streq_eq (a b : str) : streq a b = true -> a = b.
Proof.
  revert b. induction a as [| x a IH]; intros [| y b]; simpl; try discriminate; trivial.
  intro H. apply andb_true_iff in H as [Hxy Hab].
  apply Ascii.eqb_eq in Hxy. now rewrite Hxy, (IH b Hab).
Qed.

(** A line whose second word is a number is not the marker of the local
    variables. *)
Lemma numbered_not_localvars (line tok : str) :
  nth_error (split_ws line) 1 = Some tok ->
  forallb isdigit tok = true ->
  streq (strip line) LOCALVARS = false.
Proof.
  intros Hn Hd. destruct (streq (strip line) LOCALVARS) eqn:Hs; trivial.
  apply streq_eq in Hs. rewrite <- split_ws_strip, Hs in Hn.
  vm_compute in Hn. injection Hn as <-. discriminate Hd.
Qed.

Lemma digits_match_summary (tok : str) :
  forallb isdigit tok = true -> tok <> [] -> match_summary tok = true.
Proof.
  intros H Hne. destruct tok as [| c t]; [congruence |].
  simpl in H. apply andb_true_iff in H as [Hc _].
  unfold match_summary. simpl.
  pose proof (digit_not_space c Hc) as Hs. apply negb_true_iff in Hs.
  now rewrite Hs.
Qed.

(** C5, as amended.  In the index document (sep-0000.txt), a body line
    that is preformatted text (it starts with whitespace other than a form
    feed) and whose second whitespace-separated token is a number of one
    to four digits is a summary line: it is written with the first
    occurrence of the text of that token replaced by a link to the page
    [sep-%04d.html] of the number.  A line that starts in the first column
    is a heading whatever its second token, and in any other document the
    line goes through the combined pattern like any text. *)
Theorem C5_index_summary_line
    (E : env) (inpath sepno : str) (c0 : ascii) (l : str) (rest : list str)
    (need_pre : bool) (tok : str) :
  nth_error (split_ws (c0 :: l)) 1 = Some tok ->
  forallb isdigit tok = true ->
  1 <= length tok <= 4 ->
  (isspace c0 = true -> c0 <> formfeed ->
   exists n a b,
     int tok = Some n
     /\ c0 :: l = a ++ tok ++ b
     /\ (forall a' b', c0 :: l = a' ++ tok ++ b' -> length a <= length a')
     /\ print_body E inpath INDEX_NAME sepno ((c0 :: l) :: rest) need_pre
        = (open_pre need_pre ;;;
           write (a ++ anchor (SEPURL n) tok ++ b) ;;;
           print_body E inpath INDEX_NAME sepno rest false))
  /\ (isspace c0 = false ->
      print_body E inpath INDEX_NAME sepno ((c0 :: l) :: rest) need_pre
      = ((if negb need_pre then print "</pre>" else ret tt) ;;;
         print ("<h3>" ++ strip (c0 :: l) ++ "</h3>") ;;;
         print_body E inpath INDEX_NAME sepno rest true))
  /\ (forall base,
      streq base INDEX_NAME = false -> isspace c0 = true -> c0 <> formfeed ->
      print_body E inpath base sepno ((c0 :: l) :: rest) need_pre
      = (text_line E inpath (c0 :: l) need_pre ;;;
         print_body E inpath base sepno rest false)).
Proof.
  intros Hn Hd Hlen.
  assert (tok <> []) as Hne by (intros ->; simpl in Hlen; lia).
  pose proof (numbered_not_localvars _ _ Hn Hd) as Hlv.
  destruct (split_ws_part _ _ (nth_error_In _ _ Hn)) as [a1 [b1 Hpart]].
  assert (is_nonempty (strip (c0 :: l)) = true) as Hnb.
  { destruct tok as [| c t]; [congruence |].
    apply (strip_nonempty _ c).
    - rewrite Hpart. apply in_or_app; right. now left.
    - simpl in Hd. apply andb_true_iff in Hd as [Hc _].
      apply negb_true_iff. now apply digit_not_space. }
  repeat split.
  - intros Hsp Hff.
    assert (N.of_nat (length tok) <= max_str_digits)%N as Hlim
      by (unfold max_str_digits; lia).
    destruct (int_of_digits tok Hd Hne Hlim) as [n Hparse].
    destruct (replace_first_spec tok (anchor (SEPURL n) tok) _ _ _ Hpart)
      as [a [b [Hab [Hrep Hmin]]]].
    exists n, a, b. repeat split; trivial.
    rewrite (print_body_preformatted E inpath INDEX_NAME sepno c0 l rest need_pre
               Hsp Hff Hlv Hnb).
    change (streq INDEX_NAME INDEX_NAME) with true. cbv iota.
    unfold index_line. rewrite Hn, (digits_match_summary tok Hd Hne).
    unfold summary_line, re_sub1.
    rewrite (int_of_some E tok n Hparse), bind_ret_l.
    assert (literal_pattern tok = true) as ->
      by (exact (forallb_impl _ _ tok digit_not_meta Hd)).
    rewrite (summary_template_literal n tok Hd), Hrep. cbn [andb].
    apply M_ext;
      repeat rewrite ?output_bind, ?errors_bind, ?status_bind, ?status_ret,
        ?output_ret, ?errors_ret;
      destruct (status (open_pre need_pre));
      rewrite ?app_nil_r, <- ?app_assoc; reflexivity.
  - intro Hsp. now apply print_body_heading.
  - intros base Hb Hsp Hff.
    rewrite (print_body_preformatted E inpath base sepno c0 l rest need_pre
               Hsp Hff Hlv Hnb).
    now rewrite Hb.
Qed.

(** An indented summary line of the index. *)
Lemma C5_witness :
  nth_error (split_ws (ln " S 12 Purpose")) 1 = Some ("12" : str)
  /\ forallb isdigit "12" = true
  /\ 1 <= length ("12" : str) <= 4
  /\ isspace " " = true
  /\ exists n a b,
       int "12" = Some n
       /\ ln " S 12 Purpose" = a ++ "12" ++ b
       /\ (forall a' b', ln " S 12 Purpose" = a' ++ "12" ++ b' -> length a <= length a')
       /\ print_body example_env "sep-0000.txt" INDEX_NAME [] [ln " S 12 Purpose"] true
          = (open_pre true ;;;
             write (a ++ anchor (SEPURL n) "12" ++ b) ;;;
             print_body example_env "sep-0000.txt" INDEX_NAME [] [] false).
Proof.
  assert (1 <= length ("12" : str) <= 4) as Hlen by (simpl; lia).
  split; [reflexivity |]. split; [reflexivity |]. split; [exact Hlen |].
  split; [reflexivity |].
  apply (proj1 (C5_index_summary_line example_env "sep-0000.txt" [] " "
                  (ln "S 12 Purpose") [] true "12" eq_refl eq_refl Hlen));
    [reflexivity | discriminate].
Defined.

(** C5 as stated fails: the second token of this body line of the index
    is the number 12, the line starts in the first column, and it is
    written as a heading with no link; indented, it is linked. *)
Lemma C5_counterexample :
  nth_error (split_ws (ln "Num 12 Title")) 1 = Some ("12" : str)
  /\ contains "<h3>Num 12 Title</h3>"
       (output (fixfile example_env 0 "sep-0000.txt" index_heading)) = true
  /\ contains (lit "<a href=`sep-0012.html`>")
       (output (fixfile example_env 0 "sep-0000.txt" index_heading)) = false
  /\ contains (lit " S <a href=`sep-0012.html`>12</a> Purpose")
       (output (fixfile example_env 0 "sep-0000.txt" index_summary)) = true.
Proof. repeat split; vm_compute; reflexivity. Qed.

(** * sep2rss: the order of the sort *)

Import Sep2Rss.

Lemma CompOpp_inj (a b : comparison) : CompOpp a = CompOpp b -> a = b.
Proof. destruct a, b; simpl; congruence. Qed.

(** Things that compare equal compare alike on the right as well. *)
Lemma cmp_eq_r {A} (cmp : A -> A -> comparison) `{Order A cmp} (x y z : A) :
  cmp y z = Eq -> cmp x y = cmp x z.
Proof.
  intro Hyz. apply CompOpp_inj. rewrite <- !cmp_sym. now apply cmp_eq_l.
Qed.

(** Not coming before is transitive. *)
Lemma cmp_ge_trans {A} (cmp : A -> A -> comparison) `{Order A cmp} (a b c : A) :
  cmp a b <> Lt -> cmp b c <> Lt -> cmp a c <> Lt.
Proof.
  intros Hab Hbc Hac.
  destruct (cmp a b) eqn:Eab; [| congruence |].
  - rewrite (cmp_eq_l a b c Eab) in Hac. congruence.
  - destruct (cmp b c) eqn:Ebc; [| congruence |].
    + rewrite <- (cmp_eq_r cmp a b c Ebc) in Hac. congruence.
    + assert (cmp c b = Lt) as Hcb by (rewrite cmp_sym, Ebc; reflexivity).
      assert (cmp b a = Lt) as Hba by (rewrite cmp_sym, Eab; reflexivity).
      pose proof (cmp_lt_trans c b a Hcb Hba) as Hca.
      rewrite cmp_sym, Hac in Hca. discriminate.
Qed.

#[local] Instance Z_order : Order Z.compare.
Proof.
  split.
  - intros x y. apply Z.compare_antisym.
  - intros x y z Hxy. apply Z.compare_eq in Hxy. now subst.
  - intros x y z. rewrite !Z.compare_lt_iff. lia.
Qed.

#[local] Instance ord_order : Order (fun x y => N.compare (ord x) (ord y)).
Proof.
  split.
  - intros x y. apply N.compare_antisym.
  - intros x y z Hxy. apply N.compare_eq in Hxy. now rewrite Hxy.
  - intros x y z. rewrite !N.compare_lt_iff. lia.
Qed.

(** The order of an image: comparing [f a] with [f b]. *)
Lemma image_order {A B} (f : A -> B) (cmp : B -> B -> comparison) `{Order B cmp} :
  Order (fun a b => cmp (f a) (f b)).
Proof.
  split.
  - intros x y. apply cmp_sym.
  - intros x y z. apply cmp_eq_l.
  - intros x y z. apply cmp_lt_trans.
Qed.

(** The order of tuples and strings is an order when that of their
    elements is. *)
#[local] Instance lex_order {A} (cmp : A -> A -> comparison) `{Order A cmp} :
  Order (lex_compare cmp).
Proof.
  split.
  - induction x as [| x a IH]; intros [| y b]; simpl; trivial.
    rewrite (cmp_sym x y). destruct (cmp x y); simpl; trivial.
  - induction x as [| x a IH]; intros [| y b] c; simpl; try discriminate; trivial.
    destruct (cmp x y) eqn:Exy; try discriminate. intro Hab.
    destruct c as [| z c]; trivial. simpl.
    rewrite (cmp_eq_l x y z Exy). destruct (cmp y z); trivial. now apply IH.
  - induction x as [| x a IH]; intros [| y b] [| z c]; simpl; try discriminate; trivial.
    destruct (cmp x y) eqn:Exy; try discriminate.
    + rewrite (cmp_eq_l x y z Exy). destruct (cmp y z); try discriminate; trivial.
      apply IH.
    + intros _. destruct (cmp y z) eqn:Eyz; try discriminate.
      * now rewrite <- (cmp_eq_r cmp x y z Eyz), Exy.
      * now rewrite (cmp_lt_trans x y z Exy Eyz).
Qed.

#[local] Instance dt_order : Order dt_compare.
Proof. unfold dt_compare. apply (image_order dt_fields (lex_compare Z.compare)). Qed.

#[local] Instance str_order : Order str_compare.
Proof. unfold str_compare. apply lex_order. apply ord_order. Qed.

#[local] Instance entry_order : Order entry_compare.
Proof.
  split.
  - intros [d1 p1] [d2 p2]. unfold entry_compare. simpl.
    rewrite (cmp_sym (cmp := dt_compare) d1 d2), (cmp_sym (cmp := str_compare) p1 p2).
    destruct (dt_compare d1 d2); trivial.
  - intros [d1 p1] [d2 p2] [d3 p3]. unfold entry_compare. simpl.
    destruct (dt_compare d1 d2) eqn:E12; try discriminate. intro Hp.
    rewrite (cmp_eq_l (cmp := dt_compare) d1 d2 d3 E12).
    destruct (dt_compare d2 d3); trivial.
    now apply (cmp_eq_l (cmp := str_compare)).
  - intros [d1 p1] [d2 p2] [d3 p3]. unfold entry_compare. simpl.
    destruct (dt_compare d1 d2) eqn:E12; try discriminate.
    + rewrite (cmp_eq_l (cmp := dt_compare) d1 d2 d3 E12).
      destruct (dt_compare d2 d3); try discriminate; trivial.
      apply (cmp_lt_trans (cmp := str_compare)).
    + intros _. destruct (dt_compare d2 d3) eqn:E23; try discriminate.
      * now rewrite <- (cmp_eq_r dt_compare d1 d2 d3 E23), E12.
      * now rewrite (cmp_lt_trans (cmp := dt_compare) d1 d2 d3 E12 E23).
Qed.

Lemma entry_ge_iff (a b : entry) : entry_ge a b <-> entry_compare a b <> Lt.
Proof.
  unfold entry_ge, entry_lt. destruct (entry_compare a b); split; congruence.
Qed.

Lemma entry_ge_trans (a b c : entry) : entry_ge a b -> entry_ge b c -> entry_ge a c.
Proof. rewrite !entry_ge_iff. apply cmp_ge_trans. exact entry_order. Qed.

Lemma entry_lt_ge (x y : entry) : entry_lt x y = true -> entry_ge y x.
Proof.
  unfold entry_ge, entry_lt. rewrite (cmp_sym (cmp := entry_compare) x y).
  destruct (entry_compare x y); simpl; congruence.
Qed.

(** An entry that is not before another is not dated earlier. *)
Lemma entry_ge_dt (a b : entry) : entry_ge a b -> dt_ge (fst a) (fst b).
Proof.
  unfold entry_ge, entry_lt, entry_compare, dt_ge.
  destruct (dt_compare (fst a) (fst b)); congruence.
Qed.

(** ** The sort *)

Lemma insert_desc_perm (x : entry) (l : list entry) :
  Permutation (x :: l) (insert_desc x l).
Proof.
  induction l as [| y r IH]; simpl; trivial.
  destruct (entry_lt x y); trivial.
  rewrite perm_swap. now apply perm_skip.
Qed.

Lemma sort_desc_perm (l : list entry) : Permutation l (sort_desc l).
Proof.
  induction l as [| x r IH]; simpl; trivial.
  rewrite <- insert_desc_perm. now apply perm_skip.
Qed.

Lemma insert_desc_sorted (x : entry) (l : list entry) :
  StronglySorted entry_ge l -> StronglySorted entry_ge (insert_desc x l).
Proof.
  induction l as [| y r IH]; simpl; intro Hs.
  - repeat constructor.
  - inversion Hs as [| ? ? Hr Hy]; subst.
    destruct (entry_lt x y) eqn:Hxy.
    + constructor; [now apply IH |].
      apply (Permutation_Forall (insert_desc_perm x r)).
      constructor; [now apply entry_lt_ge | trivial].
    + constructor; trivial. constructor; trivial.
      apply Forall_forall. intros z Hz. rewrite Forall_forall in Hy.
      apply (entry_ge_trans x y z); [exact Hxy | now apply Hy].
Qed.

Lemma sort_desc_sorted (l : list entry) : StronglySorted entry_ge (sort_desc l).
Proof.
  induction l as [| x r IH]; simpl; [constructor | now apply insert_desc_sorted].
Qed.

(** In a sorted list, what stands earlier is related to what stands later. *)
Lemma sorted_nth {A} (R : A -> A -> Prop) (l : list A) :
  StronglySorted R l ->
  forall i j a b, i < j -> nth_error l i = Some a -> nth_error l j = Some b -> R a b.
Proof.
  induction 1 as [| x l Hs IH Hx]; intros i j a b Hij Hi Hj.
  - destruct i; discriminate.
  - destruct j as [| j]; [lia |]. simpl in Hj. destruct i as [| i].
    + simpl in Hi. injection Hi as <-. rewrite Forall_forall in Hx.
      apply Hx. now apply nth_error_In in Hj.
    + simpl in Hi. apply (IH i j); trivial. lia.
Qed.

Lemma sorted_weaken {A} (R S : A -> A -> Prop) (l : list A) :
  (forall a b, R a b -> S a b) -> StronglySorted R l -> StronglySorted S l.
Proof.
  intros HRS. induction 1 as [| x l Hs IH Hx]; constructor; trivial.
  eapply Forall_impl; [| exact Hx]. intros; now apply HRS.
Qed.

(** ** C8: the ten newest documents *)

Section FeedFacts.

Variable fs : str -> list str.
Variable epoch : datetime.
Variable strptime_error : str -> str.

Lemma with_dt_spec (seps : list str) :
  forall l,
    with_dt fs epoch strptime_error seps = Done l ->
    map snd l = seps
    /\ forall dt p, In (dt, p) l -> sep_creation_dt fs epoch strptime_error p = Done dt.
Proof.
  induction seps as [| p r IH]; intros l; simpl.
  - intros [= <-]. split; [reflexivity | intros ? ? []].
  - destruct (sep_creation_dt fs epoch strptime_error p) as [dt | e] eqn:Hp;
      [| discriminate].
    destruct (with_dt fs epoch strptime_error r) as [l' | e]; [| discriminate].
    intros [= <-]. destruct (IH l' eq_refl) as [H1 H2]. split.
    + simpl. now rewrite H1.
    + intros dt' p' [[= <- <-] | Hin]; [exact Hp | now apply H2].
Qed.

(** A document whose [Created] line holds no date is dated at the epoch. *)
Lemma undated_at_epoch (p c : str) :
  firstline_startingwith fs p "Created:" = Some c ->
  search_date c = None ->
  sep_creation_dt fs epoch strptime_error p = Done epoch.
Proof. unfold sep_creation_dt. now intros -> ->. Qed.

(** The list of dated documents is built when the date of every document
    is. *)
Lemma with_dt_returns (seps : list str) :
  (forall p, In p seps -> exists dt, sep_creation_dt fs epoch strptime_error p = Done dt) ->
  exists l, with_dt fs epoch strptime_error seps = Done l.
Proof.
  induction seps as [| p r IH]; intro H; cbn [with_dt].
  - now exists [].
  - destruct (H p (or_introl eq_refl)) as [dt ->].
    destruct IH as [l ->]; [intros q Hq; apply H; now right |].
    now exists ((dt, p) :: l).
Qed.

(** The loop builds one item for each selected entry, in order, dated as
    the entry is. *)
Lemma build_items_dates (selected : list entry) :
  forall n items,
    build_items fs selected n = Done items ->
    map pubDate items = map fst selected.
Proof.
  induction selected as [| [dt p] r IH]; intros n items; simpl.
  - now intros [= <-].
  - destruct (assign_n n p) as [z |]; [| discriminate].
    destruct (build_items fs r (Some z)) as [its | e] eqn:Hr; [| discriminate].
    intros [= <-]. simpl. now rewrite (IH _ _ Hr).
Qed.

(** Once [n] is bound the loop cannot fail. *)
Lemma build_items_bound (selected : list entry) :
  forall m, exists items, build_items fs selected (Some m) = Done items.
Proof.
  induction selected as [| [dt p] r IH]; intro m; cbn [build_items].
  - now exists [].
  - unfold assign_n. destruct (number_of_path p) as [z |].
    + destruct (IH z) as [items ->]. eexists; reflexivity.
    + destruct (IH m) as [items ->]. eexists; reflexivity.
Qed.

(** The item of a document whose name holds a number is built from that
    number. *)
Lemma build_items_nth (selected : list entry) :
  forall n items,
    build_items fs selected n = Done items ->
    forall i dt p z,
      nth_error selected i = Some (dt, p) -> number_of_path p = Some z ->
      nth_error items i = Some (make_item fs z dt p).
Proof.
  induction selected as [| [dt0 p0] r IH]; intros n items; cbn [build_items].
  - intros _ [| i] dt p z H; discriminate H.
  - destruct (assign_n n p0) as [m |] eqn:Hm; [| discriminate].
    destruct (build_items fs r (Some m)) as [its | e] eqn:Hr; [| discriminate].
    intros [= <-] [| i] dt p z Hi Hz; cbn [nth_error] in *.
    + injection Hi as <- <-. unfold assign_n in Hm. rewrite Hz in Hm.
      now injection Hm as <-.
    + exact (IH _ _ Hr i dt p z Hi Hz).
Qed.

(** The first selected document decides whether the loop returns. *)
Lemma build_items_first (dt : datetime) (p : str) (rest : list entry) :
  match number_of_path p with
  | Some z => exists items, build_items fs ((dt, p) :: rest) None = Done items
  | None => build_items fs ((dt, p) :: rest) None = Raise NameError
  end.
Proof.
  cbn [build_items]. unfold assign_n. destruct (number_of_path p) as [z |]; trivial.
  destruct (build_items_bound rest z) as [items ->]. eexists; reflexivity.
Qed.

(** C8, as amended.  When every document has a [Created] line whose
    date, if there is one, [strptime] accepts, the feed builder gives each
    document the creation date parsed from that line, the epoch in local
    time when the line holds no date; it sorts the documents by that date,
    newest first (documents of one date by path, greatest first), so that
    a document dated at the epoch comes after every document dated later
    than the epoch; and it goes through the first ten documents of the
    sorted list.  When the name of the first of them holds no number the
    loop raises [NameError] and there is no feed; otherwise it builds one
    item a document, in that order, each with the date of its document
    and, when the name of the document holds a number, with that number,
    the title and the author of the document. *)
Theorem C8_newest_ten_first (seps : list str) :
  (forall p, In p seps ->
     exists dt, sep_creation_dt fs epoch strptime_error p = Done dt) ->
  exists l,
    with_dt fs epoch strptime_error seps = Done l
    /\ map snd l = seps
    /\ (forall dt p, In (dt, p) l ->
          sep_creation_dt fs epoch strptime_error p = Done dt)
    /\ (forall p c, firstline_startingwith fs p "Created:" = Some c ->
          search_date c = None ->
          sep_creation_dt fs epoch strptime_error p = Done epoch)
    /\ Permutation l (sort_desc l)
    /\ StronglySorted (fun a b => dt_ge (fst a) (fst b)) (sort_desc l)
    /\ (forall i j a b,
          nth_error (sort_desc l) i = Some a -> nth_error (sort_desc l) j = Some b ->
          fst a = epoch -> dt_compare (fst b) epoch = Gt -> j < i)
    /\ (seps = [] -> feed_items fs epoch strptime_error seps = Done [])
    /\ (forall dt0 p0 rest,
          firstn 10 (sort_desc l) = (dt0, p0) :: rest ->
          number_of_path p0 = None ->
          feed_items fs epoch strptime_error seps = Raise NameError)
    /\ (forall dt0 p0 rest z,
          firstn 10 (sort_desc l) = (dt0, p0) :: rest ->
          number_of_path p0 = Some z ->
          exists items, feed_items fs epoch strptime_error seps = Done items)
    /\ (forall items,
          feed_items fs epoch strptime_error seps = Done items ->
          map pubDate items = map fst (firstn 10 (sort_desc l))
          /\ length items = Nat.min 10 (length seps)
          /\ forall i dt p z,
               nth_error (firstn 10 (sort_desc l)) i = Some (dt, p) ->
               number_of_path p = Some z ->
               nth_error items i = Some (make_item fs z dt p)).
Proof.
  intro Hall. destruct (with_dt_returns seps Hall) as [l Hl]. exists l.
  destruct (with_dt_spec seps l Hl) as [Hpaths Hdates].
  pose proof (sorted_weaken entry_ge (fun a b => dt_ge (fst a) (fst b)) _
                entry_ge_dt (sort_desc_sorted l)) as Hsorted.
  split; [exact Hl |]. split; [exact Hpaths |]. split; [exact Hdates |].
  split; [exact undated_at_epoch |].
  split; [apply sort_desc_perm |]. split; [exact Hsorted |]. split.
  { intros i j a b Hi Hj Ha Hb.
    destruct (Nat.lt_trichotomy i j) as [Hij | [-> | Hji]]; [| | exact Hji].
    + pose proof (sorted_nth _ _ Hsorted i j a b Hij Hi Hj) as Hge.
      unfold dt_ge in Hge. rewrite Ha in Hge.
      rewrite (cmp_sym (cmp := dt_compare) (fst b) epoch), Hb in Hge.
      now elim Hge.
    + rewrite Hi in Hj. injection Hj as <-. rewrite Ha in Hb.
      assert (dt_compare epoch epoch = Eq) as He.
      { pose proof (cmp_sym (cmp := dt_compare) epoch epoch) as Hs.
        destruct (dt_compare epoch epoch); trivial; discriminate. }
      congruence. }
  split; [now intros -> |].
  split.
  { intros dt0 p0 rest Hsel Hnum. unfold feed_items. rewrite Hl, Hsel.
    pose proof (build_items_first dt0 p0 rest) as H. now rewrite Hnum in H. }
  split.
  { intros dt0 p0 rest z Hsel Hnum. unfold feed_items. rewrite Hl, Hsel.
    pose proof (build_items_first dt0 p0 rest) as H. now rewrite Hnum in H. }
  intros items Hitems. unfold feed_items in Hitems. rewrite Hl in Hitems.
  pose proof (build_items_dates _ _ _ Hitems) as Hd. split; [exact Hd |]. split.
  - apply (f_equal (@length datetime)) in Hd.
    rewrite !length_map, length_firstn in Hd.
    rewrite <- (Permutation_length (sort_desc_perm l)) in Hd.
    rewrite <- Hpaths, length_map. exact Hd.
  - exact (build_items_nth _ _ _ Hitems).
Qed.

(** ** C10: a document whose name holds no number *)

(** C10, as amended.  When the name of a selected document holds no
    valid integer before its extension, the error of the conversion is
    swallowed and [n] stays what it was.  After a document that was
    processed before, wherever in the list the two stand, the item is
    built with the number the item of that document was built with (the
    number of that document when its name holds one), so its title and
    its link name the wrong document.  For the first selected document
    [n] is unbound, reading it raises [NameError], and the loop, and the
    script with it, stops without an item. *)
Theorem C10_number_left_over (dt : datetime) (path : str) :
  number_of_path path = None ->
  (forall before dt0 p0 rest n items,
     build_items fs (before ++ (dt0, p0) :: (dt, path) :: rest) n = Done items ->
     exists m items0 items2,
       items = items0 ++ make_item fs m dt0 p0 :: make_item fs m dt path :: items2
       /\ length items0 = length before
       /\ (forall z, number_of_path p0 = Some z -> m = z)
       /\ item_title (make_item fs m dt path)
          = "SEP " ++ fmt_d m ++ ": " ++ fmt_s (firstline_startingwith fs path "Title:")
       /\ link (make_item fs m dt path)
          = "http://www.python.org/dev/seps/sep-" ++ fmt_prec 4 m)
  /\ (forall before dt0 p0 rest m,
        exists items,
          build_items fs (before ++ (dt0, p0) :: (dt, path) :: rest) (Some m)
          = Done items)
  /\ (forall rest, build_items fs ((dt, path) :: rest) None = Raise NameError)
  /\ (forall seps l rest,
        with_dt fs epoch strptime_error seps = Done l ->
        firstn 10 (sort_desc l) = (dt, path) :: rest ->
        feed_items fs epoch strptime_error seps = Raise NameError).
Proof.
  intro Hbad.
  assert (forall n, assign_n n path = n) as Hkeep
    by (intro n; unfold assign_n; now rewrite Hbad).
  split; [| split; [| split]].
  - induction before as [| [d p] r IH]; intros dt0 p0 rest n items;
      cbn [app build_items].
    + destruct (assign_n n p0) as [m |] eqn:Hm; [| discriminate].
      rewrite (Hkeep (Some m)).
      destruct (build_items fs rest (Some m)) as [items2 | e]; [| discriminate].
      intros [= <-]. exists m, [], items2. repeat split.
      intros z Hz. unfold assign_n in Hm. rewrite Hz in Hm. now injection Hm.
    + destruct (assign_n n p) as [z |]; [| discriminate].
      destruct (build_items fs (r ++ (dt0, p0) :: (dt, path) :: rest) (Some z))
        as [its | e] eqn:Hr; [| discriminate].
      intros [= <-].
      destruct (IH dt0 p0 rest (Some z) its Hr) as [m [i0 [i2 [-> [Hlen H]]]]].
      exists m, (make_item fs z d p :: i0), i2. repeat split; try apply H.
      cbn [length]. now rewrite Hlen.
  - intros before dt0 p0 rest m. apply build_items_bound.
  - intro rest. cbn [build_items]. now rewrite (Hkeep None).
  - intros seps l rest Hl Hsel. unfold feed_items. rewrite Hl, Hsel.
    cbn [build_items]. now rewrite (Hkeep None).
Qed.

End FeedFacts.

(** The example of the specification: of two documents created on
    01-Jan-2020 and on 02-Jan-2020, the item of the second comes first. *)
Lemma C8_witness :
  feed_items two_dated utc_epoch strptime_error_text
    [ "sep-0001.txt" : str; "sep-0002.txt" : str ]
  = Done [ make_item two_dated 2 (midnight (2020, 1, 2)%Z) "sep-0002.txt";
           make_item two_dated 1 (midnight (2020, 1, 1)%Z) "sep-0001.txt" ]
  /\ map item_title
       [ make_item two_dated 2 (midnight (2020, 1, 2)%Z) "sep-0002.txt";
         make_item two_dated 1 (midnight (2020, 1, 1)%Z) "sep-0001.txt" ]
     = [ "SEP 2: Two" : str; "SEP 1: One" : str ]
  /\ exists l,
       with_dt two_dated utc_epoch strptime_error_text
         [ "sep-0001.txt" : str; "sep-0002.txt" : str ] = Done l
       /\ map snd l = [ "sep-0001.txt" : str; "sep-0002.txt" : str ]
       /\ forall items,
            feed_items two_dated utc_epoch strptime_error_text
              [ "sep-0001.txt" : str; "sep-0002.txt" : str ] = Done items ->
            map pubDate items = map fst (firstn 10 (sort_desc l))
            /\ length items = 2.
Proof.
  split; [reflexivity |]. split; [reflexivity |].
  destruct (C8_newest_ten_first two_dated utc_epoch strptime_error_text
              [ "sep-0001.txt" : str; "sep-0002.txt" : str ])
    as [l [Hl [Hp [_ [_ [_ [_ [_ [_ [_ [_ Hitems]]]]]]]]]]].
  - intros p [<- | [<- | []]]; eexists; reflexivity.
  - exists l. split; [exact Hl |]. split; [exact Hp |].
    intros items H. destruct (Hitems items H) as [Hd [Hlen _]]. now split.
Defined.

(** C8 as stated fails: the second document has no date on its [Created]
    line and is dated at the epoch, the first is dated before the epoch,
    and the undated document sorts first, not last. *)
Lemma C8_counterexample :
  firstline_startingwith old_and_undated "sep-0002.txt" "Created:" = Some []
  /\ search_date [] = None
  /\ with_dt old_and_undated utc_epoch strptime_error_text
       [ "sep-0001.txt" : str; "sep-0002.txt" : str ]
     = Done [ (midnight (1960, 1, 1)%Z, "sep-0001.txt" : str);
              (utc_epoch, "sep-0002.txt" : str) ]
  /\ map snd (sort_desc [ (midnight (1960, 1, 1)%Z, "sep-0001.txt" : str);
                          (utc_epoch, "sep-0002.txt" : str) ])
     = [ "sep-0002.txt" : str; "sep-0001.txt" : str ]
  /\ option_map (map item_title)
       (match feed_items old_and_undated utc_epoch strptime_error_text
                [ "sep-0001.txt" : str; "sep-0002.txt" : str ] with
        | Done items => Some items
        | Raise _ => None
        end)
     = Some [ "SEP 2: Undated" : str; "SEP 1: Old" : str ].
Proof. repeat split. Qed.

(** After [sep-0007.txt], the item of [sep-draft.txt] is built with the
    number 7. *)
Lemma C10_witness :
  number_of_path "sep-draft.txt" = None
  /\ feed_items misnamed utc_epoch strptime_error_text
       [ "sep-0007.txt" : str; "sep-draft.txt" : str ]
     = Done [ make_item misnamed 7 (midnight (2020, 1, 2)%Z) "sep-0007.txt";
              make_item misnamed 7 (midnight (2020, 1, 1)%Z) "sep-draft.txt" ]
  /\ item_title (make_item misnamed 7 (midnight (2020, 1, 1)%Z) "sep-draft.txt")
     = "SEP 7: Draft"
  /\ link (make_item misnamed 7 (midnight (2020, 1, 1)%Z) "sep-draft.txt")
     = "http://www.python.org/dev/seps/sep-0007"
  /\ exists m items0 items2,
       [ make_item misnamed 7 (midnight (2020, 1, 2)%Z) "sep-0007.txt";
         make_item misnamed 7 (midnight (2020, 1, 1)%Z) "sep-draft.txt" ]
       = items0
         ++ make_item misnamed m (midnight (2020, 1, 2)%Z) "sep-0007.txt"
         :: make_item misnamed m (midnight (2020, 1, 1)%Z) "sep-draft.txt" :: items2
       /\ m = 7%Z.
Proof.
  split; [reflexivity |]. split; [reflexivity |]. split; [reflexivity |].
  split; [reflexivity |].
  destruct (proj1 (C10_number_left_over misnamed utc_epoch strptime_error_text
                     (midnight (2020, 1, 1)%Z) "sep-draft.txt" eq_refl)
              [] (midnight (2020, 1, 2)%Z) "sep-0007.txt" [] None _ eq_refl)
    as [m [items0 [items2 [Heq [_ [Hm _]]]]]].
  exists m, items0, items2. split; [exact Heq | exact (Hm 7%Z eq_refl)].
Defined.

(** C10 as stated fails for the first selected document: no item is built
    with an unbound number, the script stops with [NameError] and hands no
    item to the feed writer. *)
Lemma C10_counterexample :
  number_of_path "sep-draft.txt" = None
  /\ with_dt misnamed utc_epoch strptime_error_text [ "sep-draft.txt" : str ]
     = Done [ (midnight (2020, 1, 1)%Z, "sep-draft.txt" : str) ]
  /\ feed_items misnamed utc_epoch strptime_error_text [ "sep-draft.txt" : str ]
     = Raise NameError.
Proof. repeat split. Qed.

(** * Further properties of sep2html.py

    ** Where the combined pattern makes [fixanchor] fail *)

(** The tests [text.startswith(p)] decided on the characters at the head
    of the text. *)
Ltac head_tests :=
  cbn [app list_ascii_of_string startswith strip_prefix Ascii.eqb Bool.eqb andb orb].

Lemma url_is_url (u : str) (sch run : str) :
  u = sch ++ run -> is_scheme sch ->
  startswith u "http:" || startswith u "https:" || startswith u "ftp:" = true.
Proof. intros -> [-> | [-> | ->]]; reflexivity. Qed.

(** Runs of digits. *)
Lemma digit_run_from_ge (s : str) : forall cur, (cur <= digit_run_from cur s)%N.
Proof.
  induction s as [| c s IH]; intro cur; cbn [digit_run_from]; [lia |].
  destruct (isdigit c); [specialize (IH (N.succ cur)) |]; lia.
Qed.

Lemma digit_run_from_mono (s : str) :
  forall cur cur', (cur <= cur')%N -> (digit_run_from cur s <= digit_run_from cur' s)%N.
Proof.
  induction s as [| c s IH]; intros cur cur' H; cbn [digit_run_from]; trivial.
  destruct (isdigit c); [apply IH |]; lia.
Qed.

Lemma digit_run_suffix (a s : str) :
  forall cur, (longest_digit_run s <= digit_run_from cur (a ++ s))%N.
Proof.
  unfold longest_digit_run.
  induction a as [| c a IH]; intro cur; cbn [app digit_run_from].
  - apply digit_run_from_mono. lia.
  - destruct (isdigit c); [apply IH |]. specialize (IH 0%N). lia.
Qed.

Lemma digit_run_prefix (s b : str) :
  forall cur, (digit_run_from cur s <= digit_run_from cur (s ++ b))%N.
Proof.
  induction s as [| c s IH]; intro cur; cbn [app digit_run_from].
  - apply digit_run_from_ge.
  - destruct (isdigit c); [apply IH |]. specialize (IH 0%N). lia.
Qed.

Lemma digit_run_digits (d b : str) :
  forallb isdigit d = true ->
  forall cur, (cur + N.of_nat (length d) <= digit_run_from cur (d ++ b))%N.
Proof.
  induction d as [| c d IH]; cbn [forallb app length digit_run_from]; intros H cur.
  - pose proof (digit_run_from_ge b cur). lia.
  - apply andb_true_iff in H as [Hc Hd]. rewrite Hc.
    specialize (IH Hd (N.succ cur)). lia.
Qed.

(** A run of digits of a text is no longer than the longest. *)
Lemma digit_run_substring (a d b : str) :
  forallb isdigit d = true ->
  (N.of_nat (length d) <= longest_digit_run (a ++ d ++ b))%N.
Proof.
  intro H. pose proof (digit_run_suffix a (d ++ b) 0) as H1.
  pose proof (digit_run_digits d b H 0) as H2.
  unfold longest_digit_run in *. lia.
Qed.

Lemma short_numbers_part (a s b : str) :
  short_numbers (a ++ s ++ b) = true -> short_numbers s = true.
Proof.
  unfold short_numbers. rewrite !N.leb_le. intro H.
  pose proof (digit_run_suffix a (s ++ b) 0) as H1.
  pose proof (digit_run_prefix s b 0) as H2.
  unfold longest_digit_run in *. lia.
Qed.

Lemma short_numbers_suffix (a s : str) :
  short_numbers (a ++ s) = true -> short_numbers s = true.
Proof.
  intro H. apply (short_numbers_part a s []). now rewrite app_nil_r.
Qed.

(** In a text of short numbers no run of digits is beyond the limit of
    [int]. *)
Lemma short_numbers_run (a d b : str) :
  short_numbers (a ++ d ++ b) = true -> forallb isdigit d = true ->
  (N.of_nat (length d) <= max_str_digits)%N.
Proof.
  unfold short_numbers. rewrite N.leb_le. intros H Hd.
  pose proof (digit_run_substring a d b Hd). lia.
Qed.

(** [fixanchor] on a match of the pattern: it returns, or the match is a
    cross-reference whose digits are more than [int] accepts. *)
Lemma fixanchor_cases (E : env) (cur s : str) (a : alt) (m : rmatch) (rest : str) :
  fixpat_match s = Some (a, m, rest) ->
  (exists r, fixanchor E cur m = ret r)
  \/ (exists pre d,
        s = pre ++ d ++ rest /\ forallb isdigit d = true
        /\ (max_str_digits < N.of_nat (length d))%N
        /\ fixanchor E cur m = raise (ValueError (int_error E d))).
Proof.
  intro H. pose proof (fixpat_match_text _ _ _ _ H) as [Hs _].
  apply fixpat_match_inv in H. destruct a.
  - left. destruct (match_url_spec _ _ _ H) as [_ [sch [run [Hu [Hsch _]]]]].
    unfold fixanchor. rewrite (url_is_url _ _ _ Hu Hsch), bind_ret_l.
    destruct (is_nonempty (strip_punct (group0 m))); eexists; reflexivity.
  - left. destruct H as [_ H].
    destruct (match_sepfile_spec _ _ _ H) as [_ [ds [ext [Ht _]]]].
    unfold fixanchor. rewrite Ht. head_tests.
    match goal with |- context [negb ?b] => destruct (negb b) end;
      rewrite bind_ret_l;
      [match goal with |- context [is_nonempty ?l] => destruct (is_nonempty l) end |];
      eexists; reflexivity.
  - destruct H as [_ [_ [d [H Hd]]]].
    destruct (match_rfc_spec _ _ _ _ H) as [_ [Hne [Hdig Ht]]].
    destruct (N.leb_spec (N.of_nat (length d)) max_str_digits) as [Hlen | Hlen].
    + left. destruct (int_of_digits d Hdig Hne Hlen) as [n Hn].
      unfold fixanchor. rewrite Hd. unfold int_of_group. rewrite (int_of_some E d n Hn).
      destruct Ht as [-> | [-> | ->]]; head_tests; rewrite !bind_ret_l;
        eexists; reflexivity.
    + right.
      assert (exists pre, group0 m = pre ++ d) as [pre Hpre]
        by (destruct Ht as [-> | [-> | ->]]; eexists; reflexivity).
      exists pre, d. repeat split; trivial.
      * now rewrite Hs, Hpre, <- app_assoc.
      * unfold fixanchor. rewrite Hd. unfold int_of_group.
        rewrite (int_of_none E d (int_of_long_digits d Hdig Hlen)).
        destruct Ht as [-> | [-> | ->]]; head_tests; reflexivity.
  - destruct H as [_ [_ [_ [d [H Hd]]]]].
    destruct (match_sep_spec _ _ _ _ H) as [_ [Hne [Hdig [ws [Ht _]]]]].
    destruct (N.leb_spec (N.of_nat (length d)) max_str_digits) as [Hlen | Hlen].
    + left. destruct (int_of_digits d Hdig Hne Hlen) as [n Hn].
      unfold fixanchor. rewrite Hd. unfold int_of_group. rewrite (int_of_some E d n Hn).
      rewrite Ht; head_tests; rewrite !bind_ret_l; eexists; reflexivity.
    + right. exists ("SEP" ++ ws), d. repeat split; trivial.
      * now rewrite Hs, Ht, <- !app_assoc.
      * unfold fixanchor. rewrite Hd. unfold int_of_group.
        rewrite (int_of_none E d (int_of_long_digits d Hdig Hlen)).
        rewrite Ht; head_tests; reflexivity.
  - left. destruct H as [_ [_ [_ [_ [c [_ [Hg _]]]]]]].
    rewrite (fixanchor_char E cur m c Hg). eexists; reflexivity.
Qed.

(** The substitution over a line: it returns, or the line holds a run of
    digits beyond the limit of [int], and the [ValueError] of that
    conversion leaves it. *)
Lemma render_scan_cases (E : env) (cur : str) (n : nat) :
  forall s, length s <= n ->
  (exists r, render_pieces E cur (scan s) = ret r)
  \/ (exists a d b,
        s = a ++ d ++ b /\ forallb isdigit d = true
        /\ (max_str_digits < N.of_nat (length d))%N
        /\ render_pieces E cur (scan s) = raise (ValueError (int_error E d))).
Proof.
  induction n as [| n IH]; intros s Hn.
  - destruct s; [left; exists []; reflexivity | simpl in Hn; lia].
  - destruct s as [| c t]; [left; exists []; reflexivity |].
    destruct (fixpat_match (c :: t)) as [[[al m] rest] |] eqn:Hm.
    + rewrite (scan_match _ _ _ _ Hm).
      destruct (fixpat_match_text _ _ _ _ Hm) as [Hs Hne].
      cbn [render_pieces].
      destruct (fixanchor_cases E cur _ _ _ _ Hm)
        as [[r1 Hr1] | [pre [d [Hd1 [Hd2 [Hd3 Hr1]]]]]].
      * rewrite Hr1, bind_ret_l.
        destruct (IH rest) as [[r2 Hr2] | [a [d [b [Hd1 [Hd2 [Hd3 Hr2]]]]]]].
        { assert (length (c :: t) = length (group0 m) + length rest) as Hl
            by (rewrite Hs at 1; apply length_app).
          destruct (group0 m); [congruence |]. simpl in *. lia. }
        -- left. rewrite Hr2, bind_ret_l. eexists; reflexivity.
        -- right. exists (group0 m ++ a), d, b. repeat split; trivial.
           ++ now rewrite Hs, Hd1, <- app_assoc.
           ++ now rewrite Hr2.
      * right. exists pre, d, rest. repeat split; trivial. now rewrite Hr1.
    + rewrite (scan_nomatch _ _ Hm). cbn [render_pieces].
      destruct (IH t) as [[r2 Hr2] | [a [d [b [Hd1 [Hd2 [Hd3 Hr2]]]]]]];
        [simpl in Hn; lia | |].
      * left. rewrite Hr2, bind_ret_l. eexists; reflexivity.
      * right. exists (c :: a), d, b. repeat split; trivial.
        -- now rewrite Hd1.
        -- now rewrite Hr2.
Qed.

Lemma render_scan_returns (E : env) (cur s : str) :
  short_numbers s = true -> exists r, render_pieces E cur (scan s) = ret r.
Proof.
  intro Hshort.
  destruct (render_scan_cases E cur (length s) s (Nat.le_refl _))
    as [Hr | [a [d [b [Hs [Hd [Hlen _]]]]]]]; trivial.
  rewrite Hs in Hshort. pose proof (short_numbers_run a d b Hshort Hd). lia.
Qed.

(** X1.  The substitution of the combined pattern over a line,
    [fixpat.sub(lambda x, c=inpath: fixanchor(c, x), line)], writes
    nothing and can fail in one way only: where the pattern takes a
    cross-reference, the group that [fixanchor] hands to [int] is a string
    of digits, which [int] refuses when they are more than 4300.  On a
    line with no longer run of digits the substitution returns, whatever
    the line and the current path; and when it does not return, the line
    holds such a run and what leaves is the [ValueError] of [int] on it. *)
Theorem sub_fixpat_fails_only_on_long_numbers (E : env) (current line : str) :
  (short_numbers line = true -> exists s, sub_fixpat E current line = ret s)
  /\ ((exists s, sub_fixpat E current line = ret s)
      \/ exists a d b,
           line = a ++ d ++ b /\ forallb isdigit d = true
           /\ (max_str_digits < N.of_nat (length d))%N
           /\ sub_fixpat E current line = raise (ValueError (int_error E d))).
Proof.
  split.
  - exact (render_scan_returns E current line).
  - exact (render_scan_cases E current (length line) line (Nat.le_refl _)).
Qed.

Lemma sub_fixpat_fails_only_on_long_numbers_witness :
  short_numbers (ln " SEP 8, RFC 2822 and <sep-0001.txt>") = true
  /\ exists s,
       sub_fixpat example_env "sep-0001.txt" (ln " SEP 8, RFC 2822 and <sep-0001.txt>")
       = ret s.
Proof.
  split; [reflexivity |].
  apply (proj1 (sub_fixpat_fails_only_on_long_numbers example_env "sep-0001.txt"
                  (ln " SEP 8, RFC 2822 and <sep-0001.txt>"))).
  reflexivity.
Defined.

Lemma status_open_pre (b : bool) : status (open_pre b) = Done tt.
Proof. now destruct b. Qed.

(** ** The links of file names and cross-references *)

Lemma escape_char_plain (c : ascii) : markup c = false -> escape_char c = [c].
Proof. each_char c; vm_compute; intro H; try discriminate H; reflexivity. Qed.

Lemma escape_plain (s : str) : forallb (fun c => negb (markup c)) s = true -> escape s = s.
Proof.
  unfold escape. induction s as [| c s IH]; simpl; trivial.
  intro H. apply andb_true_iff in H as [Hc Hs]. apply negb_true_iff in Hc.
  now rewrite (escape_char_plain c Hc), IH.
Qed.

Lemma digit_not_markup (c : ascii) : isdigit c = true -> negb (markup c) = true.
Proof. each_char c; vm_compute; trivial. Qed.

Lemma space_not_markup (c : ascii) : isspace c = true -> negb (markup c) = true.
Proof. each_char c; vm_compute; trivial. Qed.

Lemma plain_app (a b : str) :
  forallb (fun c => negb (markup c)) a = true ->
  forallb (fun c => negb (markup c)) b = true ->
  forallb (fun c => negb (markup c)) (a ++ b) = true.
Proof. intros Ha Hb. now rewrite forallb_app, Ha, Hb. Qed.

Lemma digits_plain (s : str) :
  forallb isdigit s = true -> forallb (fun c => negb (markup c)) s = true.
Proof. apply forallb_impl. exact digit_not_markup. Qed.

Lemma fmt_0d_plain (w : nat) (z : Z) :
  forallb (fun c => negb (markup c)) (fmt_0d w z) = true.
Proof.
  unfold fmt_0d. destruct (z <? 0)%Z.
  - apply plain_app; [reflexivity |]. apply digits_plain, zfill_digits, dec_digits.
  - apply digits_plain, zfill_digits, dec_digits.
Qed.

Lemma fmt_d_plain (z : Z) : forallb (fun c => negb (markup c)) (fmt_d z) = true.
Proof.
  unfold fmt_d. destruct (z <? 0)%Z.
  - apply plain_app; [reflexivity |]. apply digits_plain, dec_digits.
  - apply digits_plain, dec_digits.
Qed.

Lemma rfind_from_none (c : ascii) (s : str) :
  has_char c s = false -> forall i last, rfind_from c s i last = last.
Proof.
  unfold has_char. induction s as [| x s IH]; cbn [existsb rfind_from]; trivial.
  intro H. apply orb_false_iff in H as [Hx Hs]. intros i last.
  rewrite (Ascii.eqb_sym x c), Hx. now apply IH.
Qed.

Lemma rfind_from_last (c : ascii) (a b : str) :
  has_char c b = false ->
  forall i last, rfind_from c (a ++ c :: b) i last = Some (i + length a).
Proof.
  intro Hb. induction a as [| x a IH]; intros i last.
  - cbn [app rfind_from length]. rewrite Ascii.eqb_refl, (rfind_from_none c b Hb).
    f_equal. lia.
  - cbn [app rfind_from length]. rewrite IH. f_equal. lia.
Qed.

Lemma has_char_app (c : ascii) (a b : str) :
  has_char c (a ++ b) = has_char c a || has_char c b.
Proof. apply existsb_app. Qed.

Lemma digits_no_char (c : ascii) (s : str) :
  isdigit c = false -> forallb isdigit s = true -> has_char c s = false.
Proof.
  intro Hc. unfold has_char. induction s as [| x s IH]; cbn [existsb forallb]; trivial.
  intro H. apply andb_true_iff in H as [Hx Hs]. rewrite (IH Hs), orb_false_r.
  destruct (Ascii.eqb c x) eqn:Hcx; trivial.
  apply Ascii.eqb_eq in Hcx as ->. congruence.
Qed.

Lemma splitext_root_ext (stem e : str) (c0 : ascii) (t : str) :
  stem = c0 :: t -> c0 <> "."%char ->
  has_char "/" stem = false -> has_char "." stem = false ->
  has_char "/" e = false -> has_char "." e = false ->
  splitext_root (stem ++ "."%char :: e) = stem.
Proof.
  intros Hstem Hc0 Hs1 Hs2 He1 He2. unfold splitext_root, rfind.
  rewrite (rfind_from_none "/" (stem ++ "."%char :: e)).
  2:{ rewrite has_char_app, Hs1. cbn [orb has_char existsb]. exact He1. }
  rewrite (rfind_from_last "." stem e He2). cbn [Nat.add Nat.leb andb skipn].
  rewrite Nat.sub_0_r, firstn_app, Nat.sub_diag, firstn_all. cbn [firstn]. rewrite app_nil_r.
  rewrite Hstem. cbn [forallb].
  assert (Ascii.eqb "." c0 = false) as -> by (apply Ascii.eqb_neq; congruence).
  cbn [andb negb]. reflexivity.
Qed.

Lemma splitext_root_none (p : str) : has_char "." p = false -> splitext_root p = p.
Proof.
  intro H. unfold splitext_root, rfind. now rewrite (rfind_from_none "." p H).
Qed.

Lemma sep_stem_root (ds ext : str) :
  forallb isdigit ds = true -> In ext [[]; ".txt" : str; ".rst" : str] ->
  splitext_root ("sep-" ++ ds ++ ext) = "sep-" ++ ds.
Proof.
  intros Hd Hext.
  assert (has_char "/" ("sep-" ++ ds) = false) as H1.
  { rewrite has_char_app, (digits_no_char "/" ds eq_refl Hd). reflexivity. }
  assert (has_char "." ("sep-" ++ ds) = false) as H2.
  { rewrite has_char_app, (digits_no_char "." ds eq_refl Hd). reflexivity. }
  destruct Hext as [<- | [<- | [<- | []]]].
  - rewrite app_nil_r. now apply splitext_root_none.
  - rewrite app_assoc.
    apply (splitext_root_ext ("sep-" ++ ds) "txt" "s" ("ep-" ++ ds)); trivial; discriminate.
  - rewrite app_assoc.
    apply (splitext_root_ext ("sep-" ++ ds) "rst" "s" ("ep-" ++ ds)); trivial; discriminate.
Qed.

Lemma streq_refl (a : str) : streq a a = true.
Proof. induction a as [| c a IH]; simpl; trivial. now rewrite Ascii.eqb_refl. Qed.

(** X3.  A file name [sep-<digits>], with the extension [.txt], [.rst] or
    none, is linked by [fixanchor] to [sep-<digits>.html], the text of the
    link being the name as it stands; when the name is the current path
    itself it is left as plain text, without a link. *)
Theorem file_reference_linked (E : env) (current ds ext : str) :
  forallb isdigit ds = true ->
  In ext [[]; ".txt" : str; ".rst" : str] ->
  fixanchor E current (plain_match ("sep-" ++ ds ++ ext))
  = ret (if streq ("sep-" ++ ds ++ ext) current
         then "sep-" ++ ds ++ ext
         else anchor ("sep-" ++ ds ++ ".html") ("sep-" ++ ds ++ ext)).
Proof.
  intros Hd Hext.
  assert (forallb (fun c => negb (markup c)) ("sep-" ++ ds ++ ext) = true) as Hplain.
  { apply plain_app; [reflexivity |]. apply plain_app; [now apply digits_plain |].
    destruct Hext as [<- | [<- | [<- | []]]]; reflexivity. }
  unfold fixanchor. cbn [group0 plain_match].
  replace (startswith ("sep-" ++ ds ++ ext) "http:") with false by reflexivity.
  replace (startswith ("sep-" ++ ds ++ ext) "https:") with false by reflexivity.
  replace (startswith ("sep-" ++ ds ++ ext) "ftp:") with false by reflexivity.
  replace (startswith ("sep-" ++ ds ++ ext) "sep-") with true by reflexivity.
  replace (startswith ("sep-" ++ ds ++ ext) "SEP") with false by reflexivity.
  replace (startswith ("sep-" ++ ds ++ ext) "RFC") with false by reflexivity.
  cbn [orb andb].
  destruct (streq ("sep-" ++ ds ++ ext) current); cbn [negb]; rewrite bind_ret_l.
  - now rewrite (escape_plain _ Hplain).
  - rewrite (sep_stem_root ds ext Hd Hext).
    replace (is_nonempty (("sep-" ++ ds) ++ ".html")) with true by reflexivity.
    rewrite (escape_plain _ Hplain), escape_plain.
    + now rewrite <- app_assoc.
    + rewrite <- app_assoc. apply plain_app; [reflexivity |].
      apply plain_app; [now apply digits_plain | reflexivity].
Qed.

Lemma file_reference_linked_witness :
  fixanchor example_env "sep-0001.txt" (plain_match ("sep-" ++ "0008" ++ ".txt"))
  = ret (lit "<a href=`sep-0008.html`>sep-0008.txt</a>")
  /\ fixanchor example_env "sep-0008.txt" (plain_match ("sep-" ++ "0008" ++ ".txt"))
     = ret ("sep-0008.txt" : str).
Proof.
  split.
  - rewrite (file_reference_linked example_env "sep-0001.txt" "0008" ".txt" eq_refl
               (or_intror (or_introl eq_refl))).
    reflexivity.
  - rewrite (file_reference_linked example_env "sep-0008.txt" "0008" ".txt" eq_refl
               (or_intror (or_introl eq_refl))).
    reflexivity.
Defined.

Lemma escape_xref (t d ws : str) (p : str) :
  forallb (fun c => negb (markup c)) p = true ->
  forallb isdigit d = true -> forallb isspace ws = true ->
  escape (p ++ ws ++ d) = p ++ ws ++ d.
Proof.
  intros Hp Hd Hw. apply escape_plain.
  apply plain_app; trivial. apply plain_app; [| now apply digits_plain].
  revert Hw. apply forallb_impl. exact space_not_markup.
Qed.

Lemma xref_heads (pre d : str) :
  pre = "RFC" \/ pre = "RFC-" \/ pre = "RFC " ->
  startswith (pre ++ d) "http:" || startswith (pre ++ d) "https:"
  || startswith (pre ++ d) "ftp:" = false
  /\ startswith (pre ++ d) "sep-" = false
  /\ startswith (pre ++ d) "SEP" = false
  /\ startswith (pre ++ d) "RFC" = true.
Proof. intros [-> | [-> | ->]]; repeat split. Qed.

(** X2.  Where the scan of the combined pattern matches a cross-reference,
    [SEP] followed by whitespace and digits or [RFC], an optional dash or
    blank and digits, the group of the number is a string of digits that
    is not empty.  When the digits are no more than the 4300 that [int]
    accepts, [fixanchor] returns a link around the matched text,
    unchanged: to [sep-%04d.html] of the number for [SEP], to the page
    [rfc%d.html] of the RFC archive for [RFC], the number being the value
    of the digits.  When they are more, [int] raises its [ValueError] and
    [fixanchor] with it. *)
Theorem cross_reference_linked
    (E : env) (current s : str) (a : alt) (m : rmatch) (rest : str) :
  fixpat_match s = Some (a, m, rest) ->
  a = ASep \/ a = ARfc ->
  exists d,
    (if match a with ASep => true | _ => false end then sepnum m else rfcnum m) = Some d
    /\ forallb isdigit d = true
    /\ d <> []
    /\ ((N.of_nat (length d) <= max_str_digits)%N ->
        exists n,
          int d = Some n
          /\ fixanchor E current m
             = ret (anchor (if match a with ASep => true | _ => false end
                            then SEPURL n else RFCURL n) (group0 m)))
    /\ ((max_str_digits < N.of_nat (length d))%N ->
        fixanchor E current m = raise (ValueError (int_error E d))).
Proof.
  intros H Ha. apply fixpat_match_inv in H. destruct Ha as [-> | ->].
  - destruct H as [_ [_ [_ [d [H Hd]]]]].
    destruct (match_sep_spec _ _ _ _ H) as [_ [Hne [Hdig [ws [Ht [_ Hws]]]]]].
    exists d. repeat split; trivial.
    + intro Hlen. destruct (int_of_digits d Hdig Hne Hlen) as [n Hn].
      exists n. split; trivial.
      unfold fixanchor. rewrite Hd. unfold int_of_group. rewrite (int_of_some E d n Hn).
      rewrite Ht.
      replace (startswith ("SEP" ++ ws ++ d) "http:") with false by reflexivity.
      replace (startswith ("SEP" ++ ws ++ d) "https:") with false by reflexivity.
      replace (startswith ("SEP" ++ ws ++ d) "ftp:") with false by reflexivity.
      replace (startswith ("SEP" ++ ws ++ d) "sep-") with false by reflexivity.
      replace (startswith ("SEP" ++ ws ++ d) "SEP") with true by reflexivity.
      cbn [orb andb]. rewrite !bind_ret_l.
      replace (is_nonempty (SEPURL n)) with true by reflexivity.
      rewrite (escape_xref ("SEP" ++ ws ++ d) d ws "SEP" eq_refl Hdig Hws).
      rewrite escape_plain; trivial.
      unfold SEPURL. apply plain_app; [reflexivity |].
      apply plain_app; [apply fmt_0d_plain | reflexivity].
    + intro Hlen. unfold fixanchor. rewrite Hd. unfold int_of_group.
      rewrite (int_of_none E d (int_of_long_digits d Hdig Hlen)), Ht.
      replace (startswith ("SEP" ++ ws ++ d) "http:") with false by reflexivity.
      replace (startswith ("SEP" ++ ws ++ d) "https:") with false by reflexivity.
      replace (startswith ("SEP" ++ ws ++ d) "ftp:") with false by reflexivity.
      replace (startswith ("SEP" ++ ws ++ d) "sep-") with false by reflexivity.
      replace (startswith ("SEP" ++ ws ++ d) "SEP") with true by reflexivity.
      reflexivity.
  - destruct H as [_ [_ [d [H Hd]]]].
    destruct (match_rfc_spec _ _ _ _ H) as [_ [Hne [Hdig Ht]]].
    assert (exists pre : str, (pre = "RFC" \/ pre = "RFC-" \/ pre = "RFC ")
                              /\ group0 m = pre ++ d) as [pre [Hpre Hg]].
    { destruct Ht as [Ht | [Ht | Ht]].
      - exists ("RFC" : str). split; [now left | exact Ht].
      - exists ("RFC-" : str). split; [right; now left | exact Ht].
      - exists ("RFC " : str). split; [right; now right | exact Ht]. }
    destruct (xref_heads pre d Hpre) as [H1 [H2 [H3 H4]]].
    exists d. repeat split; trivial.
    + intro Hlen. destruct (int_of_digits d Hdig Hne Hlen) as [n Hn].
      exists n. split; trivial.
      unfold fixanchor. rewrite Hd. unfold int_of_group. rewrite (int_of_some E d n Hn).
      assert (escape (RFCURL n) = RFCURL n) as Hurl.
      { apply escape_plain. unfold RFCURL. apply plain_app; [reflexivity |].
        apply plain_app; [apply fmt_d_plain | reflexivity]. }
      assert (escape (group0 m) = group0 m) as Htext.
      { apply escape_plain. rewrite Hg.
        apply plain_app; [| now apply digits_plain].
        destruct Hpre as [-> | [-> | ->]]; reflexivity. }
      rewrite Htext. rewrite Hg, H1, H2, H3, H4.
      cbn [orb andb]. rewrite !bind_ret_l.
      replace (is_nonempty (RFCURL n)) with true by reflexivity.
      now rewrite Hurl.
    + intro Hlen. unfold fixanchor. rewrite Hd. unfold int_of_group.
      rewrite (int_of_none E d (int_of_long_digits d Hdig Hlen)).
      rewrite Hg, H1, H2, H3, H4. reflexivity.
Qed.

Lemma cross_reference_linked_witness :
  fixpat_match ("SEP 8 and more")
  = Some (ASep, {| group0 := "SEP 8"; rfcnum := None; sepnum := Some ("8" : str) |},
          " and more" : str)
  /\ fixanchor example_env "sep-0001.txt"
       {| group0 := "SEP 8"; rfcnum := None; sepnum := Some ("8" : str) |}
     = ret (anchor (SEPURL 8) "SEP 8").
Proof.
  split; [reflexivity |].
  destruct (cross_reference_linked example_env "sep-0001.txt" "SEP 8 and more" ASep
              {| group0 := "SEP 8"; rfcnum := None; sepnum := Some ("8" : str) |}
              " and more" eq_refl (or_introl eq_refl))
    as [d [Hd [_ [_ [Hlink _]]]]].
  injection Hd as <-.
  destruct (Hlink ltac:(vm_compute; discriminate)) as [n [Hn Hf]].
  vm_compute in Hn. injection Hn as <-. exact Hf.
Defined.

(** ** Addresses *)

Lemma split1_at (d : ascii) (a b : str) :
  has_char d a = false -> split1 d (a ++ d :: b) = [a; b].
Proof.
  unfold has_char. induction a as [| c t IH]; cbn [existsb split1 app].
  - now rewrite Ascii.eqb_refl.
  - intro H. apply orb_false_iff in H as [Hc Ht].
    rewrite (Ascii.eqb_sym c d), Hc, (IH Ht). reflexivity.
Qed.

Lemma lower_no_at (s : str) : has_char "@" (lower s) = has_char "@" s.
Proof.
  unfold has_char, lower. induction s as [| c s IH]; cbn [map existsb]; trivial.
  rewrite IH. f_equal. each_char c; reflexivity.
Qed.

Lemma mem_has_at (s : str) : mem s NON_MASKED_EMAILS = true -> has_char "@" s = true.
Proof.
  unfold mem, NON_MASKED_EMAILS. cbn [existsb]. rewrite orb_false_r.
  intro H. apply orb_true_iff in H as [H | H]; [| apply orb_true_iff in H as [H | H]];
    apply streq_eq in H; subst; reflexivity.
Qed.

(** X4.  [linkemail] and [fixemail] return exactly when the address holds
    an [@]: then the address is cut at its first [@] and shown as a link
    ([linkemail], and [fixemail] for an address on the list, letter case
    ignored) or masked; an address with no [@] makes both raise
    [IndexError]. *)
Theorem address_needs_at (address sepno : str) :
  if has_char "@" address
  then exists user host,
         split1 "@" address = [user; host]
         /\ linkemail address sepno = ret (mail_link user host sepno)
         /\ fixemail address sepno
            = ret (if mem (lower address) NON_MASKED_EMAILS
                   then mail_link user host sepno else masked user host)
  else linkemail address sepno = raise IndexError
       /\ fixemail address sepno = raise IndexError.
Proof.
  destruct (has_char "@" address) eqn:Hat.
  - destruct (split1_has_char _ _ Hat) as [user [host Hs]].
    exists user, host. split; [exact Hs |]. split.
    + now apply linkemail_parts.
    + now apply fixemail_parts.
  - assert (linkemail address sepno = raise IndexError) as Hl.
    { unfold linkemail. now rewrite (split1_no_char _ _ Hat). }
    split; [exact Hl |]. unfold fixemail.
    destruct (mem (lower address) NON_MASKED_EMAILS) eqn:Hm.
    + apply mem_has_at in Hm. rewrite lower_no_at in Hm. congruence.
    + now rewrite (split1_no_char _ _ Hat).
Qed.

(** X5.  What [linkemail] and [fixemail] return for an address with one
    [@] holds no [@] character: the sign is written as a character
    reference or as the masked [ at ], in the link target as well as in the
    text (the proposal number being free of [@] too). *)
Theorem rendered_address_hides_at (user host sepno : str) :
  has_char "@" user = false -> has_char "@" host = false ->
  has_char "@" sepno = false ->
  exists linked shown,
    linkemail (user ++ "@" ++ host) sepno = ret linked
    /\ fixemail (user ++ "@" ++ host) sepno = ret shown
    /\ has_char "@" linked = false
    /\ has_char "@" shown = false.
Proof.
  intros Hu Hh Hs.
  pose proof (split1_at "@" user host Hu) as Hsplit.
  change (user ++ "@"%char :: host) with (user ++ "@" ++ host) in Hsplit.
  assert (has_char "@" (masked user host) = false) as Hmasked.
  { unfold masked. now rewrite !has_char_app, Hu, Hh. }
  assert (has_char "@" (mail_link user host sepno) = false) as Hlink.
  { unfold mail_link. now rewrite !has_char_app, Hu, Hh, Hs, Hmasked. }
  exists (mail_link user host sepno),
    (if mem (lower (user ++ "@" ++ host)) NON_MASKED_EMAILS
     then mail_link user host sepno else masked user host).
  split; [now apply linkemail_parts |]. split; [now apply fixemail_parts |].
  split; [exact Hlink |].
  now destruct (mem (lower (user ++ "@" ++ host)) NON_MASKED_EMAILS).
Qed.

Lemma rendered_address_hides_at_witness :
  exists linked shown,
    linkemail ("guido" ++ "@" ++ "python.org") "8" = ret linked
    /\ fixemail ("guido" ++ "@" ++ "python.org") "8" = ret shown
    /\ has_char "@" linked = false
    /\ has_char "@" shown = false.
Proof.
  exact (rendered_address_hides_at "guido" "python.org" "8" eq_refl eq_refl eq_refl).
Defined.

Lemma last_nonempty (h : list field) :
  h <> [] -> exists f, last (map Some h) None = Some f.
Proof.
  induction h as [| x [| y r] IH]; intro H.
  - congruence.
  - now exists x.
  - destruct IH as [f Hf]; [discriminate |]. exists f. exact Hf.
Qed.

Lemma read_header_after_field (lines : list str) :
  forall h t s, h <> [] -> exists p, read_header lines h t s = ret p.
Proof.
  induction lines as [| line rest IH]; intros h t s Hh; cbn [read_header].
  - eexists; reflexivity.
  - destruct (negb (is_nonempty (strip line))); [eexists; reflexivity |].
    destruct (negb (starts_with_space line)).
    + destruct (negb (has_char ":" line)) eqn:Hc; [eexists; reflexivity |].
      apply negb_false_iff in Hc.
      destruct (split1_has_char _ _ Hc) as [key [v ->]].
      apply IH. destruct h; discriminate.
    + destruct (last_nonempty h Hh) as [[key v] ->].
      apply IH. unfold set_last. destruct (removelast h); discriminate.
Qed.

(** X6.  The header loop of [fixfile] fails in one case only: when the
    first line of the input is a continuation line (not blank, starting
    with whitespace) there is no field to continue, [header[-1]] raises
    [IndexError], and [fixfile] has written the four lines of the head and
    nothing more.  On every other input the loop returns. *)
Theorem header_fails_only_on_leading_continuation
    (E : env) (r : nat) (inpath : str) (lines : list str) :
  if leading_continuation lines
  then fixfile E r inpath lines = (print_head ;;; raise IndexError)
  else exists p, read_header lines [] [] [] = ret p.
Proof.
  destruct lines as [| line rest]; cbn [leading_continuation].
  - eexists; reflexivity.
  - destruct (is_nonempty (strip line)) eqn:Hb; cbn [andb].
    + destruct (starts_with_space line) eqn:Hsp.
      * apply fixfile_header_raises. cbn [read_header]. rewrite Hb, Hsp. reflexivity.
      * cbn [read_header]. rewrite Hb, Hsp. cbn [negb].
        destruct (negb (has_char ":" line)) eqn:Hc; [eexists; reflexivity |].
        apply negb_false_iff in Hc.
        destruct (split1_has_char _ _ Hc) as [key [v ->]].
        apply read_header_after_field. discriminate.
    + cbn [read_header]. rewrite Hb. eexists; reflexivity.
Qed.

(** X7.  The header ends at the first line that is blank, or that starts
    in the first column and holds no colon.  That line is consumed: it is
    neither a field nor a line of the body, which starts after it.  The
    fields, the title and the number are those read from the lines before
    it. *)
Theorem header_end_is_consumed (pre : list str) (stop : str) (rest : list str) :
  Forall (fun line => ends_header line = false) pre ->
  ends_header stop = true ->
  forall h t s,
    read_header (pre ++ stop :: rest) h t s
    = (p <- read_header pre h t s ;; ret (with_body p rest)).
Proof.
  intros Hpre Hstop. induction Hpre as [| line pre Hline _ IH]; intros h t s.
  - cbn [app read_header]. rewrite bind_ret_l. unfold with_body. cbn.
    unfold ends_header in Hstop.
    destruct (negb (is_nonempty (strip stop))); trivial.
    cbn [orb] in Hstop. apply andb_true_iff in Hstop as [-> ->]. reflexivity.
  - cbn [app read_header]. unfold ends_header in Hline.
    apply orb_false_iff in Hline as [-> Hline].
    destruct (negb (starts_with_space line)).
    + cbn [andb] in Hline. rewrite Hline.
      destruct (split1 ":" line) as [| key [| v [| x l]]]; trivial.
    + destruct (last (map Some h) None) as [[key v] |]; trivial.
Qed.

Lemma header_end_is_consumed_witness :
  read_header ([ln "Title: T"] ++ ln "Abstract" :: [ln " text"]) [] [] []
  = (p <- read_header [ln "Title: T"] [] [] [] ;; ret (with_body p [ln " text"])).
Proof.
  apply (header_end_is_consumed [ln "Title: T"] (ln "Abstract") [ln " text"]).
  - repeat constructor.
  - reflexivity.
Defined.

(** ** The body loop *)

(** X10.  The body loop stops at the first line that, stripped, is
    [Local Variables:] (and does not start with a form feed): whatever
    follows that line has no effect on what is written, on the error
    stream or on the outcome. *)
Theorem nothing_after_local_variables
    (E : env) (inpath base sepno : str) (before : list str) (c0 : ascii) (l : str)
    (after : list str) :
  c0 <> formfeed ->
  streq (strip (c0 :: l)) LOCALVARS = true ->
  forall need_pre,
    print_body E inpath base sepno (before ++ (c0 :: l) :: after) need_pre
    = print_body E inpath base sepno (before ++ [c0 :: l]) need_pre.
Proof.
  intros Hff Hlv. apply Ascii.eqb_neq in Hff.
  induction before as [| line rest IH]; intro need_pre.
  - cbn [app print_body]. now rewrite Hff, Hlv.
  - cbn [app print_body]. destruct line as [| x t]; trivial.
    destruct (Ascii.eqb x formfeed); [apply IH |].
    destruct (streq (strip (x :: t)) LOCALVARS); trivial.
    destruct (negb (isspace x)); [now rewrite IH |].
    destruct (negb (is_nonempty (strip (x :: t))) && need_pre); [apply IH |].
    destruct (if streq base INDEX_NAME then index_line E sepno (x :: t) need_pre else None);
      now rewrite IH.
Qed.

Lemma nothing_after_local_variables_witness :
  print_body example_env "sep-0001.txt" "sep-0001.txt" "1"
    ([ln " text"] ++ (" "%char :: ln "Local Variables:") :: [ln " mode: text"]) true
  = print_body example_env "sep-0001.txt" "sep-0001.txt" "1"
      ([ln " text"] ++ [" "%char :: ln "Local Variables:"]) true.
Proof.
  apply (nothing_after_local_variables example_env "sep-0001.txt" "sep-0001.txt" "1"
           [ln " text"] " " (ln "Local Variables:") [ln " mode: text"]).
  - discriminate.
  - reflexivity.
Defined.

(** X12.  In the index document, a preformatted line whose second word
    starts with a digit passes the test of a summary line, which looks at
    the start of the word only; when the word as a whole is not an
    integer (as in [12abc]), [int] raises [ValueError] and the loop stops
    there, before anything is written for the line. *)
Theorem index_summary_bad_number
    (E : env) (inpath sepno : str) (c0 : ascii) (l : str) (rest : list str)
    (need_pre : bool) (tok : str) :
  isspace c0 = true -> c0 <> formfeed ->
  nth_error (split_ws (c0 :: l)) 1 = Some tok ->
  match_summary tok = true ->
  int tok = None ->
  print_body E inpath INDEX_NAME sepno ((c0 :: l) :: rest) need_pre
  = raise (ValueError (int_error E tok)).
Proof.
  intros Hsp Hff Hn Hm Hint.
  assert (streq (strip (c0 :: l)) LOCALVARS = false) as Hlv.
  { destruct (streq (strip (c0 :: l)) LOCALVARS) eqn:Hs; trivial.
    apply streq_eq in Hs. rewrite <- split_ws_strip, Hs in Hn.
    vm_compute in Hn. injection Hn as <-. discriminate Hm. }
  destruct (split_ws_part _ _ (nth_error_In _ _ Hn)) as [a1 [b1 Hpart]].
  assert (is_nonempty (strip (c0 :: l)) = true) as Hnb.
  { unfold match_summary in Hm.
    destruct (span isspace tok) as [ws r] eqn:Hspan. cbn [snd] in Hm.
    destruct r as [| c r]; [discriminate |].
    destruct (span_spec _ _ _ _ Hspan) as [Htok _].
    apply (strip_nonempty _ c).
    - rewrite Hpart, Htok. apply in_or_app; right. apply in_or_app; left.
      apply in_or_app; right. now left.
    - pose proof (digit_not_space c Hm) as H. now apply negb_true_iff in H. }
  rewrite (print_body_preformatted E inpath INDEX_NAME sepno c0 l rest need_pre
             Hsp Hff Hlv Hnb).
  change (streq INDEX_NAME INDEX_NAME) with true. cbv iota.
  unfold index_line. rewrite Hn, Hm. unfold summary_line.
  rewrite (int_of_none E tok Hint). reflexivity.
Qed.

Lemma index_summary_bad_number_witness :
  print_body example_env "sep-0000.txt" INDEX_NAME [] [ln " S 12abc Purpose"] true
  = raise (ValueError (int_error example_env "12abc")).
Proof.
  apply (index_summary_bad_number example_env "sep-0000.txt" [] " "
           (ln "S 12abc Purpose") [] true "12abc"); try reflexivity.
  discriminate.
Defined.

(** ** Where [fixfile] can fail *)

Lemma read_header_body (P : str -> Prop) (lines : list str) :
  Forall P lines ->
  forall h t s p, read_header lines h t s = ret p -> Forall P (body p).
Proof.
  induction 1 as [| line rest Hline Hrest IH]; intros h t s p; cbn [read_header].
  - intros [= <-]. constructor.
  - destruct (negb (is_nonempty (strip line))); [intros [= <-]; exact Hrest |].
    destruct (negb (starts_with_space line)).
    + destruct (negb (has_char ":" line)); [intros [= <-]; exact Hrest |].
      destruct (split1 ":" line) as [| key [| v [| x l]]]; try discriminate. apply IH.
    + destruct (last (map Some h) None) as [[key v] |]; [apply IH | discriminate].
Qed.

Lemma print_body_returns
    (E : env) (inpath base sepno : str) (lines : list str) :
  streq base INDEX_NAME = false ->
  Forall (fun line => line <> []) lines ->
  Forall (fun line => short_numbers line = true) lines ->
  forall need_pre, exists b, status (print_body E inpath base sepno lines need_pre) = Done b.
Proof.
  intros Hb Hl Hshort. revert Hshort.
  induction Hl as [| line rest Hne _ IH]; intros Hshort need_pre.
  - now exists need_pre.
  - inversion Hshort as [| ? ? Hline Hrest]; subst. specialize (IH Hrest).
    destruct line as [| c0 l]; [congruence |]. cbn [print_body].
    destruct (Ascii.eqb c0 formfeed); [apply IH |].
    destruct (streq (strip (c0 :: l)) LOCALVARS); [now exists need_pre |].
    destruct (negb (isspace c0)).
    + rewrite !status_bind.
      assert (status (if negb need_pre then print "</pre>" else ret tt) = Done tt) as ->
        by now destruct need_pre.
      rewrite status_print. apply IH.
    + destruct (negb (is_nonempty (strip (c0 :: l))) && need_pre); [apply IH |].
      rewrite Hb. rewrite status_bind.
      assert (status (text_line E inpath (c0 :: l) need_pre) = Done tt) as ->.
      { unfold text_line.
        destruct (render_scan_returns E inpath (c0 :: l) Hline) as [s Hs].
        unfold sub_fixpat. rewrite Hs, bind_ret_l, status_bind, status_open_pre.
        reflexivity. }
      apply IH.
Qed.

Lemma status_print_tail (b : bool) : status (print_tail b) = Done tt.
Proof. now destruct b. Qed.

(** X11.  For a document other than the index, the body loop never fails
    on lines that are not empty and hold no run of more than 4300 digits:
    it returns, whatever else the lines hold. *)
Theorem body_never_fails_outside_index
    (E : env) (inpath base sepno : str) (lines : list str) (need_pre : bool) :
  streq base INDEX_NAME = false ->
  Forall (fun line => line <> []) lines ->
  Forall (fun line => short_numbers line = true) lines ->
  exists b, status (print_body E inpath base sepno lines need_pre) = Done b.
Proof.
  intros Hb Hl Hs. exact (print_body_returns E inpath base sepno lines Hb Hl Hs need_pre).
Qed.

Lemma body_never_fails_outside_index_witness :
  exists b,
    status (print_body example_env "sep-0001.txt" "sep-0001.txt" "1"
              [ln "Heading"; ln " SEP 8, RFC 2822 and <sep-0001.txt>"; [formfeed]] true)
    = Done b.
Proof.
  apply (body_never_fails_outside_index example_env "sep-0001.txt" "sep-0001.txt" "1").
  - reflexivity.
  - repeat constructor; discriminate.
  - repeat constructor.
Defined.

Lemma fixfile_status_after_header
    (E : env) (r : nat) (inpath : str) (lines : list str) (p : parsed) :
  streq (basename inpath) INDEX_NAME = false ->
  Forall (fun line => line <> []) lines ->
  Forall (fun line => short_numbers line = true) lines ->
  read_header lines [] [] [] = ret p ->
  status (fixfile E r inpath lines)
  = status (print_fields E (basename inpath) (sep p) (header p)).
Proof.
  intros Hb Hl Hshort Hp.
  assert (status (read_header lines [] [] []) = Done p) as Hs by now rewrite Hp.
  rewrite (fixfile_header_read E r inpath lines p Hs).
  unfold render_rest, render_content.
  rewrite !status_bind, status_print_head, status_print_title, !status_print,
    status_print_index_link, status_print_source_link.
  destruct (status (print_fields E (basename inpath) (sep p) (header p))) as [[] | e];
    trivial.
  destruct (print_body_returns E inpath (basename inpath) (sep p) (body p) Hb
              (read_header_body _ lines Hl _ _ _ _ Hp)
              (read_header_body _ lines Hshort _ _ _ _ Hp) true) as [b ->].
  apply status_print_tail.
Qed.

(** X13.  For a document other than the index whose lines are not empty
    (as [splitlines] cuts them) and hold no run of more than 4300 digits,
    once the header loop has returned, [fixfile] ends exactly as the
    rendering of the header table ends: the navigation links and the body
    loop cannot fail. *)
Theorem fixfile_fails_only_in_header
    (E : env) (r : nat) (inpath : str) (lines : list str) (p : parsed) :
  streq (basename inpath) INDEX_NAME = false ->
  Forall (fun line => line <> []) lines ->
  Forall (fun line => short_numbers line = true) lines ->
  read_header lines [] [] [] = ret p ->
  status (fixfile E r inpath lines)
  = status (print_fields E (basename inpath) (sep p) (header p)).
Proof. exact (fixfile_status_after_header E r inpath lines p). Qed.

Lemma fixfile_fails_only_in_header_witness :
  status (fixfile example_env 7 "sep-0042.txt" misreplacing)
  = status (print_fields example_env (basename "sep-0042.txt") (sep misreplacing_parsed)
              (header misreplacing_parsed)).
Proof.
  apply (fixfile_fails_only_in_header example_env 7 "sep-0042.txt" misreplacing
           misreplacing_parsed).
  - reflexivity.
  - repeat constructor; discriminate.
  - repeat constructor.
  - reflexivity.
Defined.

Lemma fix_value_infallible (E : env) (base sepno k v : str) :
  fallible_key k = false -> exists r, fix_value E base sepno k v = ret r.
Proof.
  unfold fallible_key, address_fields, number_fields, fix_value. intro H.
  apply orb_false_iff in H as [H H3]. apply orb_false_iff in H as [H1 H2].
  rewrite H1, H2, H3.
  destruct (in_keys k ["content-type" : str]); [eexists; reflexivity |].
  destruct (streq (lower k) "version"); [| eexists; reflexivity].
  destruct (startswith v "$Revision: " && endswith v " $"); eexists; reflexivity.
Qed.

Lemma print_fields_infallible (E : env) (base sepno : str) (h : list field) :
  Forall (fun f => fallible_key (fst f) = false) h ->
  status (print_fields E base sepno h) = Done tt
  /\ errors (print_fields E base sepno h) = [].
Proof.
  intro H. split; [| apply quiet_print_fields].
  induction H as [| [k v] rest Hk _ IH]; cbn [print_fields]; trivial.
  destruct (fix_value_infallible E base sepno k v Hk) as [r ->].
  now rewrite bind_ret_l, status_bind, status_print.
Qed.

(** X8.  The header table can fail on the address fields, on the fields
    that name other documents and on [Last-Modified] only: when no field
    of the header is one of these, [print_fields] returns and writes
    nothing to the error stream. *)
Theorem other_fields_never_fail (E : env) (base sepno : str) (h : list field) :
  Forall (fun f => fallible_key (fst f) = false) h ->
  status (print_fields E base sepno h) = Done tt
  /\ errors (print_fields E base sepno h) = [].
Proof. exact (print_fields_infallible E base sepno h). Qed.

Lemma other_fields_never_fail_witness :
  status (print_fields example_env "sep-0001.txt" "1"
            [("Title" : str, "T <1>" : str); ("Version" : str, "$Revision: 2 $" : str);
             ("Content-Type" : str, [] : str)]) = Done tt
  /\ errors (print_fields example_env "sep-0001.txt" "1"
            [("Title" : str, "T <1>" : str); ("Version" : str, "$Revision: 2 $" : str);
             ("Content-Type" : str, [] : str)]) = [].
Proof.
  apply (other_fields_never_fail example_env "sep-0001.txt" "1").
  repeat constructor.
Defined.

Lemma startswith_app (p b : str) : startswith (p ++ b) p = true.
Proof. unfold startswith. now rewrite strip_prefix_app. Qed.

Lemma endswith_app (a p : str) : endswith (a ++ p) p = true.
Proof. unfold endswith. rewrite rev_app_distr. apply startswith_app. Qed.

Lemma slice_wrapped (a x b : str) :
  slice (length a) (length b) (a ++ x ++ b) = x.
Proof.
  unfold slice.
  replace (length (a ++ x ++ b) - length b) with (length (a ++ x))
    by (rewrite !length_app; lia).
  rewrite app_assoc, firstn_app, Nat.sub_diag, firstn_all. cbn [firstn].
  rewrite app_nil_r, skipn_app, Nat.sub_diag, skipn_all. reflexivity.
Qed.

(** X9.  The revision keywords are unwrapped: a [Version] value
    [$Revision: r $] is shown as [r], escaped; a [Last-Modified] value
    [$Date: d $] is shown, in the index document, as [d] with the blank
    that follows the colon kept in front (the slice starts one character
    early). *)
Theorem revision_keywords_unwrapped (E : env) (base sepno k text : str) :
  (lower k = "version" ->
   fix_value E base sepno k ("$Revision: " ++ text ++ " $") = ret (escape text))
  /\ (lower k = "last-modified" ->
      fix_value E INDEX_NAME sepno k ("$Date: " ++ text ++ " $") = ret (" " ++ text)).
Proof.
  split; intro Hk; unfold fix_value, in_keys; rewrite Hk.
  - replace (mem "version" ["author" : str; "bdfl-delegate" : str; "discussions-to" : str])
      with false by reflexivity.
    replace (mem "version" ["replaces" : str; "superseded-by" : str; "requires" : str])
      with false by reflexivity.
    replace (mem "version" ["last-modified" : str]) with false by reflexivity.
    replace (mem "version" ["content-type" : str]) with false by reflexivity.
    replace (streq "version" "version") with true by reflexivity.
    rewrite (startswith_app "$Revision: "), app_assoc, (endswith_app _ " $").
    cbn [andb]. rewrite <- app_assoc.
    assert (slice 11 2 ("$Revision: " ++ text ++ " $") = text) as ->
      by exact (slice_wrapped "$Revision: " text " $").
    reflexivity.
  - replace (mem "last-modified"
               ["author" : str; "bdfl-delegate" : str; "discussions-to" : str])
      with false by reflexivity.
    replace (mem "last-modified"
               ["replaces" : str; "superseded-by" : str; "requires" : str])
      with false by reflexivity.
    replace (mem "last-modified" ["last-modified" : str]) with true by reflexivity.
    unfold last_modified.
    replace (is_nonempty ("$Date: " ++ text ++ " $")) with true by reflexivity.
    rewrite bind_ret_l.
    rewrite (startswith_app "$Date: "), app_assoc, (endswith_app _ " $").
    cbn [andb]. rewrite <- app_assoc.
    rewrite streq_refl.
    assert (slice 6 2 ("$Date: " ++ text ++ " $") = " " ++ text) as ->
      by exact (slice_wrapped "$Date:" (" " ++ text) " $").
    reflexivity.
Qed.

(** * Further properties of sep2rss.py *)

Section FeedExtras.

Variable fs : str -> list str.
Variable epoch : datetime.
Variable strptime_error : str -> str.

(** X19.  [firstline_startingwith] returns [None] exactly when no line of
    the file starts with the text; otherwise it returns what follows the
    text on the first such line, wherever that line is in the file,
    stripped of whitespace at both ends. *)
Theorem first_line_found (full_path text : str) :
  (firstline_startingwith fs full_path text = None
   <-> Forall (fun line => startswith line text = false) (fs full_path))
  /\ (forall before tail after,
        fs full_path = before ++ (text ++ tail) :: after ->
        Forall (fun line => startswith line text = false) before ->
        firstline_startingwith fs full_path text = Some (strip tail)).
Proof.
  unfold firstline_startingwith. split.
  - induction (fs full_path) as [| line r IH]; cbn [first_starting].
    + split; [constructor | reflexivity].
    + unfold startswith in *.
      destruct (strip_prefix text line) as [t |] eqn:Hp.
      * split; [discriminate |]. intro H. inversion H as [| ? ? H1 H2]; subst.
        unfold startswith in H1. rewrite Hp in H1. discriminate.
      * split.
        -- intro H. constructor; [now rewrite Hp | now apply IH].
        -- intro H. inversion H; subst. now apply IH.
  - intros before tail after -> Hb.
    induction Hb as [| line r Hline _ IH]; cbn [app first_starting].
    + now rewrite strip_prefix_app.
    + unfold startswith in Hline.
      destruct (strip_prefix text line); [discriminate | exact IH].
Qed.

Lemma with_dt_raises (seps : list str) (p : str) (e : exn) :
  In p seps -> sep_creation_dt fs epoch strptime_error p = Raise e ->
  exists e', with_dt fs epoch strptime_error seps = Raise e'.
Proof.
  induction seps as [| q r IH]; intros Hin Hp; [destruct Hin |].
  cbn [with_dt].
  destruct (sep_creation_dt fs epoch strptime_error q) as [dt | e0] eqn:Hq;
    [| now exists e0].
  destruct Hin as [-> | Hin]; [congruence |].
  destruct (IH Hin Hp) as [e' ->]. now exists e'.
Qed.

(** X20.  A document with no line starting with [Created:] makes
    [sep_creation_dt] raise [TypeError] (the search is given [None]), and
    one such document among those found makes the whole feed fail: no item
    is built. *)
Theorem missing_created_line_fails_feed (seps : list str) (p : str) :
  In p seps ->
  firstline_startingwith fs p "Created:" = None ->
  sep_creation_dt fs epoch strptime_error p = Raise TypeError
  /\ exists e, feed_items fs epoch strptime_error seps = Raise e.
Proof.
  intros Hin Hnone.
  assert (sep_creation_dt fs epoch strptime_error p = Raise TypeError) as Hp
    by (unfold sep_creation_dt; now rewrite Hnone).
  split; [exact Hp |].
  destruct (with_dt_raises seps p TypeError Hin Hp) as [e He].
  exists e. unfold feed_items. now rewrite He.
Qed.

Lemma month_index_range (names : list str) (m : str) :
  forall i k, month_index names m i = Some k -> (i <= k < i + Z.of_nat (length names))%Z.
Proof.
  induction names as [| n r IH]; intros i k; cbn [month_index length]; [discriminate |].
  destruct (streq (lower m) n).
  - intros [= <-]. lia.
  - intro H. apply IH in H. lia.
Qed.

Lemma digits_value_app (a : str) (c : ascii) :
  digits_value (a ++ [c]) = (10 * digits_value a + digit_val c)%Z.
Proof. unfold digits_value. now rewrite fold_left_app. Qed.

Lemma digit_val_range (c : ascii) : isdigit c = true -> (0 <= digit_val c <= 9)%Z.
Proof. each_char c; vm_compute; intro H; try discriminate H; split; discriminate. Qed.

Lemma digits_value_bound (s : str) :
  forallb isdigit s = true -> (0 <= digits_value s < 10 ^ Z.of_nat (length s))%Z.
Proof.
  induction s as [| c s IH] using rev_ind; intro H.
  - vm_compute. split; [discriminate | reflexivity].
  - rewrite forallb_app in H. apply andb_true_iff in H as [Hs Hc].
    cbn [forallb] in Hc. rewrite andb_true_r in Hc.
    specialize (IH Hs). pose proof (digit_val_range c Hc) as Hd.
    rewrite digits_value_app, length_app. cbn [length].
    rewrite Nat2Z.inj_add, Z.pow_add_r by lia.
    change (10 ^ Z.of_nat 1)%Z with 10%Z. lia.
Qed.

Lemma strptime_valid (names : list str) (s : str) (t : Z * Z * Z) :
  length names = 12 -> strptime names s = Some t -> calendar_midnight (midnight t).
Proof.
  intros Hlen. unfold strptime.
  destruct (split_on "-" s) as [| d [| m [| y [| x l]]]]; try discriminate.
  destruct (parse_day d) as [dd |] eqn:Hd; [| discriminate].
  destruct (month_index names m 1) as [mm |] eqn:Hm; [| discriminate].
  destruct (parse_year y) as [yy |] eqn:Hy; [| discriminate].
  destruct ((1 <=? yy)%Z && (dd <=? days_in_month yy mm)%Z) eqn:Hok; [| discriminate].
  intros [= <-]. apply andb_true_iff in Hok as [Hy1 Hdm].
  apply Z.leb_le in Hy1, Hdm.
  apply month_index_range in Hm. rewrite Hlen in Hm.
  unfold parse_day in Hd.
  match type of Hd with (if ?b then _ else _) = _ => destruct b eqn:Hdd end;
    [| discriminate].
  injection Hd as <-.
  apply andb_true_iff in Hdd as [Hdd _]. apply andb_true_iff in Hdd as [_ Hd1].
  apply Z.leb_le in Hd1.
  unfold parse_year in Hy.
  match type of Hy with (if ?b then _ else _) = _ => destruct b eqn:Hyy end;
    [| discriminate].
  injection Hy as <-. apply andb_true_iff in Hyy as [Hyd Hy4].
  apply Nat.eqb_eq in Hy4. pose proof (digits_value_bound y Hyd) as Hb.
  rewrite Hy4 in Hb. change (10 ^ Z.of_nat 4)%Z with 10000%Z in Hb.
  unfold calendar_midnight, midnight. cbn. lia.
Qed.

(** X21.  The creation date that [sep_creation_dt] returns is the epoch,
    or a date of the calendar at midnight: the year from 1 to 9999, the
    month from 1 to 12, the day one that the month has in that year. *)
Theorem creation_date_is_valid (full_path : str) (dt : datetime) :
  sep_creation_dt fs epoch strptime_error full_path = Done dt ->
  dt = epoch \/ calendar_midnight dt.
Proof.
  unfold sep_creation_dt.
  destruct (firstline_startingwith fs full_path "Created:") as [c |]; [| discriminate].
  destruct (search_date c) as [d |]; [| intros [= <-]; now left].
  destruct (strptime month_abbr d) as [t |] eqn:H1.
  - intros [= <-]. right. now apply (strptime_valid month_abbr d t).
  - destruct (strptime month_name d) as [t |] eqn:H2; [| discriminate].
    intros [= <-]. right. now apply (strptime_valid month_name d t).
Qed.

(** X22.  Among the sorted documents, two of one creation date come
    greatest path first. *)
Theorem same_date_sorted_by_path (l : list entry) (i j : nat) (d : datetime) (p q : str) :
  i < j ->
  nth_error (sort_desc l) i = Some (d, p) ->
  nth_error (sort_desc l) j = Some (d, q) ->
  str_compare p q <> Lt.
Proof.
  intros Hij Hi Hj.
  pose proof (sorted_nth _ _ (sort_desc_sorted l) i j _ _ Hij Hi Hj) as Hge.
  apply entry_ge_iff in Hge. unfold entry_compare in Hge. cbn [fst snd] in Hge.
  assert (dt_compare d d = Eq) as He.
  { pose proof (@cmp_sym _ dt_compare dt_order d d) as Hs.
    destruct (dt_compare d d); trivial; discriminate. }
  now rewrite He in Hge.
Qed.

End FeedExtras.

Lemma missing_created_line_fails_feed_witness :
  sep_creation_dt two_dated utc_epoch strptime_error_text "sep-0003.txt" = Raise TypeError
  /\ exists e,
       feed_items two_dated utc_epoch strptime_error_text
         [ "sep-0001.txt" : str; "sep-0003.txt" : str ] = Raise e.
Proof.
  apply (missing_created_line_fails_feed two_dated utc_epoch strptime_error_text
           [ "sep-0001.txt" : str; "sep-0003.txt" : str ] "sep-0003.txt").
  - right. now left.
  - reflexivity.
Defined.

Lemma creation_date_is_valid_witness :
  midnight (2020, 1, 2)%Z = utc_epoch \/ calendar_midnight (midnight (2020, 1, 2)%Z).
Proof.
  exact (creation_date_is_valid two_dated utc_epoch strptime_error_text "sep-0002.txt"
           (midnight (2020, 1, 2)%Z) eq_refl).
Defined.

Lemma same_date_sorted_by_path_witness :
  str_compare "sep-0002.txt" "sep-0001.txt" <> Lt.
Proof.
  apply (same_date_sorted_by_path
           [ (utc_epoch, "sep-0001.txt" : str); (utc_epoch, "sep-0002.txt" : str) ]
           0 1 utc_epoch "sep-0002.txt" "sep-0001.txt").
  - lia.
  - reflexivity.
  - reflexivity.
Defined.

(** ** Numbers written and read back *)

Lemma int_digits_uint (d : Decimal.uint) :
  forall acc prev,
    d <> Decimal.Nil \/ prev = true ->
    int_digits (Z.of_N acc) prev (list_ascii_of_string (NilEmpty.string_of_uint d))
    = Some (Z.of_N (uint_value acc d)).
Proof.
  induction d; intros acc prev Hne;
    [destruct Hne as [Hne | ->]; [congruence | reflexivity] | ..];
    cbn [NilEmpty.string_of_uint list_ascii_of_string int_digits uint_value];
    match goal with |- context [isdigit ?c] => change (isdigit c) with true end;
    cbv iota;
    match goal with |- int_digits ?a true _ = Some (Z.of_N (uint_value ?b _)) =>
      replace a with (Z.of_N b)
        by (match goal with |- context [digit_val ?c] =>
              let v := eval vm_compute in (digit_val c) in
              change (digit_val c) with v end; lia)
    end;
    apply IHd; now right.
Qed.

Lemma uint_value_spec (d : Decimal.uint) :
  forall acc,
    uint_value acc d
    = (acc * 10 ^ DecimalPos.Unsigned.usize d + DecimalPos.Unsigned.of_lu (Decimal.rev d))%N.
Proof.
  induction d; intro acc; cbn [uint_value DecimalPos.Unsigned.usize];
    [cbn; lia | ..];
    unfold Decimal.rev; cbn [Decimal.revapp];
    rewrite (DecimalPos.Unsigned.of_lu_revapp d); cbn [DecimalPos.Unsigned.of_lu];
    rewrite IHd, N.pow_succ_r'; ring.
Qed.

Lemma uint_value_to_uint (n : N) : uint_value 0 (N.to_uint n) = n.
Proof.
  rewrite uint_value_spec, N.mul_0_l, N.add_0_l, <- DecimalPos.Unsigned.of_uint_alt.
  apply DecimalN.Unsigned.of_to.
Qed.

Lemma to_uint_not_nil (n : N) : N.to_uint n <> Decimal.Nil.
Proof.
  destruct n as [| p]; [discriminate |]. apply DecimalPos.Unsigned.to_uint_nonnil.
Qed.

Lemma dec_string (n : N) :
  dec n = list_ascii_of_string (NilEmpty.string_of_uint (N.to_uint n)).
Proof.
  unfold dec, NilZero.string_of_uint. pose proof (to_uint_not_nil n) as H.
  destruct (N.to_uint n); trivial. congruence.
Qed.

Lemma dec_nonempty (n : N) : dec n <> [].
Proof.
  rewrite dec_string. pose proof (to_uint_not_nil n) as H.
  destruct (N.to_uint n); try congruence; discriminate.
Qed.

Lemma int_digits_dec (n : N) (prev : bool) :
  int_digits 0 prev (dec n) = Some (Z.of_N n).
Proof.
  rewrite dec_string. change 0%Z with (Z.of_N 0).
  rewrite int_digits_uint by (left; apply to_uint_not_nil).
  now rewrite uint_value_to_uint.
Qed.

Lemma int_digits_zeros (k : nat) (s : str) (prev : bool) :
  int_digits 0 prev (repeat "0"%char k ++ s)
  = int_digits 0 (match k with O => prev | S _ => true end) s.
Proof.
  revert prev. induction k as [| k IH]; intro prev; trivial.
  cbn [repeat app int_digits]. change (isdigit "0") with true. cbv iota.
  change (10 * 0 + digit_val "0")%Z with 0%Z. rewrite IH. now destruct k.
Qed.

Lemma int_digits_zfill (w : nat) (n : N) :
  int_digits 0 false (zfill w (dec n)) = Some (Z.of_N n).
Proof. unfold zfill. rewrite int_digits_zeros. apply int_digits_dec. Qed.

Lemma zfill_nonempty (w : nat) (s : str) : s <> [] -> zfill w s <> [].
Proof.
  unfold zfill. intros H Hz. apply app_eq_nil in Hz as [_ Hz]. congruence.
Qed.

(** The digits of a numeral as written are as many as the numeral has. *)
Lemma string_of_uint_length (d : Decimal.uint) :
  N.of_nat (length (list_ascii_of_string (NilEmpty.string_of_uint d)))
  = DecimalPos.Unsigned.usize d.
Proof.
  induction d; cbn [NilEmpty.string_of_uint list_ascii_of_string length
                      DecimalPos.Unsigned.usize]; [reflexivity | ..];
    rewrite <- IHd; lia.
Qed.

(** A numeral that does not start with a zero is at least the power of
    ten of its other digits. *)
Lemma uint_value_lower (d : Decimal.uint) :
  forall acc, (acc * 10 ^ DecimalPos.Unsigned.usize d <= uint_value acc d)%N.
Proof. intro acc. rewrite uint_value_spec. lia. Qed.

Lemma uint_value_head (acc : N) (d : Decimal.uint) :
  (1 <= acc)%N -> (10 ^ DecimalPos.Unsigned.usize d <= uint_value acc d)%N.
Proof.
  intro Hacc. pose proof (uint_value_lower d acc).
  assert (10 ^ DecimalPos.Unsigned.usize d
          <= acc * 10 ^ DecimalPos.Unsigned.usize d)%N by nia.
  lia.
Qed.

(** The numeral of a number below [10 ^ k] has at most [k] digits. *)
Lemma to_uint_size (n k : N) :
  (0 < k)%N -> (n < 10 ^ k)%N -> (DecimalPos.Unsigned.usize (N.to_uint n) <= k)%N.
Proof.
  intros Hk Hn.
  pose proof (DecimalN.Unsigned.to_of (N.to_uint n)) as Hnorm.
  rewrite DecimalN.Unsigned.of_to in Hnorm.
  pose proof (uint_value_to_uint n) as Hv.
  assert (forall d, (10 ^ DecimalPos.Unsigned.usize d <= n)%N ->
            (N.succ (DecimalPos.Unsigned.usize d) <= k)%N) as Hsize.
  { intros d Hd.
    assert (10 ^ DecimalPos.Unsigned.usize d < 10 ^ k)%N as Hlt by lia.
    apply N.pow_lt_mono_r_iff in Hlt; lia. }
  destruct (N.to_uint n) as [| d | d | d | d | d | d | d | d | d | d] eqn:Hd;
    cbn [DecimalPos.Unsigned.usize]; [lia | | ..];
    try (apply Hsize; rewrite <- Hv; cbn [uint_value]; apply uint_value_head; lia).
  (* a leading zero: the numeral is zero itself *)
  unfold Decimal.unorm in Hnorm. cbn [Decimal.nzhead] in Hnorm.
  destruct (Decimal.nzhead d) eqn:Hz.
  - injection Hnorm as Hd0. subst d. cbn. lia.
  - exfalso. exact (DecimalFacts.nzhead_nonzero d _ (eq_trans Hz (eq_sym Hnorm))).
  - discriminate. - discriminate. - discriminate. - discriminate. - discriminate.
  - discriminate. - discriminate. - discriminate. - discriminate.
Qed.

Lemma dec_length (n k : N) :
  (0 < k)%N -> (n < 10 ^ k)%N -> (N.of_nat (length (dec n)) <= k)%N.
Proof.
  intros Hk Hn. rewrite dec_string, string_of_uint_length. now apply to_uint_size.
Qed.

Lemma zfill_length (w : nat) (s : str) : length (zfill w s) = Nat.max w (length s).
Proof. unfold zfill. rewrite length_app, repeat_length. lia. Qed.


Lemma int_limit_pos : (0 < 10 ^ Z.of_N max_str_digits)%Z.
Proof. apply Z.pow_pos_nonneg; [lia | apply N2Z.is_nonneg]. Qed.



Lemma fmt_0d_short (w : nat) (z : Z) :
  (0 <= z < 10 ^ Z.of_N max_str_digits)%Z ->
  (N.of_nat w <= max_str_digits)%N ->
  (N.of_nat (length (fmt_0d w z)) <= max_str_digits)%N.
Proof.
  intros Hz Hw. unfold fmt_0d.
  assert ((z <? 0)%Z = false) as -> by (apply Z.ltb_ge; lia).
  rewrite zfill_length.
  assert (N.of_nat (length (dec (Z.abs_N z))) <= max_str_digits)%N as Hd.
  { apply dec_length; [reflexivity |].
    apply N2Z.inj_lt. rewrite N2Z.inj_abs_N, N2Z.inj_pow. change (Z.of_N 10) with 10%Z. lia. }
  lia.
Qed.

Lemma int_fmt_0d (w : nat) (z : Z) :
  (0 <= z < 10 ^ Z.of_N max_str_digits)%Z ->
  (N.of_nat w <= max_str_digits)%N ->
  int (fmt_0d w z) = Some z.
Proof.
  intros Hz Hw. pose proof (fmt_0d_short w z Hz Hw) as Hlen.
  unfold fmt_0d in *.
  assert ((z <? 0)%Z = false) as Hneg by (apply Z.ltb_ge; lia).
  rewrite Hneg in *.
  rewrite int_of_digit_string.
  - apply N.leb_le in Hlen. rewrite Hlen.
    rewrite int_digits_zfill. f_equal. rewrite N2Z.inj_abs_N. lia.
  - apply zfill_digits, dec_digits.
  - apply zfill_nonempty, dec_nonempty.
Qed.

(** [split] at a character. *)
Lemma split_on_no_char (d : ascii) (s : str) :
  has_char d s = false -> split_on d s = [s].
Proof.
  unfold has_char. induction s as [| c t IH]; cbn [existsb split_on]; trivial.
  intro H. apply orb_false_iff in H as [Hc Ht].
  rewrite (Ascii.eqb_sym c d), Hc, (IH Ht). reflexivity.
Qed.

Lemma split_on_nonempty (d : ascii) (s : str) : split_on d s <> [].
Proof.
  induction s as [| c t IH]; cbn [split_on]; [discriminate |].
  destruct (Ascii.eqb c d); [discriminate |].
  unfold cons_head. destruct (split_on d t); discriminate.
Qed.

Lemma last_cons_head (c : ascii) (ps : list str) (x : str) :
  length ps >= 2 -> last (cons_head c ps) x = last ps x.
Proof.
  destruct ps as [| h [| h2 r]]; cbn [length]; try lia. reflexivity.
Qed.

Lemma split_on_last (d : ascii) (a b : str) :
  has_char d b = false ->
  last (split_on d (a ++ d :: b)) [] = b
  /\ length (split_on d (a ++ d :: b)) >= 2.
Proof.
  intro Hb. induction a as [| c a [IH1 IH2]]; cbn [app split_on].
  - rewrite Ascii.eqb_refl, (split_on_no_char d b Hb). split; [reflexivity | simpl; lia].
  - destruct (Ascii.eqb c d).
    + split.
      * change (last ([] :: split_on d (a ++ d :: b)) []) with
          (match split_on d (a ++ d :: b) with
           | [] => [] | _ :: _ => last (split_on d (a ++ d :: b)) [] end).
        destruct (split_on d (a ++ d :: b)) eqn:Hs; [simpl in IH2; lia | exact IH1].
      * simpl. lia.
    + split.
      * rewrite last_cons_head; trivial.
      * unfold cons_head. destruct (split_on d (a ++ d :: b)); simpl in *; lia.
Qed.

Lemma split_on_first (d : ascii) (a b : str) :
  has_char d a = false -> hd [] (split_on d (a ++ d :: b)) = a.
Proof.
  unfold has_char. induction a as [| c a IH]; cbn [existsb app split_on].
  - now rewrite Ascii.eqb_refl.
  - intro H. apply orb_false_iff in H as [Hc Ha].
    rewrite (Ascii.eqb_sym c d), Hc. specialize (IH Ha).
    pose proof (split_on_nonempty d (a ++ d :: b)) as Hne.
    destruct (split_on d (a ++ d :: b)); [congruence |].
    cbn [cons_head hd] in *. now rewrite IH.
Qed.

Lemma number_of_path_file_name (before ext : str) (n : Z) :
  (0 <= n < 10 ^ Z.of_N max_str_digits)%Z ->
  has_char "-" ext = false ->
  number_of_path (before ++ "-" ++ fmt_0d 4 n ++ "." ++ ext) = Some n.
Proof.
  intros Hn Hext. unfold number_of_path.
  assert (forallb isdigit (fmt_0d 4 n) = true) as Hd.
  { unfold fmt_0d. assert ((n <? 0)%Z = false) as -> by (apply Z.ltb_ge; lia).
    apply zfill_digits, dec_digits. }
  change (before ++ "-" ++ fmt_0d 4 n ++ "." ++ ext)
    with (before ++ "-"%char :: (fmt_0d 4 n ++ "."%char :: ext)).
  destruct (split_on_last "-" before (fmt_0d 4 n ++ "."%char :: ext)) as [-> _].
  { rewrite has_char_app, (digits_no_char "-" _ eq_refl Hd). exact Hext. }
  rewrite split_on_first by (exact (digits_no_char "." _ eq_refl Hd)).
  apply int_fmt_0d; [exact Hn | unfold max_str_digits; lia].
Qed.

(** X23.  The number the feed builder reads from the name of a file is
    the number the name was formatted from: for [n] from 0 to below
    [10 ^ 4300] (the digits that [int] accepts), a path that ends with a
    dash, [n] written with [%04d], a dot and an extension without a dash
    gives [n]. *)
Theorem number_of_path_reads_file_name (before ext : str) (n : Z) :
  (0 <= n < 10 ^ Z.of_N max_str_digits)%Z ->
  has_char "-" ext = false ->
  number_of_path (before ++ "-" ++ fmt_0d 4 n ++ "." ++ ext) = Some n.
Proof. exact (number_of_path_file_name before ext n). Qed.

Lemma number_of_path_reads_file_name_witness :
  number_of_path ("sep" ++ "-" ++ fmt_0d 4 8 ++ "." ++ "txt") = Some 8%Z.
Proof.
  apply (number_of_path_reads_file_name "sep" "txt" 8); [| reflexivity].
  split; [lia | vm_compute; reflexivity].
Defined.

(** * Further properties of sep2html.py: the input and the names of files

    ** The lines of the input *)

Lemma splitlines_from_concat (n : nat) :
  forall s, length s <= n -> forall cur, concat (splitlines_from cur s) = cur ++ s.
Proof.
  induction n as [| n IH]; intros s Hn cur.
  - destruct s; [| cbn [length] in Hn; lia].
    destruct cur; cbn [splitlines_from concat]; now rewrite ?app_nil_r.
  - destruct s as [| c t]; cbn [splitlines_from].
    + destruct cur; cbn [concat]; now rewrite ?app_nil_r.
    + cbn [length] in Hn. destruct (linebreak c).
      * destruct t as [| c' t'].
        -- cbn [concat]. now rewrite app_nil_r.
        -- cbn [length] in Hn.
           destruct (Ascii.eqb c carriage_return && Ascii.eqb c' newline); cbn [concat];
             rewrite IH by (cbn [length]; lia); cbn [app]; now rewrite <- app_assoc.
      * rewrite IH by lia. now rewrite <- app_assoc.
Qed.

Lemma well_ended_app (cur tail : str) :
  unbroken cur = true -> tail <> [] -> well_ended (cur ++ tail) = well_ended tail.
Proof.
  unfold unbroken. induction cur as [| c cur IH]; intros Hc Ht; trivial.
  cbn [forallb] in Hc. apply andb_true_iff in Hc as [Hc Hcur].
  apply negb_true_iff in Hc.
  change ((c :: cur) ++ tail) with (c :: (cur ++ tail)). cbn [well_ended].
  destruct (cur ++ tail) eqn:Happ.
  - apply app_eq_nil in Happ as [_ Happ]. congruence.
  - rewrite Hc. now apply IH.
Qed.

Lemma well_ended_unbroken (cur : str) :
  unbroken cur = true -> cur <> [] -> well_ended cur = true.
Proof.
  unfold unbroken. induction cur as [| c [| c' cur] IH]; intros Hc Hne.
  - congruence.
  - reflexivity.
  - cbn [forallb] in Hc. apply andb_true_iff in Hc as [Hc Hcur].
    apply negb_true_iff in Hc. cbn [well_ended]. rewrite Hc.
    apply IH; [exact Hcur | discriminate].
Qed.

Lemma unbroken_snoc (cur : str) (c : ascii) :
  unbroken cur = true -> linebreak c = false -> unbroken (cur ++ [c]) = true.
Proof.
  unfold unbroken. intros Hcur Hc. rewrite forallb_app, Hcur. cbn. now rewrite Hc.
Qed.

Lemma splitlines_from_well_ended (n : nat) :
  forall s, length s <= n ->
  forall cur, unbroken cur = true ->
  Forall (fun line => well_ended line = true) (splitlines_from cur s).
Proof.
  induction n as [| n IH]; intros s Hn cur Hcur.
  - destruct s; [| cbn [length] in Hn; lia]. cbn [splitlines_from].
    destruct cur as [| x cur]; constructor; [| constructor].
    apply well_ended_unbroken; [exact Hcur | discriminate].
  - destruct s as [| c t]; cbn [splitlines_from].
    + destruct cur as [| x cur]; constructor; [| constructor].
      apply well_ended_unbroken; [exact Hcur | discriminate].
    + cbn [length] in Hn. destruct (linebreak c) eqn:Hc.
      * destruct t as [| c' t'].
        -- constructor; [| constructor].
           rewrite well_ended_app; [reflexivity | exact Hcur | discriminate].
        -- cbn [length] in Hn.
           destruct (Ascii.eqb c carriage_return && Ascii.eqb c' newline) eqn:Hcr.
           ++ constructor; [| apply IH; [lia | reflexivity]].
              rewrite well_ended_app; [| exact Hcur | discriminate].
              apply andb_true_iff in Hcr as [H1 H2].
              apply Ascii.eqb_eq in H1, H2. subst. reflexivity.
           ++ constructor; [| apply IH; [cbn [length]; lia | reflexivity]].
              rewrite well_ended_app; [reflexivity | exact Hcur | discriminate].
      * apply IH; [lia | now apply unbroken_snoc].
Qed.

Lemma well_ended_nonempty (line : str) : well_ended line = true -> line <> [].
Proof. destruct line; [discriminate | discriminate]. Qed.

Lemma well_ended_formfeed (rest : str) :
  well_ended (formfeed :: rest) = true -> rest = [].
Proof. destruct rest; [reflexivity | discriminate]. Qed.

Section DriverFacts.

Variable E : env.
Variable W : world.

(** X14.  The lines [get_input_lines] returns for a readable file are the
    text of the file, cut: joined they give the text back, none of them is
    empty (so [line[0]] is defined in both loops of [fixfile]), each ends
    where its only line end is, and a line that starts with a form feed is
    the form feed alone. *)
Theorem input_lines_are_the_text (inpath text : str) :
  read_text W inpath = Content text ->
  exists lines,
    get_input_lines W inpath = ret (Some lines)
    /\ concat lines = text
    /\ Forall (fun line => well_ended line = true) lines
    /\ Forall (fun line => line <> []) lines
    /\ (forall rest, In (formfeed :: rest) lines -> rest = []).
Proof.
  intro Hr. exists (splitlines text).
  pose proof (splitlines_from_well_ended (length text) text (Nat.le_refl _) [] eq_refl)
    as Hw.
  fold (splitlines text) in Hw.
  split; [unfold get_input_lines; now rewrite Hr |].
  split; [exact (splitlines_from_concat (length text) text (Nat.le_refl _) []) |].
  split; [exact Hw |]. split.
  - revert Hw. apply Forall_impl. exact well_ended_nonempty.
  - intros rest Hin. rewrite Forall_forall in Hw.
    exact (well_ended_formfeed rest (Hw _ Hin)).
Qed.

End DriverFacts.

Lemma input_lines_are_the_text_witness :
  exists lines,
    get_input_lines (one_file (ln "SEP: 1" ++ ln "" ++ [formfeed] ++ ln " text"))
      "sep-0001.txt" = ret (Some lines)
    /\ concat lines = ln "SEP: 1" ++ ln "" ++ [formfeed] ++ ln " text"
    /\ Forall (fun line => well_ended line = true) lines
    /\ Forall (fun line => line <> []) lines
    /\ (forall rest, In (formfeed :: rest) lines -> rest = []).
Proof.
  exact (input_lines_are_the_text
           (one_file (ln "SEP: 1" ++ ln "" ++ [formfeed] ++ ln " text"))
           "sep-0001.txt" _ eq_refl).
Defined.

(** ** The type of a document *)

Lemma isspace_lower (c : ascii) : isspace (lower_char c) = isspace c.
Proof. each_char c; reflexivity. Qed.

Lemma rstrip_ends (s : str) :
  rstrip s = [] \/ exists a c, rstrip s = a ++ [c] /\ isspace c = false.
Proof.
  unfold rstrip. pose proof (lstrip_stops (rev s)) as H.
  destruct (lstrip (rev s)) as [| c l]; [now left |].
  right. exists (rev l), c. split; [reflexivity | exact H].
Qed.

Lemma words_from_nonempty (s : str) :
  forall cur,
    cur <> [] \/ (exists c, In c s /\ isspace c = false) ->
    exists t ts, words_from cur s = t :: ts /\ t <> [].
Proof.
  induction s as [| c s IH]; intros cur H; cbn [words_from].
  - destruct H as [H | [c [[] _]]]. destruct cur; [congruence |].
    eexists; eexists; split; [reflexivity | discriminate].
  - destruct (isspace c) eqn:Hc.
    + destruct cur as [| x cur].
      * apply IH. right. destruct H as [H | [c' [[-> | Hin] Hc']]]; try congruence.
        now exists c'.
      * eexists; eexists; split; [reflexivity | discriminate].
    + apply IH. left. destruct cur; discriminate.
Qed.

Lemma last_of_app (p rest a : str) (c : ascii) :
  p ++ rest = a ++ [c] -> rest <> [] -> In c rest.
Proof.
  intros H Hne.
  destruct (exists_last Hne) as [r' [c' ->]].
  rewrite app_assoc in H. apply app_inj_tail in H as [_ ->].
  apply in_or_app. right. now left.
Qed.

(** The second word of a line that names the type. *)
Lemma type_line_word (line : str) :
  startswith (lower (rstrip line)) "content-type: " = true ->
  exists t ts,
    split_ws (lower (rstrip line)) = ("content-type:" : str) :: t :: ts /\ t <> [].
Proof.
  intro Hs. unfold startswith in Hs.
  destruct (strip_prefix "content-type: " (lower (rstrip line))) as [rest |] eqn:Hp;
    [| discriminate].
  apply strip_prefix_spec in Hp.
  destruct (rstrip_ends line) as [Hr | [a [c [Hr Hc]]]].
  { rewrite Hr in Hp. discriminate. }
  rewrite Hr in Hp. unfold lower in Hp. rewrite map_app in Hp. cbn [map] in Hp.
  assert (rest <> []) as Hne.
  { intros ->. rewrite app_nil_r in Hp.
    change ("content-type: " : str) with (("content-type:" : str) ++ [" "%char]) in Hp.
    apply app_inj_tail in Hp as [_ Hp]. rewrite <- isspace_lower, Hp in Hc.
    discriminate. }
  symmetry in Hp. pose proof (last_of_app _ _ _ _ Hp Hne) as Hin.
  destruct (words_from_nonempty rest []) as [t [ts [Hw Ht]]].
  { right. exists (lower_char c). split; [exact Hin | now rewrite isspace_lower]. }
  exists t, ts. split; [| exact Ht].
  rewrite Hr. unfold lower. rewrite map_app. cbn [map]. rewrite <- Hp.
  unfold split_ws. change (words_from [] ("content-type: " ++ rest))
    with (("content-type:" : str) :: words_from [] rest).
  now rewrite Hw.
Qed.

Lemma is_nonempty_lower (s : str) : is_nonempty (lower s) = is_nonempty s.
Proof. now destruct s. Qed.

Lemma sep_type_scan_total (lines : list str) :
  forall st, st <> Some [] ->
  exists r, sep_type_scan lines st = ret r /\ r <> Some [].
Proof.
  induction lines as [| line rest IH]; intros st Hst; cbn [sep_type_scan].
  - now exists st.
  - destruct (negb (is_nonempty (lower (rstrip line)))); [now exists st |].
    destruct (startswith (lower (rstrip line)) "content-type: ") eqn:Ht.
    + destruct (type_line_word line Ht) as [t [ts [Hw Hne]]].
      rewrite Hw. cbn [part nth_error]. rewrite bind_ret_l.
      exists (Some (or_else t "text/plain")). split; [reflexivity |].
      unfold or_else. destruct t; [congruence | discriminate].
    + destruct (startswith (lower (rstrip line)) "sep: "); apply IH; trivial.
      discriminate.
Qed.

(** X15.  [get_sep_type] never raises, and never returns the empty
    string: on a line that starts with [content-type: ] once right-stripped
    and lower-cased, [line.split()[1]] exists and is not empty (so the
    default after [or] is never used there). *)
Theorem get_sep_type_never_fails (lines : list str) :
  exists r, get_sep_type lines = ret r /\ r <> Some [].
Proof. apply sep_type_scan_total. discriminate. Qed.

(** X16.  [get_sep_type] reads the lines before the first blank line
    only: what follows a blank line has no effect on the type. *)
Theorem type_read_from_header_only (before : list str) (blank : str) (after : list str) :
  blank_line blank = true ->
  get_sep_type (before ++ blank :: after) = get_sep_type before.
Proof.
  unfold blank_line, get_sep_type. intro Hb. generalize (@None str).
  induction before as [| line rest IH]; intro st; cbn [app sep_type_scan].
  - now rewrite is_nonempty_lower, Hb.
  - destruct (negb (is_nonempty (lower (rstrip line)))); trivial.
    destruct (startswith (lower (rstrip line)) "content-type: "); trivial.
    destruct (startswith (lower (rstrip line)) "sep: "); apply IH.
Qed.

Lemma sep_type_scan_numbers (lines : list str) :
  Forall (fun line => blank_line line = false) lines ->
  Forall (fun line => type_line line = false) lines ->
  forall st,
    sep_type_scan lines st
    = ret (if existsb number_line lines then Some ("text/plain" : str) else st).
Proof.
  unfold blank_line, type_line, number_line.
  induction lines as [| line rest IH]; intros Hb Ht st; cbn [sep_type_scan existsb];
    trivial.
  inversion Hb as [| ? ? Hb1 Hb2]; subst. inversion Ht as [| ? ? Ht1 Ht2]; subst.
  rewrite is_nonempty_lower, Hb1, Ht1.
  destruct (startswith (lower (rstrip line)) "sep: "); cbn [orb]; rewrite (IH Hb2 Ht2).
  - now destruct (existsb _ rest).
  - reflexivity.
Qed.

(** X17.  Among lines none of which is blank: when none names the type,
    [get_sep_type] returns ["text/plain"] if one of them starts with
    [SEP: ] (letter case ignored) and [None] otherwise; and the first line
    that names the type decides, with or without a [SEP: ] line before or
    after it: the type is the second word of that line, lower-cased. *)
Theorem type_of_header (before : list str) :
  Forall (fun line => blank_line line = false) before ->
  Forall (fun line => type_line line = false) before ->
  get_sep_type before
  = ret (if existsb number_line before then Some ("text/plain" : str) else None)
  /\ forall line after,
       type_line line = true ->
       exists t ts,
         split_ws (lower (rstrip line)) = ("content-type:" : str) :: t :: ts
         /\ get_sep_type (before ++ line :: after) = ret (Some t).
Proof.
  intros Hb Ht. split; [now apply sep_type_scan_numbers |].
  intros line after Hline. unfold type_line in Hline.
  destruct (type_line_word line Hline) as [t [ts [Hw Hne]]].
  exists t, ts. split; [exact Hw |].
  unfold get_sep_type. generalize (@None str).
  unfold blank_line, type_line in Hb, Ht.
  induction before as [| l rest IH]; intro st; cbn [app sep_type_scan].
  - assert (is_nonempty (lower (rstrip line)) = true) as ->.
    { destruct (lower (rstrip line)); [discriminate | reflexivity]. }
    cbn [negb]. rewrite Hline, Hw. cbn [part nth_error]. rewrite bind_ret_l.
    unfold or_else. destruct t; [congruence | reflexivity].
  - inversion Hb as [| ? ? Hb1 Hb2]; subst. inversion Ht as [| ? ? Ht1 Ht2]; subst.
    rewrite is_nonempty_lower, Hb1, Ht1.
    destruct (startswith (lower (rstrip l)) "sep: "); now apply IH.
Qed.

Lemma type_read_from_header_only_witness :
  get_sep_type ([ln "SEP: 1"] ++ ln "" :: [ln "Content-Type: text/x-rst"])
  = get_sep_type [ln "SEP: 1"].
Proof.
  exact (type_read_from_header_only [ln "SEP: 1"] (ln "") [ln "Content-Type: text/x-rst"]
           eq_refl).
Defined.

Lemma type_of_header_witness :
  get_sep_type [ln "Title: T"] = ret None
  /\ exists t ts,
       split_ws (lower (rstrip (ln "Content-Type: Text/X-RST; charset=utf-8")))
       = ("content-type:" : str) :: t :: ts
       /\ get_sep_type ([ln "Title: T"]
                        ++ ln "Content-Type: Text/X-RST; charset=utf-8" :: [ln "SEP: 1"])
          = ret (Some t).
Proof.
  destruct (type_of_header [ln "Title: T"]) as [H1 H2].
  - repeat constructor.
  - repeat constructor.
  - split; [exact H1 |].
    exact (H2 (ln "Content-Type: Text/X-RST; charset=utf-8") [ln "SEP: 1"] eq_refl).
Defined.

(** ** The pages of a numbered document *)




Section PageFacts.

Variable E : env.
Variable W : world.


End PageFacts.


(** * Further properties of sep2html.py: the driver *)

Import Sep2HtmlMain.

Lemma splitext_root_prefix (p : str) : exists ext, p = splitext_root p ++ ext.
Proof.
  unfold splitext_root.
  destruct (rfind "." p) as [d |]; [| exists []; now rewrite app_nil_r].
  match goal with |- context [if ?b then _ else _] => destruct b end.
  - exists (skipn d p). now rewrite firstn_skipn.
  - exists []. now rewrite app_nil_r.
Qed.

Lemma quietly_ret {A} (a : A) : quietly (ret a) = pret a.
Proof. reflexivity. Qed.

Lemma pbind_pret_l {A B} (a : A) (k : A -> IO B) : pbind (pret a) k = k a.
Proof.
  unfold pbind, pret. destruct (k a) as [[o e w m c] r]. reflexivity.
Qed.

Section MainFacts.

Variable E : env.
Variable W : world.
Variable Sys : host.

Lemma get_input_lines_cases (inpath : str) :
  (exists lines, get_input_lines W inpath = ret (Some lines))
  \/ get_input_lines W inpath
     = (eprint ("Error: Skipping missing SEP file: " ++ inpath) ;;; ret None)
  \/ exists e, get_input_lines W inpath = raise e.
Proof.
  unfold get_input_lines. destruct (read_text W inpath) as [text | | e].
  - left. now exists (splitlines text).
  - right. now left.
  - right. right. now exists e.
Qed.

(** X24.  Whatever its input, [make_html] opens no file for writing but
    the page, named as the input without its extension, then [.html]; when
    it returns [None] (a missing file, no type, a type that is unknown or
    disabled) it has written no file, set no mode and printed nothing to
    the standard output, and has written a message to the error stream;
    and the page is the input file itself only when the name of the input
    ends with [.html]. *)
Theorem make_html_writes_only_the_page
    (G : registry) (r : nat) (inpath : str) (verbose : bool) :
  (forall path text,
     In (path, text) (written (fst (make_html E W Sys G r inpath verbose))) ->
     path = splitext_root inpath ++ ".html")
  /\ (snd (make_html E W Sys G r inpath verbose) = Returned None ->
      written (fst (make_html E W Sys G r inpath verbose)) = []
      /\ modes (fst (make_html E W Sys G r inpath verbose)) = []
      /\ stdout (fst (make_html E W Sys G r inpath verbose)) = []
      /\ stderr (fst (make_html E W Sys G r inpath verbose)) <> [])
  /\ (splitext_root inpath ++ ".html" = inpath -> endswith inpath ".html" = true).
Proof.
  split; [| split].
  3:{ intro H. rewrite <- H. apply endswith_app. }
  all: unfold make_html;
    destruct (get_input_lines_cases inpath) as [[lines ->] | [-> | [e ->]]].
  all: try (cbn; intros; try contradiction; try discriminate;
            repeat split; easy).
  - rewrite quietly_ret, pbind_pret_l. cbv beta iota.
    destruct (sep_type_scan_total lines (@None str) ltac:(discriminate)) as [t [Ht _]].
    unfold get_sep_type. rewrite Ht, quietly_ret, pbind_pret_l. cbv beta iota.
    destruct t as [t |]; [| cbn; intros ? ? []].
    destruct (lookup t (dispatch G)) as [[h |] |];
      [| unfold sep_type_error;
         destruct (lookup t (messages G)) as [tpl |]; [| cbn; intros ? ? []];
         destruct (format_locals Sys tpl inpath t); cbn; intros ? ? []
       | cbn; intros ? ? []].
    unfold convert, set_mode.
    destruct (open_write Sys (splitext_root inpath ++ ".html"));
      [destruct verbose; cbn; intros ? ? [] |].
    destruct h.
    + destruct (status (fixfile E r inpath lines));
        destruct (chmod Sys (splitext_root inpath ++ ".html") 436);
        destruct verbose; cbn; intros ? ? [[= <- _] | []]; reflexivity.
    + destruct (publish_string Sys (concat lines) inpath (splitext_root inpath ++ ".html"))
        as [err [text | s]];
        destruct (chmod Sys (splitext_root inpath ++ ".html") 436);
        destruct verbose; cbn; intros ? ? [[= <- _] | []]; reflexivity.
  - rewrite quietly_ret, pbind_pret_l. cbv beta iota.
    destruct (sep_type_scan_total lines (@None str) ltac:(discriminate)) as [t [Ht _]].
    unfold get_sep_type. rewrite Ht, quietly_ret, pbind_pret_l. cbv beta iota.
    destruct t as [t |];
      [| cbn; intros _; repeat split; easy].
    destruct (lookup t (dispatch G)) as [[h |] |];
      [| unfold sep_type_error;
         destruct (lookup t (messages G)) as [tpl |]; [| cbn; discriminate];
         destruct (format_locals Sys tpl inpath t); cbn;
         [intros _; repeat split; easy | discriminate]
       | cbn; intros _; repeat split; easy].
    unfold convert, set_mode.
    destruct (open_write Sys (splitext_root inpath ++ ".html"));
      [destruct verbose; cbn; discriminate |].
    destruct h.
    + destruct (status (fixfile E r inpath lines));
        destruct (chmod Sys (splitext_root inpath ++ ".html") 436);
        destruct verbose; cbn; discriminate.
    + destruct (publish_string Sys (concat lines) inpath (splitext_root inpath ++ ".html"))
        as [err [text | s]];
        destruct (chmod Sys (splitext_root inpath ++ ".html") 436);
        destruct verbose; cbn; discriminate.
Qed.

End MainFacts.

Lemma lookup_update_other {A} (k k' : str) (v : A) (t : table A) :
  streq k k' = false -> lookup k (update k' v t) = lookup k t.
Proof.
  intro Hk. induction t as [| [k0 v0] r IH]; cbn [update lookup].
  - now rewrite Hk.
  - destruct (streq k' k0) eqn:H0; cbn [lookup].
    + apply streq_eq in H0. subst. now rewrite Hk.
    + now rewrite IH.
Qed.

Lemma lookup_update_same {A} (k : str) (v : A) (t : table A) :
  lookup k (update k v t) = Some v.
Proof.
  induction t as [| [k0 v0] r IH]; cbn [update lookup].
  - now rewrite streq_refl.
  - destruct (streq k k0) eqn:H0; cbn [lookup].
    + now rewrite streq_refl.
    + now rewrite H0.
Qed.

Section RequirementFacts.

Variable E : env.
Variable Sys : host.

Lemma ints_all (parts : list str) (ns : list Z) :
  map int parts = map Some ns -> ints E parts = ret ns.
Proof.
  revert ns. induction parts as [| p r IH]; intros [| n ns] H; try discriminate.
  - reflexivity.
  - cbn [map] in H. injection H as Hp Hr. cbn [ints].
    now rewrite (int_of_some E p n Hp), bind_ret_l, (IH ns Hr), bind_ret_l.
Qed.

Lemma ints_bad (good : list str) (bad : str) (rest : list str) :
  Forall (fun x => int x <> None) good ->
  int bad = None ->
  ints E (good ++ bad :: rest) = raise (ValueError (int_error E bad)).
Proof.
  intros Hg Hb. induction Hg as [| g gs Hg1 _ IH]; cbn [app ints].
  - now rewrite (int_of_none E bad Hb).
  - destruct (int g) as [n |] eqn:Hn; [| congruence].
    now rewrite (int_of_some E g n Hn), bind_ret_l, IH.
Qed.

(** X26.  On an interpreter that is not older than 2.6 and with Docutils
    present, [check_requirements] compares the version of Docutils, cut at
    its dots and each part converted by [int], with [0, 2, 7] as lists: it
    disables the type [text/x-rst], with a message that names both
    versions, exactly when the installed list is smaller, and never
    touches [text/plain]; a part that is not an integer (as in [0.22rc1])
    makes it raise the [ValueError] of that part. *)
Theorem docutils_version_decides (G : registry) (v : str) :
  ints_lt (version_info Sys) [2; 6; 0]%Z = false ->
  docutils_version Sys = Some v ->
  (forall ns,
     map int (split_on "." v) = map Some ns ->
     check_requirements E Sys G
     = pret (if ints_lt ns [0; 2; 7]%Z
             then disable "text/x-rst" (docutils_old_message v) G else G)
     /\ (forall G', check_requirements E Sys G = pret G' ->
           lookup "text/plain" (dispatch G') = lookup "text/plain" (dispatch G)
           /\ (ints_lt ns [0; 2; 7]%Z = true ->
               lookup "text/x-rst" (dispatch G') = Some None)))
  /\ (forall good bad rest,
        split_on "." v = good ++ bad :: rest ->
        Forall (fun x => int x <> None) good ->
        int bad = None ->
        check_requirements E Sys G = pstop (Uncaught (ValueError (int_error E bad)))).
Proof.
  intros Hpy Hdoc. unfold check_requirements. rewrite Hpy, Hdoc, pbind_pret_l. split.
  - intros ns Hns.
    assert (check_requirements_body :
              (installed <~ quietly (ints E (split_on "." v)) ;;
               required <~ quietly (ints E (split_on "." REQUIRES_docutils)) ;;
               if ints_lt installed required
               then pret (disable "text/x-rst" (docutils_old_message v) G)
               else pret G)
              = pret (if ints_lt ns [0; 2; 7]%Z
                      then disable "text/x-rst" (docutils_old_message v) G else G)).
    { rewrite (ints_all _ _ Hns), quietly_ret, pbind_pret_l.
      change (ints E (split_on "." REQUIRES_docutils)) with (@ret (list Z) [0; 2; 7]%Z).
      rewrite quietly_ret, pbind_pret_l.
      now destruct (ints_lt ns [0; 2; 7]%Z). }
    rewrite check_requirements_body. split; [reflexivity |].
    intros G' [= <-].
    destruct (ints_lt ns [0; 2; 7]%Z); cbn [disable dispatch].
    + split; [| intros _; apply lookup_update_same].
      now apply lookup_update_other.
    + split; [reflexivity | discriminate].
  - intros good bad rest Hsplit Hgood Hbad.
    rewrite Hsplit, (ints_bad good bad rest Hgood Hbad). reflexivity.
Qed.

End RequirementFacts.

Lemma docutils_version_decides_witness :
  check_requirements example_env (plain_host (Some ("0.2" : str))) loaded
  = pret (disable "text/x-rst" (docutils_old_message "0.2") loaded)
  /\ check_requirements example_env (plain_host (Some ("0.22rc1" : str))) loaded
     = pstop (Uncaught (ValueError (int_error example_env "22rc1"))).
Proof.
  split.
  - destruct (docutils_version_decides example_env (plain_host (Some ("0.2" : str)))
                loaded "0.2" eq_refl eq_refl) as [H _].
    destruct (H [0; 2]%Z eq_refl) as [H1 _]. exact H1.
  - destruct (docutils_version_decides example_env (plain_host (Some ("0.22rc1" : str)))
                loaded "0.22rc1" eq_refl eq_refl) as [_ H].
    assert (Forall (fun x => int x <> None) ["0" : str]) as Hgood.
    { constructor; [| constructor]. intro Hx. vm_compute in Hx. discriminate Hx. }
    exact (H ["0" : str] "22rc1" [] eq_refl Hgood eq_refl).
Defined.

(** ** The two dictionaries after [check_requirements] *)

Lemma settled_disable (k message : str) (G : registry) :
  lookup k SEP_TYPE_DISPATCH <> None ->
  (forall t, settled G t) -> forall t, settled (disable k message G) t.
Proof.
  intros Hk HG t. unfold settled. cbn [disable dispatch messages].
  destruct (streq t k) eqn:Heq.
  - apply streq_eq in Heq as ->. right. rewrite !lookup_update_same.
    repeat split; trivial. now exists message.
  - rewrite !(lookup_update_other _ _ _ _ Heq). apply HG.
Qed.

Lemma settled_loaded : forall t, settled loaded t.
Proof. intro t. left. split; reflexivity. Qed.

Section MessageFacts.

Variable E : env.
Variable Sys : host.

Lemma pbind_returned {A B} (m : IO A) (k : A -> IO B) (b : B) :
  snd (pbind m k) = Returned b ->
  exists a, snd m = Returned a /\ snd (k a) = Returned b.
Proof.
  destruct m as [t [a | s]]; cbn [pbind]; [| discriminate].
  destruct (k a) as [t' r] eqn:Hk. cbn [snd]. intros ->. exists a.
  now rewrite Hk.
Qed.

Lemma quietly_returned {A} (m : M A) (a : A) :
  snd (quietly m) = Returned a -> status m = Done a.
Proof.
  unfold quietly. cbn [snd]. destruct (status m); [now intros [= ->] | discriminate].
Qed.

Lemma check_requirements_settled (G0 G : registry) :
  (forall t, settled G0 t) ->
  snd (check_requirements E Sys G0) = Returned G -> forall t, settled G t.
Proof.
  intros H0 H. unfold check_requirements in H.
  apply pbind_returned in H as [G1 [H1 H]].
  assert (forall t, settled G1 t) as HG1.
  { destruct (ints_lt (version_info Sys) [2; 6; 0]%Z).
    - apply pbind_returned in H1 as [present [_ H1]]. cbn [pret snd] in H1.
      injection H1 as <-. apply settled_disable; [discriminate | trivial].
    - cbn [pret snd] in H1. now injection H1 as <-. }
  destruct (docutils_version Sys) as [v |].
  - apply pbind_returned in H as [installed [_ H]].
    apply pbind_returned in H as [required [_ H]].
    destruct (ints_lt installed required); cbn [pret snd] in H; injection H as <-;
      trivial.
    apply settled_disable; [discriminate | trivial].
  - cbn [pret snd] in H. injection H as <-.
    apply settled_disable; [discriminate | trivial].
Qed.

(** X28.  When [check_requirements] returns, every type is in one of two
    states: as the module defines it and without a message, or one of the
    module's own types, disabled, with a message.  No type is added, and
    for a disabled type the lookup of the message in [sep_type_error]
    finds one: what [sep_type_error] does is decided by the formatting of
    that message alone. *)
Theorem disabled_types_have_messages (G : registry) :
  snd (check_requirements E Sys loaded) = Returned G ->
  (forall sep_type, settled G sep_type)
  /\ (forall inpath sep_type,
        lookup sep_type (dispatch G) = Some None ->
        exists message,
          lookup sep_type (messages G) = Some message
          /\ sep_type_error Sys G inpath sep_type
             = match format_locals Sys message inpath sep_type with
               | Returned text => complain ("Error: " ++ text)
               | Stopped s => pstop s
               end).
Proof.
  intro H. pose proof (check_requirements_settled loaded G settled_loaded H) as HG.
  split; [exact HG |]. intros inpath t Ht.
  destruct (HG t) as [[Hd _] | [_ [_ [message Hm]]]].
  - rewrite Ht in Hd. unfold SEP_TYPE_DISPATCH in Hd. cbn [lookup] in Hd.
    repeat match type of Hd with
           | context [if ?b then _ else _] => destruct b
           end; discriminate.
  - exists message. split; [exact Hm |]. unfold sep_type_error. now rewrite Hm.
Qed.

End MessageFacts.

Lemma disabled_types_have_messages_witness :
  snd (check_requirements example_env (plain_host None) loaded)
  = Returned (disable "text/x-rst" docutils_missing_message loaded)
  /\ forall sep_type,
       settled (disable "text/x-rst" docutils_missing_message loaded) sep_type.
Proof.
  split; [reflexivity |].
  apply (disabled_types_have_messages example_env (plain_host None)). reflexivity.
Defined.

Section ConvertFacts.

Variable E : env.
Variable W : world.
Variable Sys : host.

Lemma plain_stays_enabled (G0 G : registry) :
  ints_lt (version_info Sys) [2; 6; 0]%Z = false ->
  snd (check_requirements E Sys G0) = Returned G ->
  lookup "text/plain" (dispatch G) = lookup "text/plain" (dispatch G0).
Proof.
  intros Hpy. unfold check_requirements. rewrite Hpy, pbind_pret_l.
  destruct (docutils_version Sys) as [v |].
  - destruct (ints E (split_on "." v)) as [lg [ns | e]]; [| discriminate].
    unfold quietly at 1. cbn [status snd errors fst]. unfold pbind at 1.
    change (ints E (split_on "." REQUIRES_docutils)) with (@ret (list Z) [0; 2; 7]%Z).
    rewrite quietly_ret, pbind_pret_l.
    destruct (ints_lt ns [0; 2; 7]%Z); cbn; intros [= <-]; trivial.
    cbn [disable dispatch]. now apply lookup_update_other.
  - cbn. intros [= <-]. cbn [disable dispatch]. now apply lookup_update_other.
Qed.

Lemma splitlines_nonempty (text : str) :
  Forall (fun line => line <> []) (splitlines text).
Proof.
  pose proof (splitlines_from_well_ended (length text) text (Nat.le_refl _) [] eq_refl)
    as Hw.
  revert Hw. apply Forall_impl. exact well_ended_nonempty.
Qed.

Lemma concat_part (x : str) (l : list str) :
  In x l -> exists a b, concat l = a ++ x ++ b.
Proof.
  induction l as [| y l IH]; intros []; cbn [concat].
  - subst y. now exists [], (concat l).
  - destruct (IH H) as [a [b ->]]. exists (y ++ a), b. now rewrite <- app_assoc.
Qed.

(** The lines of a text of short numbers hold short numbers. *)
Lemma splitlines_short (text : str) :
  short_numbers text = true ->
  Forall (fun line => short_numbers line = true) (splitlines text).
Proof.
  intro H. apply Forall_forall. intros line Hin.
  destruct (concat_part line _ Hin) as [a [b Hc]].
  unfold splitlines in Hc.
  rewrite (splitlines_from_concat (length text) text (Nat.le_refl _) []) in Hc.
  cbn [app] in Hc. rewrite Hc in H. exact (short_numbers_part a line b H).
Qed.

(** X25.  End to end: after [check_requirements] on an interpreter not
    older than 2.6, for a readable file whose type is [text/plain], which
    is not the index, which holds no run of more than 4300 digits, whose
    header loop returns and whose header holds no field that can fail,
    and when the page can be opened for writing and its mode can be set,
    [make_html] returns the name of the page, having opened that one file
    and written to it what [fixfile] writes for the lines of the file, set
    its mode to [0o664], and printed one line of progress when it is
    verbose; the error stream holds what [fixfile] wrote there. *)
Theorem make_html_converts_plain_document
    (G : registry) (r : nat) (inpath text : str) (p : parsed) (verbose : bool) :
  ints_lt (version_info Sys) [2; 6; 0]%Z = false ->
  snd (check_requirements E Sys loaded) = Returned G ->
  read_text W inpath = Content text ->
  get_sep_type (splitlines text) = ret (Some ("text/plain" : str)) ->
  streq (basename inpath) INDEX_NAME = false ->
  short_numbers text = true ->
  read_header (splitlines text) [] [] [] = ret p ->
  Forall (fun f => fallible_key (fst f) = false) (header p) ->
  open_write Sys (splitext_root inpath ++ ".html") = None ->
  chmod Sys (splitext_root inpath ++ ".html") 436 = None ->
  make_html E W Sys G r inpath verbose
  = ({| stdout := if verbose
                  then inpath ++ " (text/plain) -> " ++ splitext_root inpath ++ ".html"
                       ++ nl
                  else [];
        stderr := errors (fixfile E r inpath (splitlines text));
        written := [(splitext_root inpath ++ ".html",
                     output (fixfile E r inpath (splitlines text)))];
        modes := [(splitext_root inpath ++ ".html", 436%N)];
        commands := [] |},
     Returned (Some (splitext_root inpath ++ ".html"))).
Proof.
  intros Hpy Hreq Hread Htype Hbase Hshort Hhead Hkeys Hopen Hmode.
  assert (status (fixfile E r inpath (splitlines text)) = Done tt) as Hdone.
  { rewrite (fixfile_status_after_header E r inpath _ p Hbase (splitlines_nonempty text)
               (splitlines_short text Hshort) Hhead).
    exact (proj1 (print_fields_infallible E _ _ _ Hkeys)). }
  pose proof (plain_stays_enabled loaded G Hpy Hreq) as Hplain.
  change (lookup "text/plain" (dispatch loaded)) with (Some (Some Fixfile)) in Hplain.
  unfold make_html, get_input_lines. rewrite Hread, quietly_ret, pbind_pret_l.
  cbv beta iota. rewrite Htype, quietly_ret, pbind_pret_l. cbv beta iota.
  rewrite Hplain. unfold convert, set_mode. rewrite Hopen, Hmode, Hdone.
  destruct verbose; unfold pbind, pret, say, trace_app, trace_nil;
    cbn [stdout stderr written modes commands app];
    rewrite ?app_nil_r, <- ?app_assoc; reflexivity.
Qed.

End ConvertFacts.

Lemma make_html_converts_plain_document_witness :
  make_html example_env (one_file plain_text_file) (plain_host None)
    (disable "text/x-rst" docutils_missing_message loaded) 0 "sep-0001.txt" true
  = ({| stdout := ln "sep-0001.txt (text/plain) -> sep-0001.html";
        stderr := errors (fixfile example_env 0 "sep-0001.txt" (splitlines plain_text_file));
        written := [("sep-0001.html" : str,
                     output (fixfile example_env 0 "sep-0001.txt"
                               (splitlines plain_text_file)))];
        modes := [("sep-0001.html" : str, 436%N)];
        commands := [] |},
     Returned (Some ("sep-0001.html" : str))).
Proof.
  apply (make_html_converts_plain_document example_env (one_file plain_text_file)
           (plain_host None) (disable "text/x-rst" docutils_missing_message loaded)
           0 "sep-0001.txt" plain_text_file
           {| header := [("SEP" : str, "1" : str); ("Title" : str, "T" : str)];
              title := "T"; sep := "1"; body := [ln "Heading"; ln " See SEP 8."] |}
           true); try reflexivity.
  repeat constructor.
Defined.

Lemma words_from_word (w : str) :
  spaceless w = true -> forall cur s, words_from cur (w ++ s) = words_from (cur ++ w) s.
Proof.
  unfold spaceless. induction w as [| c w IH]; intros Hw cur s.
  - now rewrite app_nil_r.
  - cbn [forallb] in Hw. apply andb_true_iff in Hw as [Hc Hw].
    apply negb_true_iff in Hc. cbn [app words_from]. rewrite Hc, (IH Hw).
    now rewrite <- app_assoc.
Qed.

Lemma words_word_space (w s : str) :
  is_word w = true -> words_from [] (w ++ " " ++ s) = w :: words_from [] s.
Proof.
  unfold is_word. intro H. apply andb_true_iff in H as [Hne Hsp].
  rewrite (words_from_word w Hsp). cbn [app].
  destruct w; [discriminate |]. reflexivity.
Qed.

Lemma words_word_end (w : str) : is_word w = true -> words_from [] w = [w].
Proof.
  unfold is_word. intro H. apply andb_true_iff in H as [Hne Hsp].
  rewrite <- (app_nil_r w) at 1. rewrite (words_from_word w Hsp). cbn [app words_from].
  destruct w; [discriminate |]. reflexivity.
Qed.

Lemma words_join (ws : list str) (s : str) :
  Forall (fun w => is_word w = true) ws -> ws <> [] ->
  words_from [] (join " " ws ++ " " ++ s) = ws ++ words_from [] s.
Proof.
  intros Hws. induction Hws as [| w r Hw Hr IH]; intro Hne; [congruence |].
  destruct r as [| w2 r].
  - cbn [join app]. now apply words_word_space.
  - change (join " " (w :: w2 :: r)) with (w ++ " " ++ join " " (w2 :: r)).
    rewrite <- !app_assoc. rewrite (words_word_space w _ Hw).
    cbn [app]. f_equal. apply IH. discriminate.
Qed.

Lemma spaceless_app (a b : str) :
  spaceless a = true -> spaceless b = true -> spaceless (a ++ b) = true.
Proof. unfold spaceless. intros Ha Hb. now rewrite forallb_app, Ha, Hb. Qed.

Section PushFacts.

Variable Sys : host.

(** X27.  The command [push_sep] hands to [os.system], read as words: the
    copy program ([cp] locally, [scp] otherwise), the flag ([-v] when local
    and verbose, [-q] when remote and not verbose, none otherwise), the
    pages, then the sources, then [style.css] and [sep.css], then the
    target, last; provided no file name is empty or holds whitespace and
    the user name holds none.  A status other than zero ends the run with
    that status. *)
Theorem push_sep_arguments
    (htmlfiles txtfiles : list str) (username : str) (verbose local : bool) :
  Forall (fun f => is_word f = true) htmlfiles ->
  Forall (fun f => is_word f = true) txtfiles ->
  spaceless username = true ->
  exists command,
    commands (fst (push_sep Sys htmlfiles txtfiles username verbose local)) = [command]
    /\ split_ws command
       = [if local then "cp" : str else "scp" : str]
         ++ (if local then (if verbose then ["-v" : str] else [])
             else (if verbose then [] else ["-q" : str]))
         ++ htmlfiles ++ txtfiles
         ++ [ "style.css" : str; "sep.css" : str;
              if local then HDIR
              else (if is_nonempty username then username ++ "@" else username)
                   ++ HOST ++ ":" ++ HDIR ]
    /\ snd (push_sep Sys htmlfiles txtfiles username verbose local)
       = if (os_system Sys command =? 0)%Z then Returned tt
         else Stopped (SystemExit (os_system Sys command)).
Proof.
  intros Hh Ht Hu. eexists. split; [reflexivity |]. split; [| reflexivity].
  assert (Forall (fun f => is_word f = true)
            (htmlfiles ++ txtfiles ++ ["style.css" : str; "sep.css" : str])) as Hfiles.
  { apply Forall_app. split; [exact Hh |]. apply Forall_app. split; [exact Ht |].
    repeat constructor. }
  assert (htmlfiles ++ txtfiles ++ ["style.css" : str; "sep.css" : str] <> []) as Hne.
  { intro H. apply app_eq_nil in H as [_ H]. apply app_eq_nil in H as [_ H].
    discriminate. }
  assert (is_word (if local then HDIR
                   else (if is_nonempty username then username ++ "@" else username)
                        ++ HOST ++ ":" ++ HDIR) = true) as Htarget.
  { destruct local; [reflexivity |]. unfold is_word. apply andb_true_iff. split.
    - destruct (is_nonempty username); [destruct username |]; try reflexivity.
      destruct username; reflexivity.
    - apply spaceless_app; [| reflexivity].
      destruct (is_nonempty username); trivial. now apply spaceless_app. }
  unfold split_ws, SPACE.
  assert (forall copy_cmd flag : str,
            is_word copy_cmd = true -> (flag = [] \/ is_word flag = true) ->
            forall tail,
              words_from [] (copy_cmd ++ " " ++ flag ++ " " ++ tail)
              = copy_cmd :: (if is_nonempty flag then [flag] else []) ++ words_from [] tail)
    as Hhead.
  { intros copy_cmd flag Hc [-> | Hf] tail.
    - rewrite (words_word_space copy_cmd _ Hc). reflexivity.
    - rewrite (words_word_space copy_cmd _ Hc), (words_word_space flag _ Hf).
      unfold is_word in Hf. apply andb_true_iff in Hf as [-> _]. reflexivity. }
  destruct local, verbose; cbn [negb];
    rewrite Hhead by (try reflexivity; (now left) || (now right));
    rewrite (words_join _ _ Hfiles Hne), (words_word_end _ Htarget);
    cbn [is_nonempty list_ascii_of_string app]; rewrite <- ?app_assoc; reflexivity.
Qed.

End PushFacts.

Lemma push_sep_arguments_witness :
  exists command,
    commands (fst (push_sep (plain_host None) ["sep-0001.html" : str]
                     ["sep-0001.txt" : str] "guido" false false)) = [command]
    /\ split_ws command
       = ["scp" : str] ++ ["-q" : str] ++ ["sep-0001.html" : str] ++ ["sep-0001.txt" : str]
         ++ [ "style.css" : str; "sep.css" : str;
              ("guido" ++ "@") ++ HOST ++ ":" ++ HDIR ]
    /\ snd (push_sep (plain_host None) ["sep-0001.html" : str]
              ["sep-0001.txt" : str] "guido" false false)
       = if (os_system (plain_host None) command =? 0)%Z then Returned tt
         else Stopped (SystemExit (os_system (plain_host None) command)).
Proof.
  apply (push_sep_arguments (plain_host None) ["sep-0001.html" : str]
           ["sep-0001.txt" : str] "guido" false false); try reflexivity;
    repeat constructor.
Defined.
